(** * gic_sec Adventure: the scene and overlay logic of [main.js]

    A shallow embedding of the orchestration core of the presentation:
    the shared [gameState], the overlay presenter [createOverlay], the
    seven Phaser scenes and the scene manager that runs them.

    What belongs to Phaser or to the browser is modelled only as far as
    [main.js] relies on it:
    - a scene class is instantiated once; [scene.start] stops the running
      scene (its display list is destroyed) and runs [create] of the target
      on the existing instance, so fields assigned in a constructor survive
      a restart while everything assigned in [create] is rebuilt;
    - a promise is settled at most once and runs its reactions when it is;
    - physics overlaps, key presses and pointer clicks arrive as events;
    - geometry, styling and animation playback are left out.

    Beside the scene logic the file embeds the [update] methods of the
    three stages in which the robot walks, on the cursor keys and the body
    of the player, and the functions the example stations run ([hex], the
    UUID generator, [generatePassword]), with the randomness of the browser
    supplied as a stream. *)

From Stdlib Require Import ZArith NArith SpecFloat List Lia Bool.
From Stdlib Require Import Strings.Ascii.
From Stdlib Require Strings.Byte.
From stdpp Require Import gmap strings list.

Open Scope string_scope.
Open Scope list_scope.

(** ** JavaScript numbers: IEEE 754 binary64 *)

Module Number.

Definition prec : Z := 53.
Definition emax : Z := 1024.

Definition number : Type := spec_float.

Definition of_Z (z : Z) : number := binary_normalize prec emax z 0 false.

Definition add (a b : number) : number := SFadd prec emax a b.
Definition mul (a b : number) : number := SFmul prec emax a b.
Definition div (a b : number) : number := SFdiv prec emax a b.

(** The literal [n / 10^k] written in decimal, rounded once to nearest. *)
Definition of_decimal (n : Z) (k : Z) : number := div (of_Z n) (of_Z (10 ^ k)).

(** [a >= b] *)
Definition geb (a b : number) : bool := SFleb b a.

(** [Math.min(a, b)] *)
Definition Math_min (a b : number) : number :=
  match a, b with
  | S754_nan, _ | _, S754_nan => S754_nan
  | S754_zero sa, S754_zero sb => S754_zero (sa || sb)
  | _, _ => if SFltb a b then a else b
  end.

(** The exact value of a finite number, scaled by [2^57]; every value the
    bridge counter takes is a multiple of [2^-57]. *)
Definition scaled57 (a : number) : Z :=
  match a with
  | S754_finite s m e => (if s then -1 else 1) * (Z.pos m * 2 ^ (e + 57))
  | _ => 0
  end.

(** [-a] *)
Definition opp (a : number) : number := SFopp a.

(** [a > b] *)
Definition gtb (a b : number) : bool := SFltb b a.

(** [Math.floor(a)] *)
Definition Math_floor (a : number) : number :=
  match a with
  | S754_finite s m e =>
      if (0 <=? e)%Z then a
      else of_Z (Z.shiftr (if s then Z.neg m else Z.pos m) (- e))
  | _ => a
  end.

(** [ToIntegerOrInfinity(a)]; [None] stands for an infinity. *)
Definition ToIntegerOrInfinity (a : number) : option Z :=
  match a with
  | S754_nan | S754_zero _ => Some 0%Z
  | S754_infinity _ => None
  | S754_finite s m e =>
      let z := if s then Z.neg m else Z.pos m in
      Some (if (0 <=? e)%Z then z * 2 ^ e else Z.quot z (2 ^ (- e)))%Z
  end.

End Number.

Abbreviation number := Number.number.

(** ** JavaScript truthiness of the values the game tests *)

(** [obj[key]] where the object only ever stores [true]. *)
Definition truthy_flag (v : option bool) : bool :=
  match v with Some true => true | _ => false end.

(** A string that may be [undefined]. *)
Definition truthy_text (v : option string) : bool :=
  match v with
  | Some s => negb (String.eqb s EmptyString)
  | None => false
  end.

(** ** Game objects, display list and promises *)

(** The payload destructured by [createOverlay]. *)
Record Content := mkContent {
  title : option string;
  body : option string;
  code : option string;
  output : option string;
}.

Inductive Shape :=
| Rectangle
| Text (content : option string).

Record GameObject := mkObject {
  obj_id : nat;
  obj_shape : Shape;
  obj_interactive : bool;
}.

Record Container := mkContainer {
  c_id : nat;
  c_list : list GameObject;
}.

(** The callbacks the scenes pass to [.then] on an overlay promise. *)
Inductive Reaction :=
| BenefitClosed
| NapiClosed
| BuildClosed
| StationClosed.

Inductive Promise :=
| Pending (reactions : list Reaction)
| Fulfilled.

(** What [createOverlay] touches of a scene: the objects on its display
    list that are in no container, its containers, the identities handed
    out so far, and the promises created for its overlays (a promise is
    keyed by the container of its overlay). *)
Record SceneSys := mkSys {
  displayList : list GameObject;
  containers : list Container;
  next_id : nat;
  promises : gmap nat Promise;
}.

Definition Sys (A : Type) : Type := SceneSys -> A * SceneSys.

Definition ret {A} (a : A) : Sys A := fun s => (a, s).
Definition bind {A B} (m : Sys A) (k : A -> Sys B) : Sys B :=
  fun s => let (a, s') := m s in k a s'.

Notation "'let*' x ':=' m 'in' k" := (bind m (fun x => k))
  (at level 10, x pattern, k at level 200).

(** [scene.add.container(0, 0)] *)
Definition add_container : Sys nat := fun s =>
  (next_id s,
   mkSys (displayList s) (containers s ++ [mkContainer (next_id s) []])
         (S (next_id s)) (promises s)).

Definition add_object (sh : Shape) (inter : bool) : Sys GameObject := fun s =>
  let o := mkObject (next_id s) sh inter in
  (o, mkSys (displayList s ++ [o]) (containers s) (S (next_id s)) (promises s)).

(** [scene.add.rectangle(...)] *)
Definition add_rectangle : Sys GameObject := add_object Rectangle false.

(** [scene.add.text(x, y, txt, style)] *)
Definition add_text (txt : option string) : Sys GameObject :=
  add_object (Text txt) false.

(** [scene.add.text(...).setInteractive(...)] *)
Definition add_button (txt : string) : Sys GameObject :=
  add_object (Text (Some txt)) true.

Definition remove_object (i : nat) (l : list GameObject) : list GameObject :=
  filter (fun o => obj_id o ≠ i) l.

Definition adopt (c : nat) (o : GameObject) (k : Container) : Container :=
  if decide (c_id k = c) then mkContainer (c_id k) (c_list k ++ [o]) else k.

(** [overlay.add(child)]: the child leaves the display list of the scene
    and becomes a child of the container. *)
Definition container_add (c : nat) (o : GameObject) : Sys unit := fun s =>
  (tt, mkSys (remove_object (obj_id o) (displayList s))
             (adopt c o <$> containers s)
             (next_id s) (promises s)).

(** [overlay.destroy()]: the container goes, and its children with it. *)
Definition container_destroy (c : nat) (s : SceneSys) : SceneSys :=
  mkSys (displayList s) (filter (fun k => c_id k ≠ c) (containers s))
        (next_id s) (promises s).

Definition new_promise (c : nat) : Sys unit := fun s =>
  (tt, mkSys (displayList s) (containers s) (next_id s)
             (<[c := Pending []]> (promises s))).

Definition when (b : bool) (m : Sys unit) : Sys unit :=
  if b then m else ret tt.

(** [createOverlay(scene, { title, body, code, output })]; the result is
    the promise, named by the container of the overlay. *)
Definition createOverlay (c : Content) : Sys nat :=
  let* overlay := add_container in
  let* _ := new_promise overlay in
  let* bg := add_rectangle in
  let* _ := container_add overlay bg in
  let* panel := add_rectangle in
  let* _ := container_add overlay panel in
  let* titleText := add_text (title c) in
  let* _ := container_add overlay titleText in
  let* bodyText := add_text (body c) in
  let* _ := container_add overlay bodyText in
  let* _ := when (truthy_text (code c))
              (let* codeText := add_text (code c) in
               container_add overlay codeText) in
  let* _ := when (truthy_text (output c))
              (let* outputText := add_text (output c) in
               container_add overlay outputText) in
  let* button := add_button "Close" in
  let* _ := container_add overlay button in
  ret overlay.

(** [promise.then(r)] *)
Definition promise_then (p : nat) (r : Reaction) (s : SceneSys) : SceneSys :=
  match promises s !! p with
  | Some (Pending rs) =>
      mkSys (displayList s) (containers s) (next_id s)
            (<[p := Pending (rs ++ [r])]> (promises s))
  | _ => s
  end.

(** [resolve()] of promise [p]: the reactions to run, and the settled
    promise. A second call finds the promise settled and does nothing. *)
Definition promise_resolve (p : nat) (s : SceneSys) : list Reaction * SceneSys :=
  match promises s !! p with
  | Some (Pending rs) =>
      (rs, mkSys (displayList s) (containers s) (next_id s)
                 (<[p := Fulfilled]> (promises s)))
  | _ => ([], s)
  end.

(** ** The texts of the overlays *)

Definition dquote : string := String (Ascii.ascii_of_nat 34) EmptyString.

(** The [switch] of [collectBenefit]: [title] and [body] stay [undefined]
    for a key that matches no case. *)
Definition benefit_text (benefitKey : string) : option string * option string :=
  if String.eqb benefitKey "performance" then
    (Some "Performance",
     Some "Rust code runs close to the metal and often outperforms JavaScript for CPU‑heavy tasks. It gives you explicit control over memory and avoids costly garbage collection, providing faster operations for things like cryptography or data processing.")
  else if String.eqb benefitKey "memory" then
    (Some "Memory Safety",
     Some "Rust prevents common pitfalls such as null pointer dereferences and buffer overflows at compile time. Its ownership system ensures that memory is freed predictably without a garbage collector, reducing leaks and fragmentation.")
  else if String.eqb benefitKey "concurrency" then
    (Some "Concurrency",
     Some "The ownership and borrowing model enables fearless concurrency. Rust’s type system prevents data races, allowing you to run work in multiple threads safely and efficiently.")
  else if String.eqb benefitKey "lowlevel" then
    (Some "Low‑level Control",
     Some "Rust offers fine‑grained control over system resources while remaining safer than C/C++. You can write performance‑critical code (e.g. hashing, encryption) without relying on native addons written in unsafe languages.")
  else if String.eqb benefitKey "integration" then
    (Some "Seamless Integration",
     Some "napi‑rs makes it trivial to expose Rust functions to Node.js. It generates bindings and TypeScript definitions automatically so that your Rust code feels like a first‑class citizen in a TypeScript project.")
  else (None, None).

Definition napi_overlay : Content :=
  mkContent
    (Some "napi‑rs")
    (Some "napi‑rs bridges Rust with Node.js. It generates native bindings and TypeScript definitions automatically so your Rust functions feel like any other JS API. The CLI takes care of cross‑platform compilation and packaging, making distribution easy.")
    None None.

(** [this.steps] of [BuildScene.create]. *)
Definition build_steps : list Content :=
  [ mkContent
      (Some "Initialise a package")
      (Some "Create or navigate to your Node.js project and initialise it with npm:

$ npm init -y")
      None None ;
    mkContent
      (Some "Install napi‑rs CLI")
      (Some "Install the CLI tool globally. It scaffolds Rust addons and compiles them across platforms:

$ npm install -g @napi-rs/cli")
      None None ;
    mkContent
      (Some "Add the Rust crate")
      (Some "Copy the gic_sec crate into your project. It contains the Rust implementation and Cargo.toml.")
      None None ;
    mkContent
      (Some "Build the addon")
      (Some "Run the build command from your project root. It compiles the Rust code into a native .node file:

$ napi build --release")
      None None ;
    mkContent
      (Some "Link in package.json")
      (Some ("Add a dependency in your project package.json pointing to the local crate so it can be imported in TypeScript:

"
       ++ dquote ++ "gic-sec" ++ dquote ++ ": " ++ dquote ++ "file:./gic_sec"
       ++ dquote)%string)
      None None ;
    mkContent
      (Some "Install dependencies")
      (Some "Run npm install to install the gic_sec package and any other dependencies.")
      None None ].

(** A station of [ExampleScene]: [st_async] tells whether [run] is an
    [async] function, whose result is a promise. What [run] computes
    (a token, a random password, digests) comes from the browser and is
    supplied with the event. *)
Record Station := mkStation {
  st_key : string;
  st_label : string;
  st_code : string;
  st_async : bool;
}.

(** [this.stations] of [ExampleScene.create]. *)
Definition example_stations : list Station :=
  [ mkStation "jwt"
      "JWT Encode/Decode"
      "const payload = { sub: '12345', role: 'admin', exp: Math.floor(Date.now()/1000) + 3600 };
const secret = 'my_super_secret_key';
const token = gic.encodeJwt(JSON.stringify(payload), secret, 'HS512');
const decoded = gic.decodeJwt(token, secret, true);
console.log(token);
console.log(decoded);"
      false ;
    mkStation "password"
      "Generate Password"
      "// generatePassword(length, upper, lower, digits, symbols)
const pwd = gic.generatePassword(16, true, true, true, '#*+');
console.log(pwd);"
      false ;
    mkStation "hashing"
      "SHA‑256 & SHA‑512"
      "const sha256 = gic.hashSha256('hello world');
const sha512 = gic.hashSha512('hello world');
console.log(sha256);
console.log(sha512);"
      true ;
    mkStation "random"
      "Random base64 & UUID"
      "const token = gic.randomBase64(32);
const uuid = gic.generateUuidV4();
console.log(token);
console.log(uuid);"
      false ].

(** ** The shared game state and the scene instances *)

(** [gameState] *)
Record GameState := mkGameState {
  benefitsCollected : gmap string bool;
  examplesVisited : gmap string bool;
}.

Inductive SceneKey :=
| BootScene
| TitleScene
| BenefitScene
| NapiScene
| BuildScene
| ExampleScene
| ConclusionScene.

Global Instance SceneKey_eq_dec : EqDecision SceneKey.
Proof. solve_decision. Defined.

(** The fields of the scene instances that the scene logic reads or
    writes. [benefits], [signposts] and [stationBodies] are the physics
    groups, given by the key or index attached to each live member; a
    [nextButton] is represented by its [visible] flag. *)
Record BenefitFields := mkBenefit {
  benefits : list string;
  benefit_nextButton : bool;
}.

Record NapiFields := mkNapi {
  buildProgress : number;
  overlayShown : bool;
  progressBar_width : number;
  napi_nextButton : bool;
}.

Record BuildFields := mkBuild {
  stepIndex : nat;
  steps : list Content;
  signposts : list nat;
  build_nextButton : bool;
}.

Record ExampleFields := mkExample {
  stations : list Station;
  stationBodies : list string;
  example_nextButton : bool;
}.

(** An animation registered with the global animation manager. *)
Record Frame := mkFrame {
  frame_key : string;
  frame_frame : string;
}.

Record Animation := mkAnimation {
  anim_frames : list Frame;
  anim_frameRate : number;
  anim_repeat : number;
}.

(** The whole application. [running] is the scene the scene manager runs
    and [queued] the scene a handler asked it to start; [sys] holds the
    display list of the running scene and the promises of the page;
    [digests] are the calls of an [async] station [run] that have not
    delivered their result yet. The last two fields are history kept for
    the statements only: every payload passed to [createOverlay], with the
    promise it returned, and every call of a [resolve] function. *)
Record Game := mkGame {
  gameState : GameState;
  running : SceneKey;
  queued : option SceneKey;
  sys : SceneSys;
  benefitScene : BenefitFields;
  napiScene : NapiFields;
  buildScene : BuildFields;
  exampleScene : ExampleFields;
  digests : list Station;
  anims : gmap string Animation;
  presented : list (nat * Content);
  resolved : list nat;
}.

Definition with_gameState (x : GameState) (g : Game) : Game :=
  mkGame x (running g) (queued g) (sys g) (benefitScene g) (napiScene g)
         (buildScene g) (exampleScene g) (digests g) (anims g)
         (presented g) (resolved g).

Definition with_running (x : SceneKey) (g : Game) : Game :=
  mkGame (gameState g) x (queued g) (sys g) (benefitScene g) (napiScene g)
         (buildScene g) (exampleScene g) (digests g) (anims g)
         (presented g) (resolved g).

Definition with_queued (x : option SceneKey) (g : Game) : Game :=
  mkGame (gameState g) (running g) x (sys g) (benefitScene g) (napiScene g)
         (buildScene g) (exampleScene g) (digests g) (anims g)
         (presented g) (resolved g).

Definition with_sys (x : SceneSys) (g : Game) : Game :=
  mkGame (gameState g) (running g) (queued g) x (benefitScene g) (napiScene g)
         (buildScene g) (exampleScene g) (digests g) (anims g)
         (presented g) (resolved g).

Definition with_benefitScene (x : BenefitFields) (g : Game) : Game :=
  mkGame (gameState g) (running g) (queued g) (sys g) x (napiScene g)
         (buildScene g) (exampleScene g) (digests g) (anims g)
         (presented g) (resolved g).

Definition with_napiScene (x : NapiFields) (g : Game) : Game :=
  mkGame (gameState g) (running g) (queued g) (sys g) (benefitScene g) x
         (buildScene g) (exampleScene g) (digests g) (anims g)
         (presented g) (resolved g).

Definition with_buildScene (x : BuildFields) (g : Game) : Game :=
  mkGame (gameState g) (running g) (queued g) (sys g) (benefitScene g)
         (napiScene g) x (exampleScene g) (digests g) (anims g)
         (presented g) (resolved g).

Definition with_exampleScene (x : ExampleFields) (g : Game) : Game :=
  mkGame (gameState g) (running g) (queued g) (sys g) (benefitScene g)
         (napiScene g) (buildScene g) x (digests g) (anims g)
         (presented g) (resolved g).

Definition with_digests (x : list Station) (g : Game) : Game :=
  mkGame (gameState g) (running g) (queued g) (sys g) (benefitScene g)
         (napiScene g) (buildScene g) (exampleScene g) x (anims g)
         (presented g) (resolved g).

Definition with_anims (x : gmap string Animation) (g : Game) : Game :=
  mkGame (gameState g) (running g) (queued g) (sys g) (benefitScene g)
         (napiScene g) (buildScene g) (exampleScene g) (digests g) x
         (presented g) (resolved g).

Definition with_presented (x : list (nat * Content)) (g : Game) : Game :=
  mkGame (gameState g) (running g) (queued g) (sys g) (benefitScene g)
         (napiScene g) (buildScene g) (exampleScene g) (digests g) (anims g)
         x (resolved g).

Definition with_resolved (x : list nat) (g : Game) : Game :=
  mkGame (gameState g) (running g) (queued g) (sys g) (benefitScene g)
         (napiScene g) (buildScene g) (exampleScene g) (digests g) (anims g)
         (presented g) x.

(** [this.scene.start(key)]: the request is queued and carried out by the
    scene manager once the handler has returned. *)
Definition scene_start (key : SceneKey) (g : Game) : Game :=
  with_queued (Some key) g.

(** [createOverlay(this, content).then(reaction)] *)
Definition present (c : Content) (r : Reaction) (g : Game) : Game :=
  let (p, s) := createOverlay c (sys g) in
  with_presented (presented g ++ [(p, c)]) (with_sys (promise_then p r s) g).

(** The number of overlays presented so far. *)
Definition overlays_presented (g : Game) : nat := length (presented g).

(** The overlays on screen. *)
Definition overlays_active (g : Game) : list nat := c_id <$> containers (sys g).

(** The state after the scene classes have been instantiated: only
    [NapiScene] and [BuildScene] assign fields in their constructors;
    [overlayShown] is not assigned anywhere before its first test, where
    [undefined] counts as false. *)
Definition new_Game : Game :=
  mkGame (mkGameState ∅ ∅) BootScene None (mkSys [] [] 0 ∅)
         (mkBenefit [] false)
         (mkNapi (Number.of_Z 0) false (Number.of_Z 0) false)
         (mkBuild 0 [] [] false)
         (mkExample [] [] false)
         [] ∅ [] [].

(** ** BootScene *)

(** The result of a handler that may throw. *)
Inductive Outcome (A : Type) :=
| Returns (a : A)
| Throws (error : string).
Arguments Returns {A} a.
Arguments Throws {A} error.

Module Json.

(** One entry of the [anims] array of [robot_platformer_animations.json];
    [frames] may be missing from an entry. *)
Record AnimDef := mkAnimDef {
  key : string;
  frames : option (list Frame);
  frameRate : number;
  repeat : number;
}.

(** The parsed file; the [anims] member may be missing. *)
Record RobotAnims := mkRobotAnims {
  anims : option (list AnimDef);
}.

End Json.

(** The JSON cache, as far as [BootScene] reads it: the entry stored under
    ['robotAnims'], or nothing when the file could not be loaded
    ([cache.json.get] then returns [undefined]). *)
Definition JsonCache : Type := option Json.RobotAnims.

Module BootScene.

(** The body of the [forEach] callback. *)
Definition register (def : Json.AnimDef) (m : gmap string Animation)
  : Outcome (gmap string Animation) :=
  match m !! Json.key def with
  | Some _ => Returns m
  | None =>
      match Json.frames def with
      | None => Throws "TypeError: Cannot read properties of undefined (reading 'map')"
      | Some fs =>
          Returns (<[Json.key def :=
                       mkAnimation ((fun f => mkFrame (frame_key f) (frame_frame f)) <$> fs)
                                   (Json.frameRate def) (Json.repeat def)]> m)
      end
  end.

(** [animDefs.forEach(...)] *)
Fixpoint forEach (defs : list Json.AnimDef) (m : gmap string Animation)
  : Outcome (gmap string Animation) :=
  match defs with
  | [] => Returns m
  | def :: rest =>
      match register def m with
      | Returns m' => forEach rest m'
      | Throws e => Throws e
      end
  end.

(** [BootScene.create] *)
Definition create (cache : JsonCache) (g : Game) : Outcome Game :=
  match cache with
  | None => Throws "TypeError: Cannot read properties of undefined (reading 'anims')"
  | Some json =>
      let animDefs := default [] (Json.anims json) in
      match forEach animDefs (anims g) with
      | Returns m => Returns (scene_start TitleScene (with_anims m g))
      | Throws e => Throws e
      end
  end.

End BootScene.

(** ** TitleScene *)

Module TitleScene.

(** [TitleScene.create] builds the background, two texts and the play
    button; none of it is state of the scene logic. *)
Definition create (g : Game) : Game := g.

(** The [pointerdown] handler of [playButton]. *)
Definition playButton_pointerdown (g : Game) : Game :=
  scene_start BenefitScene g.

End TitleScene.

(** ** The player sprite *)

(** [this.cursors], as far as the [update] methods read it. *)
Record Cursors := mkCursors {
  left_isDown : bool;
  right_isDown : bool;
  up_isDown : bool;
}.

(** [this.player], as far as the [update] methods read or write it: the
    velocity of the body, [body.blocked.down], the flip of the sprite, and
    the keys passed to [anims.play] so far, oldest first. *)
Record Player := mkPlayer {
  velocity_x : number;
  velocity_y : number;
  blocked_down : bool;
  flipX : bool;
  played : list string;
}.

Definition setVelocityX (x : number) (p : Player) : Player :=
  mkPlayer x (velocity_y p) (blocked_down p) (flipX p) (played p).

Definition setVelocityY (y : number) (p : Player) : Player :=
  mkPlayer (velocity_x p) y (blocked_down p) (flipX p) (played p).

Definition setFlipX (value : bool) (p : Player) : Player :=
  mkPlayer (velocity_x p) (velocity_y p) (blocked_down p) value (played p).

(** [player.anims.play(key, true)] *)
Definition anims_play (key : string) (p : Player) : Player :=
  mkPlayer (velocity_x p) (velocity_y p) (blocked_down p) (flipX p)
           (played p ++ [key]).

(** ** BenefitScene *)

Definition benefit_keys : list string :=
  ["performance"; "memory"; "concurrency"; "lowlevel"; "integration"].

Module BenefitScene.

(** [BenefitScene.create]: one item per entry of [positions], and a
    hidden [nextButton]. *)
Definition create (g : Game) : Game :=
  with_benefitScene (mkBenefit benefit_keys false) g.

(** [BenefitScene.collectBenefit(player, item)], by [item.benefitKey]. *)
Definition collectBenefit (benefitKey : string) (g : Game) : Game :=
  if truthy_flag (benefitsCollected (gameState g) !! benefitKey) then g
  else
    let g1 :=
      with_gameState
        (mkGameState (<[benefitKey := true]> (benefitsCollected (gameState g)))
                     (examplesVisited (gameState g))) g in
    (* item.destroy() *)
    let g2 :=
      with_benefitScene
        (mkBenefit (filter (fun k => k ≠ benefitKey) (benefits (benefitScene g1)))
                   (benefit_nextButton (benefitScene g1))) g1 in
    let (title, body) := benefit_text benefitKey in
    present (mkContent title body None None) BenefitClosed g2.

(** The callback passed to [.then] in [collectBenefit]. *)
Definition closed (g : Game) : Game :=
  let allCollected :=
    forallb (fun k => truthy_flag (benefitsCollected (gameState g) !! k))
            ["performance"; "memory"; "concurrency"; "lowlevel"; "integration"] in
  if allCollected
  then with_benefitScene (mkBenefit (benefits (benefitScene g)) true) g
  else g.

(** The [pointerdown] handler of [nextButton]. *)
Definition nextButton_pointerdown (g : Game) : Game :=
  scene_start NapiScene g.

(** [BenefitScene.update], on the cursor keys and the player of the frame. *)
Definition update (cursors : Cursors) (player : Player) : Player :=
  let speed := Number.of_Z 200 in
  let p1 :=
    if left_isDown cursors then
      let p := setFlipX true (setVelocityX (Number.opp speed) player) in
      if blocked_down p then anims_play "robot-walk" p else p
    else if right_isDown cursors then
      let p := setFlipX false (setVelocityX speed player) in
      if blocked_down p then anims_play "robot-walk" p else p
    else
      let p := setVelocityX (Number.of_Z 0) player in
      if blocked_down p then anims_play "robot-idle" p else p in
  let p2 :=
    if up_isDown cursors && blocked_down p1
    then anims_play "robot-jump" (setVelocityY (Number.of_Z (-320)) p1)
    else p1 in
  if negb (blocked_down p2) && Number.gtb (velocity_y p2) (Number.of_Z 0)
  then anims_play "robot-fall" p2
  else p2.

End BenefitScene.

(** ** NapiScene *)

Module NapiScene.

(** [NapiScene.create]: an empty progress bar and a hidden [nextButton];
    [buildProgress] is assigned in the constructor only. *)
Definition create (g : Game) : Game :=
  with_napiScene
    (mkNapi (buildProgress (napiScene g)) (overlayShown (napiScene g))
            (Number.of_Z 0) false) g.

(** [NapiScene.update] in a frame where [JustDown(this.spaceKey)] holds;
    in every other frame [update] does nothing. *)
Definition update_JustDown (g : Game) : Game :=
  let n := napiScene g in
  let p := Number.Math_min (Number.of_Z 1)
             (Number.add (buildProgress n) (Number.of_decimal 5 2)) in
  let w := Number.mul (Number.of_Z 400) p in
  let g1 := with_napiScene (mkNapi p (overlayShown n) w (napi_nextButton n)) g in
  if Number.geb p (Number.of_Z 1) && negb (overlayShown n) then
    let g2 := with_napiScene (mkNapi p true w (napi_nextButton n)) g1 in
    present napi_overlay NapiClosed g2
  else g1.

(** The callback passed to [.then] in [update]. *)
Definition closed (g : Game) : Game :=
  let n := napiScene g in
  with_napiScene
    (mkNapi (buildProgress n) (overlayShown n) (progressBar_width n) true) g.

Definition nextButton_pointerdown (g : Game) : Game :=
  scene_start BuildScene g.

End NapiScene.

(** ** BuildScene *)

Module BuildScene.

(** [BuildScene.create]: the step texts, one signpost per step carrying
    its index, and a hidden [nextButton]; [stepIndex] is assigned in the
    constructor only. *)
Definition create (g : Game) : Game :=
  with_buildScene
    (mkBuild (stepIndex (buildScene g)) build_steps
             (seq 0 (length build_steps)) false) g.

(** [BuildScene.reachSign(player, sign)], by [sign.stepIndex]. When
    [this.steps[this.stepIndex]] is [undefined], destructuring it in
    [createOverlay] throws after the increment. *)
Definition reachSign (sign_stepIndex : nat) (g : Game) : Game :=
  let b := buildScene g in
  if decide (sign_stepIndex = stepIndex b) then
    let step := steps b !! stepIndex b in
    let g1 :=
      with_buildScene
        (mkBuild (S (stepIndex b)) (steps b) (signposts b) (build_nextButton b)) g in
    match step with
    | Some step => present step BuildClosed g1
    | None => g1
    end
  else g.

(** The callback passed to [.then] in [reachSign]. *)
Definition closed (g : Game) : Game :=
  let b := buildScene g in
  if decide (length (steps b) <= stepIndex b)%nat
  then with_buildScene (mkBuild (stepIndex b) (steps b) (signposts b) true) g
  else g.

Definition nextButton_pointerdown (g : Game) : Game :=
  scene_start ExampleScene g.

(** [BuildScene.update], on the cursor keys and the player of the frame. *)
Definition update (cursors : Cursors) (player : Player) : Player :=
  let speed := Number.of_Z 200 in
  let p1 :=
    if left_isDown cursors then
      let p := setFlipX true (setVelocityX (Number.opp speed) player) in
      if blocked_down p then anims_play "robot-walk" p else p
    else if right_isDown cursors then
      let p := setFlipX false (setVelocityX speed player) in
      if blocked_down p then anims_play "robot-walk" p else p
    else
      let p := setVelocityX (Number.of_Z 0) player in
      if blocked_down p then anims_play "robot-idle" p else p in
  let p2 :=
    if up_isDown cursors && blocked_down p1
    then anims_play "robot-jump" (setVelocityY (Number.of_Z (-320)) p1)
    else p1 in
  if negb (blocked_down p2) && Number.gtb (velocity_y p2) (Number.of_Z 0)
  then anims_play "robot-fall" p2
  else p2.

End BuildScene.

(** ** What the example stations run *)

(** The digit of [toString(16)] for a value below sixteen. *)
Definition hex_digit (d : N) : Ascii.ascii :=
  nth (N.to_nat d) (String.list_ascii_of_string "0123456789abcdef") "0"%char.

Fixpoint toString16_digits (fuel : nat) (n : N) (acc : string) : string :=
  match fuel with
  | O => acc
  | S fuel' =>
      if (n =? 0)%N then acc
      else toString16_digits fuel' (n / 16)%N (String (hex_digit (n mod 16)%N) acc)
  end.

(** [n.toString(16)] for a non-negative integer [n]; a number of [k] bits
    has at most [k] digits. *)
Definition toString16 (n : N) : string :=
  if (n =? 0)%N then "0" else toString16_digits (N.size_nat n) n EmptyString.

Fixpoint string_repeat (s : string) (count : nat) : string :=
  match count with
  | O => EmptyString
  | S count' => (s ++ string_repeat s count')%string
  end.

(** [s.padStart(targetLength, padString)] *)
Definition padStart (targetLength : nat) (padString : string) (s : string) : string :=
  let fill := targetLength - String.length s in
  if Nat.eqb fill 0 || String.eqb padString EmptyString then s
  else (String.substring 0 fill (string_repeat padString fill) ++ s)%string.

(** [hex(buffer)] of the hashing station, on the bytes of the buffer. *)
Definition hex (buffer : list Byte.byte) : string :=
  String.concat EmptyString
    (map (fun b => padStart 2 "0" (toString16 (Byte.to_N b))) buffer).

(** The string [[1e7]+-1e3+-4e3+-8e3+-1e11] evaluates to. *)
Definition uuid_template : string := "10000000-1000-4000-8000-100000000000".

(** The callback of [replace]: [(c ^ random & 15 >> c / 4).toString(16)]
    for the digit [c] that was matched; [&] binds tighter than [^], and
    [>>] tighter than [&]. *)
Definition uuid_digit (c : N) (random : Byte.byte) : string :=
  toString16 (N.lxor c (N.land (Byte.to_N random) (N.shiftr 15 (c / 4)))).

(** [s.replace(/[018]/g, callback)], where the callback draws one byte
    from [crypto.getRandomValues] at each call; [random k] is the byte
    drawn by call number [k]. The result comes with the number of calls
    made. *)
Fixpoint replace_018 (random : nat -> Byte.byte) (calls : nat) (s : string)
  : string * nat :=
  match s with
  | EmptyString => (EmptyString, calls)
  | String c rest =>
      if Ascii.eqb c "0" || Ascii.eqb c "1" || Ascii.eqb c "8" then
        let digit := uuid_digit (Ascii.N_of_ascii c - 48) (random calls) in
        let (rest', calls') := replace_018 random (S calls) rest in
        ((digit ++ rest')%string, calls')
      else
        let (rest', calls') := replace_018 random calls rest in
        (String c rest', calls')
  end.

(** The UUID of the random station. *)
Definition uuid (random : nat -> Byte.byte) : string * nat :=
  replace_018 random 0 uuid_template.

(** [s.charAt(pos)] *)
Definition charAt (s : string) (pos : number) : string :=
  match Number.ToIntegerOrInfinity pos with
  | Some z =>
      if (z <? 0)%Z then EmptyString
      else match String.get (Z.to_nat z) s with
           | Some c => String c EmptyString
           | None => EmptyString
           end
  | None => EmptyString
  end.

(** The [for] loop of [generatePassword] with [n] rounds to go; [random i]
    is what call number [i] of [Math.random] returns. *)
Fixpoint generatePassword_loop (random : nat -> number) (chars : string)
    (n i : nat) (result : string) : string :=
  match n with
  | O => result
  | S n' =>
      generatePassword_loop random chars n' (S i)
        (result ++
         charAt chars
           (Number.Math_floor
              (Number.mul (random i)
                          (Number.of_Z (Z.of_nat (String.length chars))))))%string
  end.

(** [generatePassword(len, upper, lower, digits, symbols)] of the password
    station. *)
Definition generatePassword (random : nat -> number) (len : nat)
    (upper lower digits : bool) (symbols : option string) : string :=
  let uppers := "ABCDEFGHIJKLMNOPQRSTUVWXYZ" in
  let lowers := "abcdefghijklmnopqrstuvwxyz" in
  let nums := "0123456789" in
  let sym := symbols in
  let chars := EmptyString in
  let chars := if upper then (chars ++ uppers)%string else chars in
  let chars := if lower then (chars ++ lowers)%string else chars in
  let chars := if digits then (chars ++ nums)%string else chars in
  let chars := if truthy_text sym then (chars ++ default EmptyString sym)%string else chars in
  generatePassword_loop random chars len 0 EmptyString.

(** ** ExampleScene *)

Definition station_keys : list string := ["jwt"; "password"; "hashing"; "random"].

Module ExampleScene.

(** [ExampleScene.create]: the station definitions, one body per
    station carrying its key, and a hidden [nextButton]. *)
Definition create (g : Game) : Game :=
  with_exampleScene
    (mkExample example_stations (st_key <$> example_stations) false) g.

(** [showOverlay(output)] of [visitStation] *)
Definition showOverlay (station : Station) (output : string) (g : Game) : Game :=
  present (mkContent (Some (st_label station))
                     (Some "Here is how you use the API:")
                     (Some (st_code station))
                     (Some output))
          StationClosed g.

(** [ExampleScene.visitStation(player, stationBody)], by
    [stationBody.stationKey]; [result] is what [station.run()] returns
    when it is not a promise. When no station has the key,
    [station.run()] throws after the flag is set. *)
Definition visitStation (key : string) (result : string) (g : Game) : Game :=
  if truthy_flag (examplesVisited (gameState g) !! key) then g
  else
    let g1 :=
      with_gameState
        (mkGameState (benefitsCollected (gameState g))
                     (<[key := true]> (examplesVisited (gameState g)))) g in
    match find (fun s => String.eqb (st_key s) key) (stations (exampleScene g1)) with
    | Some station =>
        if st_async station
        then with_digests (digests g1 ++ [station]) g1
        else showOverlay station result g1
    | None => g1
    end.

(** [result.then(showOverlay)]: the digest promise of the oldest pending
    [run] is fulfilled with [output]. *)
Definition digest_fulfilled (output : string) (g : Game) : Game :=
  match digests g with
  | station :: rest => showOverlay station output (with_digests rest g)
  | [] => g
  end.

(** The callback passed to [.then] in [showOverlay]. *)
Definition closed (g : Game) : Game :=
  let e := exampleScene g in
  let allVisited :=
    forallb (fun s => truthy_flag (examplesVisited (gameState g) !! st_key s))
            (stations e) in
  if allVisited
  then with_exampleScene (mkExample (stations e) (stationBodies e) true) g
  else g.

Definition nextButton_pointerdown (g : Game) : Game :=
  scene_start ConclusionScene g.

(** [ExampleScene.update], on the cursor keys and the player of the frame. *)
Definition update (cursors : Cursors) (player : Player) : Player :=
  let speed := Number.of_Z 200 in
  let p1 :=
    if left_isDown cursors then
      let p := setFlipX true (setVelocityX (Number.opp speed) player) in
      if blocked_down p then anims_play "robot-walk" p else p
    else if right_isDown cursors then
      let p := setFlipX false (setVelocityX speed player) in
      if blocked_down p then anims_play "robot-walk" p else p
    else
      let p := setVelocityX (Number.of_Z 0) player in
      if blocked_down p then anims_play "robot-idle" p else p in
  let p2 :=
    if up_isDown cursors && blocked_down p1
    then anims_play "robot-jump" (setVelocityY (Number.of_Z (-320)) p1)
    else p1 in
  if negb (blocked_down p2) && Number.gtb (velocity_y p2) (Number.of_Z 0)
  then anims_play "robot-fall" p2
  else p2.

End ExampleScene.

(** ** ConclusionScene *)

Module ConclusionScene.

Definition create (g : Game) : Game := g.

(** The [pointerdown] handler of [exitButton] ('Play Again'). *)
Definition exitButton_pointerdown (g : Game) : Game :=
  let g1 := with_gameState (mkGameState ∅ (examplesVisited (gameState g))) g in
  let g2 := with_gameState (mkGameState (benefitsCollected (gameState g1)) ∅) g1 in
  scene_start TitleScene g2.

End ConclusionScene.

(** ** Overlay dismissal *)

Definition react (r : Reaction) (g : Game) : Game :=
  match r with
  | BenefitClosed => BenefitScene.closed g
  | NapiClosed => NapiScene.closed g
  | BuildClosed => BuildScene.closed g
  | StationClosed => ExampleScene.closed g
  end.

(** The [pointerdown] handler of the Close button of an overlay:
    [overlay.destroy(); resolve();], followed by the reactions of the
    promise. *)
Definition closeButton_pointerdown (overlay : nat) (g : Game) : Game :=
  let s1 := container_destroy overlay (sys g) in
  let (rs, s2) := promise_resolve overlay s1 in
  foldl (fun g r => react r g)
        (with_resolved (resolved g ++ [overlay]) (with_sys s2 g)) rs.

(** ** The scene manager and the events of the page *)

Inductive Event :=
| PlayButton_pointerdown
| Overlap_benefit (benefitKey : string)
| Space_JustDown
| Overlap_signpost (sign_stepIndex : nat)
| Overlap_station (stationKey : string) (result : string)
| Digest_fulfilled (output : string)
| Close_pointerdown (overlay : nat)
| NextButton_pointerdown
| ExitButton_pointerdown.

(** An event reaches a handler only if the object it concerns exists in
    the running scene: an overlap needs a live member of the group, a click
    needs a visible button, a Close click needs the overlay on the display
    list. Nothing else guards the handlers: in particular an overlay on
    screen stops neither the keyboard nor the physics of its scene. A
    digest that is delivered while [ExampleScene] is not running stays
    pending. *)
Definition dispatch (e : Event) (g : Game) : Game :=
  match e, running g with
  | PlayButton_pointerdown, TitleScene => TitleScene.playButton_pointerdown g
  | Overlap_benefit k, BenefitScene =>
      if decide (k ∈ benefits (benefitScene g))
      then BenefitScene.collectBenefit k g else g
  | Space_JustDown, NapiScene => NapiScene.update_JustDown g
  | Overlap_signpost i, BuildScene =>
      if decide (i ∈ signposts (buildScene g))
      then BuildScene.reachSign i g else g
  | Overlap_station k result, ExampleScene =>
      if decide (k ∈ stationBodies (exampleScene g))
      then ExampleScene.visitStation k result g else g
  | Digest_fulfilled output, ExampleScene => ExampleScene.digest_fulfilled output g
  | Close_pointerdown o, _ =>
      if decide (o ∈ overlays_active g) then closeButton_pointerdown o g else g
  | NextButton_pointerdown, BenefitScene =>
      if benefit_nextButton (benefitScene g)
      then BenefitScene.nextButton_pointerdown g else g
  | NextButton_pointerdown, NapiScene =>
      if napi_nextButton (napiScene g)
      then NapiScene.nextButton_pointerdown g else g
  | NextButton_pointerdown, BuildScene =>
      if build_nextButton (buildScene g)
      then BuildScene.nextButton_pointerdown g else g
  | NextButton_pointerdown, ExampleScene =>
      if example_nextButton (exampleScene g)
      then ExampleScene.nextButton_pointerdown g else g
  | ExitButton_pointerdown, ConclusionScene =>
      ConclusionScene.exitButton_pointerdown g
  | _, _ => g
  end.

(** Stopping a scene destroys what is on its display list; promises and
    identities are not affected. *)
Definition shutdown (g : Game) : Game :=
  with_sys (mkSys [] [] (next_id (sys g)) (promises (sys g))) g.

(** [create] of a scene that is started from another scene. *)
Definition scene_create (key : SceneKey) (g : Game) : Game :=
  match key with
  | BootScene => g
  | TitleScene => TitleScene.create g
  | BenefitScene => BenefitScene.create g
  | NapiScene => NapiScene.create g
  | BuildScene => BuildScene.create g
  | ExampleScene => ExampleScene.create g
  | ConclusionScene => ConclusionScene.create g
  end.

(** The scene manager carries out a queued [scene.start]: the running
    scene is stopped and [create] of the target runs on its instance. *)
Definition processQueue (g : Game) : Game :=
  match queued g with
  | None => g
  | Some key => scene_create key (with_running key (with_queued None (shutdown g)))
  end.

Definition step (e : Event) (g : Game) : Game := processQueue (dispatch e g).

Definition run (es : list Event) (g : Game) : Game :=
  foldl (fun g e => step e g) g es.

(** Start of the page: the scene classes are instantiated, [BootScene] is
    created with what the loader put in the cache, and the queued start
    of [TitleScene] is carried out. *)
Definition boot (cache : JsonCache) : Outcome Game :=
  match BootScene.create cache new_Game with
  | Returns g => Returns (processQueue g)
  | Throws e => Throws e
  end.

(** The game after a start with an animation file that defines no
    animation. *)
Definition started : Game :=
  processQueue (scene_start TitleScene new_Game).

(** The states the page can be in. *)
Definition reachable (g : Game) : Prop :=
  exists cache g0 es, boot cache = Returns g0 /\ g = run es g0.

(** * Vocabulary of the statements *)

(** Identities on the display list are older than the next one handed out. *)
Definition wf_sys (s : SceneSys) : Prop :=
  Forall (fun o => obj_id o < next_id s) (displayList s) /\
  Forall (fun k => c_id k < next_id s) (containers s).

(** The children [createOverlay] gives to the container [n]. *)
Definition overlay_children (c : Content) (n : nat) : list GameObject :=
  let fixed :=
    [ mkObject (n + 1) Rectangle false;
      mkObject (n + 2) Rectangle false;
      mkObject (n + 3) (Text (title c)) false;
      mkObject (n + 4) (Text (body c)) false ] in
  let withCode :=
    if truthy_text (code c)
    then fixed ++ [mkObject (n + 5) (Text (code c)) false] else fixed in
  let withOutput :=
    if truthy_text (output c)
    then withCode ++ [mkObject (n + 1 + length withCode) (Text (output c)) false]
    else withCode in
  withOutput ++ [mkObject (n + 1 + length withOutput) (Text (Some "Close")) true].

(** The reaction every overlay of a scene carries. *)
Definition scene_reaction (key : SceneKey) : option Reaction :=
  match key with
  | BenefitScene => Some BenefitClosed
  | NapiScene => Some NapiClosed
  | BuildScene => Some BuildClosed
  | ExampleScene => Some StationClosed
  | _ => None
  end.

Definition all_collected (g : Game) : Prop :=
  forall k, k ∈ benefit_keys -> benefitsCollected (gameState g) !! k = Some true.

Definition all_visited (g : Game) : Prop :=
  forall k, k ∈ station_keys -> examplesVisited (gameState g) !! k = Some true.

(** One press of the progress action on the counter. *)
Definition press (p : number) : number :=
  Number.Math_min (Number.of_Z 1) (Number.add p (Number.of_decimal 5 2)).

(** The counter after [k] presses from zero. *)
Definition bridge (k : nat) : number := Nat.iter k press (Number.of_Z 0).

(** The scene a queued start may lead to, and what holds when it is queued. *)
Definition queue_ok (g : Game) : Prop :=
  match queued g with
  | None => True
  | Some key =>
      match running g, key with
      | BootScene, TitleScene => gameState g = mkGameState ∅ ∅
      | TitleScene, BenefitScene => True
      | BenefitScene, NapiScene => True
      | NapiScene, BuildScene => napi_nextButton (napiScene g) = true
      | BuildScene, ExampleScene => build_nextButton (buildScene g) = true
      | ExampleScene, ConclusionScene => True
      | ConclusionScene, TitleScene => gameState g = mkGameState ∅ ∅
      | _, _ => False
      end
  end.

(** The display list and the promises agree: the overlays on screen are
    distinct, each has a pending promise that carries the reaction of the
    running scene, and the promises that were resolved belong to overlays
    that are gone. *)
Record SysInv (g : Game) : Prop := mkSysInv {
  inv_display : displayList (sys g) = [];
  inv_ids : Forall (fun k => c_id k < next_id (sys g)) (containers (sys g));
  inv_nodup : NoDup (overlays_active g);
  inv_reaction : forall o, o ∈ overlays_active g ->
    exists r, scene_reaction (running g) = Some r /\
              promises (sys g) !! o = Some (Pending [r]);
  inv_resolved_lt : forall o, o ∈ resolved g -> o < next_id (sys g);
  inv_resolved_nodup : NoDup (resolved g);
  inv_resolved_gone : forall o, o ∈ resolved g -> o ∉ overlays_active g;
  inv_resolved_settled : forall o, o ∈ resolved g ->
    promises (sys g) !! o = Some Fulfilled;
}.

Record Inv (g : Game) : Prop := mkInv {
  inv_sys : SysInv g;
  inv_benefits : forall k, k ∈ benefits (benefitScene g) -> k ∈ benefit_keys;
  inv_bodies : forall k, k ∈ stationBodies (exampleScene g) -> k ∈ station_keys;
  inv_collected : forall k v,
    benefitsCollected (gameState g) !! k = Some v -> k ∈ benefit_keys /\ v = true;
  inv_visited : forall k v,
    examplesVisited (gameState g) !! k = Some v -> k ∈ station_keys /\ v = true;
  inv_title : running g = BootScene \/ running g = TitleScene ->
    gameState g = mkGameState ∅ ∅;
  inv_benefit_next : running g = BenefitScene ->
    benefit_nextButton (benefitScene g) = true -> all_collected g;
  inv_benefit_live : running g = BenefitScene -> all_collected g ->
    benefit_nextButton (benefitScene g) = true \/ overlays_active g ≠ [];
  inv_progress : exists k, k <= 20 /\ buildProgress (napiScene g) = bridge k;
  inv_shown : overlayShown (napiScene g) = true ->
    buildProgress (napiScene g) = Number.of_Z 1;
  inv_napi : running g = NapiScene ->
    overlays_active g ≠ [] \/ napi_nextButton (napiScene g) = true ->
    overlayShown (napiScene g) = true;
  inv_after_napi :
    running g = BuildScene \/ running g = ExampleScene \/ running g = ConclusionScene ->
    overlayShown (napiScene g) = true;
  inv_build_fields : running g = BuildScene ->
    steps (buildScene g) = build_steps /\ signposts (buildScene g) = seq 0 6;
  inv_stepIndex : stepIndex (buildScene g) <= 6;
  inv_build_next : running g = BuildScene ->
    build_nextButton (buildScene g) = true -> stepIndex (buildScene g) = 6;
  inv_after_build : running g = ExampleScene \/ running g = ConclusionScene ->
    stepIndex (buildScene g) = 6;
  inv_example_fields : running g = ExampleScene ->
    stations (exampleScene g) = example_stations /\
    stationBodies (exampleScene g) = station_keys;
  inv_example_next : running g = ExampleScene ->
    example_nextButton (exampleScene g) = true -> all_visited g;
}.

(** The game after [overlay.destroy(); resolve();] of overlay [o], before
    the reactions of its promise run. *)
Definition closed_sys (o : nat) (g : Game) : Game :=
  with_resolved (resolved g ++ [o])
    (with_sys
       (mkSys (displayList (sys g))
              (filter (fun k => c_id k ≠ o) (containers (sys g)))
              (next_id (sys g))
              (<[o := Fulfilled]> (promises (sys g))))
       g).

(** What the bridge stage keeps track of, after [k] presses with [n]
    overlays presented before the stage. *)
Definition bridge_state (n k : nat) (g : Game) : Prop :=
  running g = NapiScene /\ queued g = None /\
  buildProgress (napiScene g) = bridge k /\
  (0 < k -> progressBar_width (napiScene g) = Number.mul (Number.of_Z 400) (bridge k)) /\
  overlayShown (napiScene g) = bool_decide (20 <= k) /\
  overlays_presented g = n + (if bool_decide (20 <= k) then 1 else 0).

(** What holds throughout a playthrough that follows a replay. *)
Definition replayed (h : Game) : Prop :=
  queued h = None /\
  overlayShown (napiScene h) = true /\
  stepIndex (buildScene h) = 6 /\
  (running h = TitleScene \/ running h = BenefitScene \/
   (running h = NapiScene /\ napi_nextButton (napiScene h) = false /\
    overlays_active h = [])).

(** The build stage when it is created on an instance whose step pointer
    is past the last signpost: no event changes anything. *)
Definition build_stuck (b : Game) : Prop :=
  running b = BuildScene /\ queued b = None /\
  stepIndex (buildScene b) = 6 /\ signposts (buildScene b) = seq 0 6 /\
  overlays_active b = [] /\ build_nextButton (buildScene b) = false.


(** What holds after the stations in [visited] were visited one after the
    other, each overlay being closed before the next visit, when [m]
    overlays had been presented before. *)
Definition toured (m : nat) (visited : list string) (t : Game) : Prop :=
  Inv t /\ queued t = None /\ running t = ExampleScene /\
  overlays_active t = [] /\ digests t = [] /\
  (forall k, examplesVisited (gameState t) !! k = Some true <-> k ∈ visited) /\
  overlays_presented t = m + length visited /\
  (station_keys ⊆ visited -> example_nextButton (exampleScene t) = true).

(** A first playthrough, from the title to the conclusion. *)
Definition first_playthrough : list Event :=
  [ PlayButton_pointerdown;
    Overlap_benefit "performance"; Close_pointerdown 0;
    Overlap_benefit "concurrency"; Close_pointerdown 6;
    Overlap_benefit "memory"; Close_pointerdown 12;
    Overlap_benefit "integration"; Close_pointerdown 18;
    Overlap_benefit "lowlevel"; Close_pointerdown 24;
    NextButton_pointerdown ]
  ++ replicate 20 Space_JustDown ++
  [ Close_pointerdown 30; NextButton_pointerdown;
    Overlap_signpost 0; Close_pointerdown 36;
    Overlap_signpost 1; Close_pointerdown 42;
    Overlap_signpost 2; Close_pointerdown 48;
    Overlap_signpost 3; Close_pointerdown 54;
    Overlap_signpost 4; Close_pointerdown 60;
    Overlap_signpost 5; Close_pointerdown 66;
    NextButton_pointerdown;
    Overlap_station "jwt" "Signed token: e30="; Close_pointerdown 72;
    Overlap_station "password" "aB3#dE5*gH7+jK9m"; Close_pointerdown 80;
    Overlap_station "hashing" EmptyString;
    Digest_fulfilled "SHA-256: b94d27b9"; Close_pointerdown 88;
    Overlap_station "random" "Random base64: AAAA"; Close_pointerdown 96;
    NextButton_pointerdown ].

(** An animation file without animations, with which the page starts. *)
Definition no_anims : JsonCache := Some (Json.mkRobotAnims None).

Global Instance Event_eq_dec : EqDecision Event.
Proof. solve_decision. Defined.

(** The number of presses of the progress action among the events. *)
Definition presses (es : list Event) : nat :=
  length (filter (fun e => e = Space_JustDown) es).

(** The counter the spec describes after [k] presses: [min(M, k * s)]
    with [s = 0.05] and [M = 1], computed on JavaScript numbers. *)
Definition claimed_progress (k : nat) : number :=
  Number.Math_min (Number.of_Z 1)
    (Number.mul (Number.of_Z (Z.of_nat k)) (Number.of_decimal 5 2)).

(** The game on entry to the bridge stage of a first playthrough. *)
Definition bridge_entry : Game := run (take 12 first_playthrough) started.

(** The overlay presented last among those on screen. *)
Definition newest (g : Game) : nat := default 0 (last (overlays_active g)).



(** The player visits station [k], whose [run] produces [out k] (at once,
    or through a digest promise that is then fulfilled), and closes the
    overlay that appears. *)
Definition visit_then_close (out : string -> string) (k : string) (g : Game) : Game :=
  let g1 := step (Overlap_station k (out k)) g in
  let g2 := step (Digest_fulfilled (out k)) g1 in
  step (Close_pointerdown (newest g2)) g2.

(** The player visits the stations in the given order. *)
Definition tour (out : string -> string) (order : list string) (g : Game) : Game :=
  foldl (fun g k => visit_then_close out k g) g order.






(** A second playthrough, begun after a replay of the first, in which the
    player builds the bridge again with twenty-five presses. *)
Definition second_playthrough : list Event :=
  [ PlayButton_pointerdown;
    Overlap_benefit "performance"; Close_pointerdown 104;
    Overlap_benefit "concurrency"; Close_pointerdown 110;
    Overlap_benefit "memory"; Close_pointerdown 116;
    Overlap_benefit "integration"; Close_pointerdown 122;
    Overlap_benefit "lowlevel"; Close_pointerdown 128;
    NextButton_pointerdown ]
  ++ replicate 25 Space_JustDown.

(** ** Vocabulary of the further properties *)

(** The strings of the text objects among [l], in order. *)
Definition texts (l : list GameObject) : list (option string) :=
  omap (fun x => match obj_shape x with
                 | Text t => Some t
                 | Rectangle => None
                 end) l.

(** The payload without the texts that [createOverlay] does not show. *)
Definition shown (c : Content) : Content :=
  mkContent (title c) (body c)
            (if truthy_text (code c) then code c else None)
            (if truthy_text (output c) then output c else None).


(** The order of the scenes: the scene each scene starts. *)
Definition next_scene (key : SceneKey) : SceneKey :=
  match key with
  | BootScene => TitleScene
  | TitleScene => BenefitScene
  | BenefitScene => NapiScene
  | NapiScene => BuildScene
  | BuildScene => ExampleScene
  | ExampleScene => ConclusionScene
  | ConclusionScene => TitleScene
  end.

(** The clicks that make a handler call [scene.start]. *)
Definition scene_clicks : list Event :=
  [PlayButton_pointerdown; NextButton_pointerdown; ExitButton_pointerdown].

(** What the benefit stage keeps true. *)
Definition benefit_items (g : Game) : Prop :=
  running g = BenefitScene ->
  (forall k, k ∈ benefits (benefitScene g) <->
             k ∈ benefit_keys /\ benefitsCollected (gameState g) !! k = None) /\
  NoDup (benefits (benefitScene g)) /\
  length (overlays_active g) + length (benefits (benefitScene g)) <= 5.

(** How many overlays a stage can have on screen. *)
Definition overlay_room (g : Game) : Prop :=
  match running g with
  | BenefitScene => length (overlays_active g) <= 5
  | NapiScene => length (overlays_active g) <= 1
  | BuildScene => length (overlays_active g) <= stepIndex (buildScene g)
  | ExampleScene => True
  | _ => overlays_active g = []
  end.



(** The player collects the five benefits without closing an overlay,
    closes the first overlay and leaves the stage with four overlays open. *)
Definition overlays_left_open : list Event :=
  [ PlayButton_pointerdown;
    Overlap_benefit "performance"; Overlap_benefit "concurrency";
    Overlap_benefit "memory"; Overlap_benefit "integration";
    Overlap_benefit "lowlevel";
    Close_pointerdown 0; NextButton_pointerdown ].

(** The [update] methods of the three stages in which the robot walks. *)
Definition platformer_updates : list (Cursors -> Player -> Player) :=
  [BenefitScene.update; BuildScene.update; ExampleScene.update].

(** The two digits of a byte. *)
Definition byte_digits (b : Byte.byte) : string :=
  String (hex_digit (Byte.to_N b / 16)) (String (hex_digit (Byte.to_N b mod 16)) EmptyString).

(** The byte two hexadecimal digits stand for. *)
Definition digit_value (c : Ascii.ascii) : option N :=
  let n := Ascii.N_of_ascii c in
  if (48 <=? n)%N && (n <=? 57)%N then Some (n - 48)%N
  else if (97 <=? n)%N && (n <=? 102)%N then Some (n - 87)%N
  else None.

Definition parse_byte (c1 c2 : Ascii.ascii) : option Byte.byte :=
  match digit_value c1, digit_value c2 with
  | Some h, Some l => Byte.of_N (16 * h + l)
  | _, _ => None
  end.

Definition is_hex (c : Ascii.ascii) : bool :=
  existsb (Ascii.eqb c) (String.list_ascii_of_string "0123456789abcdef").

(** The text form of a version 4 UUID of the RFC 4122 variant: what the
    character at position [i] may be. *)
Definition uuid_v4_char (i : nat) (c : Ascii.ascii) : bool :=
  if Nat.eqb i 8 || Nat.eqb i 13 || Nat.eqb i 18 || Nat.eqb i 23 then Ascii.eqb c "-"
  else if Nat.eqb i 14 then Ascii.eqb c "4"
  else if Nat.eqb i 19 then existsb (Ascii.eqb c) ["8"; "9"; "a"; "b"]%char
  else is_hex c.

Fixpoint uuid_v4_from (i : nat) (s : string) : bool :=
  match s with
  | EmptyString => Nat.eqb i 36
  | String c rest => uuid_v4_char i c && uuid_v4_from (S i) rest
  end.

Definition is_uuid_v4 (s : string) : bool := uuid_v4_from 0 s.

(** The character a template must have at position [i] for [replace_018]
    to produce a version 4 UUID from it. *)
Definition template_char (i : nat) (c : Ascii.ascii) : bool :=
  if Nat.eqb i 8 || Nat.eqb i 13 || Nat.eqb i 18 || Nat.eqb i 23 then Ascii.eqb c "-"
  else if Nat.eqb i 14 then Ascii.eqb c "4"
  else if Nat.eqb i 19 then Ascii.eqb c "8"
  else Ascii.eqb c "0" || Ascii.eqb c "1".

Fixpoint template_from (i : nat) (t : string) : bool :=
  match t with
  | EmptyString => Nat.eqb i 36
  | String c rest => template_char i c && template_from (S i) rest
  end.

(** The number of characters of [s] that [/[018]/g] matches. *)
Fixpoint count_018 (s : string) : nat :=
  match s with
  | EmptyString => 0
  | String c rest =>
      (if Ascii.eqb c "0" || Ascii.eqb c "1" || Ascii.eqb c "8" then 1 else 0)
      + count_018 rest
  end.

(** A byte for which the callback of [replace] gives the digit [h]. *)
Definition digit_byte (c : N) (h : Ascii.ascii) : Byte.byte :=
  default Byte.x00 (Byte.of_N (N.lxor c (default 0%N (digit_value h)))).

(** The characters [generatePassword] draws from. *)
Definition password_alphabet (upper lower digits : bool) (symbols : option string)
  : string :=
  ((if upper then "ABCDEFGHIJKLMNOPQRSTUVWXYZ" else EmptyString) ++
   (if lower then "abcdefghijklmnopqrstuvwxyz" else EmptyString) ++
   (if digits then "0123456789" else EmptyString) ++
   (if truthy_text symbols then default EmptyString symbols else EmptyString))%string.

(** The index round [i] of the loop passes to [charAt]. *)
Definition drawn_index (random : nat -> number) (chars : string) (i : nat) : option Z :=
  Number.ToIntegerOrInfinity
    (Number.Math_floor
       (Number.mul (random i) (Number.of_Z (Z.of_nat (String.length chars))))).

(** What [Math.random] returns: a binary64 number from 0 inclusive to 1
    exclusive. *)
Definition Math_random_range (r : number) : bool :=
  valid_binary Number.prec Number.emax r
  && Number.geb r (Number.of_Z 0)
  && SFltb r (Number.of_Z 1).

(** * Properties *)

(** ** The overlay presenter *)

Lemma remove_object_fresh (i : nat) (l : list GameObject) (o : GameObject) :
  Forall (fun x => obj_id x < i) l -> obj_id o = i ->
  remove_object i (l ++ [o]) = l.
Proof.
  intros Hl Ho. unfold remove_object. rewrite filter_app.
  assert (filter (fun x => obj_id x ≠ i) l = l) as ->.
  { induction Hl as [|x l Hx _ IH]; [reflexivity|].
    rewrite filter_cons. destruct (decide (obj_id x ≠ i)); [by rewrite IH | lia]. }
  rewrite filter_cons. destruct (decide (obj_id o ≠ i)); [congruence|].
  by rewrite filter_nil, app_nil_r.
Qed.

Lemma adopt_last (c : nat) (o : GameObject) (ks : list Container) (l : list GameObject) :
  Forall (fun k => c_id k < c) ks ->
  adopt c o <$> (ks ++ [mkContainer c l]) = ks ++ [mkContainer c (l ++ [o])].
Proof.
  intros Hks. rewrite fmap_app. f_equal.
  - induction Hks as [|k ks Hk _ IH]; [reflexivity|].
    rewrite fmap_cons, IH. f_equal. unfold adopt.
    destruct (decide (c_id k = c)); [lia | reflexivity].
  - simpl. unfold adopt. simpl. destruct (decide (c = c)); [reflexivity | congruence].
Qed.

(** A child is created on the display list and moved into the container:
    the display list is as before. *)
Lemma add_adopt {A} (sh : Shape) (i : bool) (c : nat) (k : Sys A)
    (dl : list GameObject) (ks : list Container) (l : list GameObject)
    (n : nat) (pr : gmap nat Promise) :
  Forall (fun x => obj_id x < n) dl -> Forall (fun k => c_id k < c) ks ->
  (let* o := add_object sh i in let* _ := container_add c o in k)
    (mkSys dl (ks ++ [mkContainer c l]) n pr)
  = k (mkSys dl (ks ++ [mkContainer c (l ++ [mkObject n sh i])]) (S n) pr).
Proof.
  intros Hdl Hks. unfold bind, add_object, container_add. simpl.
  rewrite remove_object_fresh by (simpl; auto).
  by rewrite adopt_last.
Qed.

Lemma Forall_obj_lt (dl : list GameObject) (n m : nat) :
  n <= m -> Forall (fun x => obj_id x < n) dl -> Forall (fun x => obj_id x < m) dl.
Proof.
  intros Hnm H. eapply Forall_impl; [exact H|]. intros x Hx. simpl in *. lia.
Qed.

Ltac fresh_ids := first [ assumption | eapply Forall_obj_lt; [|eassumption]; lia ].

Lemma add_adopt_last (sh : Shape) (i : bool) (c : nat)
    (dl : list GameObject) (ks : list Container) (l : list GameObject)
    (n : nat) (pr : gmap nat Promise) :
  Forall (fun x => obj_id x < n) dl -> Forall (fun k => c_id k < c) ks ->
  (let* o := add_object sh i in container_add c o)
    (mkSys dl (ks ++ [mkContainer c l]) n pr)
  = (tt, mkSys dl (ks ++ [mkContainer c (l ++ [mkObject n sh i])]) (S n) pr).
Proof.
  intros Hdl Hks. unfold bind, add_object, container_add. simpl.
  rewrite remove_object_fresh by (simpl; auto).
  by rewrite adopt_last.
Qed.

Lemma add_adopt_inner {A} (sh : Shape) (i : bool) (c : nat) (k : Sys A)
    (dl : list GameObject) (ks : list Container) (l : list GameObject)
    (n : nat) (pr : gmap nat Promise) :
  Forall (fun x => obj_id x < n) dl -> Forall (fun k => c_id k < c) ks ->
  (let* _ := (let* o := add_object sh i in container_add c o) in k)
    (mkSys dl (ks ++ [mkContainer c l]) n pr)
  = k (mkSys dl (ks ++ [mkContainer c (l ++ [mkObject n sh i])]) (S n) pr).
Proof.
  intros Hdl Hks. unfold bind at 1. by rewrite add_adopt_last.
Qed.

Lemma bind_ret {A B} (a : A) (k : A -> Sys B) (s : SceneSys) :
  (let* x := ret a in k x) s = k a s.
Proof. reflexivity. Qed.

(** What [createOverlay] does to a scene: one container is added, with its
    children inside and a pending promise; the display list outside the
    container is as before. *)
Lemma createOverlay_spec (c : Content) (s : SceneSys) :
  wf_sys s ->
  createOverlay c s =
    (next_id s,
     mkSys (displayList s)
           (containers s ++ [mkContainer (next_id s) (overlay_children c (next_id s))])
           (next_id s + 1 + length (overlay_children c (next_id s)))
           (<[next_id s := Pending []]> (promises s))).
Proof.
  intros [Hdl Hks]. destruct s as [dl ks n pr]. simpl in *.
  unfold createOverlay, overlay_children.
  unfold bind at 1. unfold add_container. simpl.
  unfold bind at 1. unfold new_promise at 1. simpl.
  unfold add_rectangle, add_text, add_button.
  do 4 (rewrite add_adopt by fresh_ids).
  unfold when.
  destruct (truthy_text (code c)); destruct (truthy_text (output c)); cbv beta iota;
    repeat first [ rewrite add_adopt_inner by fresh_ids | rewrite bind_ret ];
    rewrite add_adopt by fresh_ids; unfold ret; simpl;
    repeat f_equal; lia.
Qed.

Lemma destroy_last (n : nat) (ks : list Container) (l : list GameObject) :
  Forall (fun k => c_id k < n) ks ->
  filter (fun k => c_id k ≠ n) (ks ++ [mkContainer n l]) = ks.
Proof.
  intros Hks. rewrite filter_app.
  assert (filter (fun k => c_id k ≠ n) ks = ks) as ->.
  { induction Hks as [|k ks Hk _ IH]; [reflexivity|].
    rewrite filter_cons. destruct (decide (c_id k ≠ n)); [by rewrite IH | lia]. }
  rewrite filter_cons. simpl. destruct (decide (n ≠ n)); [congruence|].
  by rewrite filter_nil, app_nil_r.
Qed.

(** [createOverlay(...).then(r)] on a well-formed scene. *)
Lemma present_spec (c : Content) (r : Reaction) (g : Game) :
  wf_sys (sys g) ->
  present c r g =
    with_presented (presented g ++ [(next_id (sys g), c)])
      (with_sys
         (mkSys (displayList (sys g))
                (containers (sys g) ++
                   [mkContainer (next_id (sys g))
                                (overlay_children c (next_id (sys g)))])
                (next_id (sys g) + 1 + length (overlay_children c (next_id (sys g))))
                (<[next_id (sys g) := Pending [r]]> (promises (sys g))))
         g).
Proof.
  intros Hwf. unfold present. rewrite createOverlay_spec by done.
  unfold promise_then. simpl. rewrite lookup_insert_eq. simpl.
  by rewrite insert_insert_eq.
Qed.

(** A click on Close when the promise of the overlay is pending. *)
Lemma close_spec (o : nat) (rs : list Reaction) (g : Game) :
  promises (sys g) !! o = Some (Pending rs) ->
  closeButton_pointerdown o g =
    foldl (fun g r => react r g)
      (with_resolved (resolved g ++ [o])
         (with_sys
            (mkSys (displayList (sys g))
                   (filter (fun k => c_id k ≠ o) (containers (sys g)))
                   (next_id (sys g))
                   (<[o := Fulfilled]> (promises (sys g))))
            g))
      rs.
Proof.
  intros Hp. unfold closeButton_pointerdown, promise_resolve. simpl.
  by rewrite Hp.
Qed.

(** ** Invariants of the running game *)


Lemma SysInv_wf (g : Game) : SysInv g -> wf_sys (sys g).
Proof. intros H. split; [rewrite (inv_display g H); constructor | apply (inv_ids g H)]. Qed.

Lemma Forall_lt_weaken (ks : list Container) (n m : nat) :
  n <= m -> Forall (fun k => c_id k < n) ks -> Forall (fun k => c_id k < m) ks.
Proof. intros Hnm H. eapply Forall_impl; [exact H|]. intros x Hx. simpl in *. lia. Qed.

Lemma active_lt (g : Game) (o : nat) :
  SysInv g -> o ∈ overlays_active g -> o < next_id (sys g).
Proof.
  intros H Ho. unfold overlays_active in Ho.
  apply list_elem_of_fmap in Ho as (k & -> & Hk).
  pose proof (inv_ids g H) as Hids. rewrite Forall_forall in Hids. by apply Hids.
Qed.

(** The parts of the game that presenting an overlay leaves alone. *)
Lemma present_gameState (c : Content) (r : Reaction) (g : Game) :
  gameState (present c r g) = gameState g.
Proof. unfold present. by destruct (createOverlay c (sys g)). Qed.

Lemma present_running (c : Content) (r : Reaction) (g : Game) :
  running (present c r g) = running g.
Proof. unfold present. by destruct (createOverlay c (sys g)). Qed.

Lemma present_queued (c : Content) (r : Reaction) (g : Game) :
  queued (present c r g) = queued g.
Proof. unfold present. by destruct (createOverlay c (sys g)). Qed.

Lemma present_benefitScene (c : Content) (r : Reaction) (g : Game) :
  benefitScene (present c r g) = benefitScene g.
Proof. unfold present. by destruct (createOverlay c (sys g)). Qed.

Lemma present_napiScene (c : Content) (r : Reaction) (g : Game) :
  napiScene (present c r g) = napiScene g.
Proof. unfold present. by destruct (createOverlay c (sys g)). Qed.

Lemma present_buildScene (c : Content) (r : Reaction) (g : Game) :
  buildScene (present c r g) = buildScene g.
Proof. unfold present. by destruct (createOverlay c (sys g)). Qed.

Lemma present_exampleScene (c : Content) (r : Reaction) (g : Game) :
  exampleScene (present c r g) = exampleScene g.
Proof. unfold present. by destruct (createOverlay c (sys g)). Qed.

Lemma present_digests (c : Content) (r : Reaction) (g : Game) :
  digests (present c r g) = digests g.
Proof. unfold present. by destruct (createOverlay c (sys g)). Qed.

Lemma present_anims (c : Content) (r : Reaction) (g : Game) :
  anims (present c r g) = anims g.
Proof. unfold present. by destruct (createOverlay c (sys g)). Qed.

Lemma present_resolved (c : Content) (r : Reaction) (g : Game) :
  resolved (present c r g) = resolved g.
Proof. unfold present. by destruct (createOverlay c (sys g)). Qed.

Create Rewrite HintDb frame.

#[export] Hint Rewrite present_gameState present_running present_queued present_benefitScene present_napiScene present_buildScene present_exampleScene present_digests present_anims present_resolved : frame.

Lemma present_active (c : Content) (r : Reaction) (g : Game) :
  wf_sys (sys g) ->
  overlays_active (present c r g) = overlays_active g ++ [next_id (sys g)].
Proof.
  intros Hwf. rewrite present_spec by done. unfold overlays_active. simpl.
  by rewrite fmap_app.
Qed.

Lemma SysInv_present (c : Content) (r : Reaction) (g : Game) :
  SysInv g -> scene_reaction (running g) = Some r -> SysInv (present c r g).
Proof.
  intros H Hr. pose proof (SysInv_wf g H) as Hwf.
  pose proof (fun o => active_lt g o H) as Hlt.
  destruct H as [Hdisplay Hids Hnodup Hreaction Hrlt Hrnodup Hrgone Hrsettled].
  constructor; rewrite ?present_active by done; autorewrite with frame;
    rewrite ?present_spec by done; simpl.
  - done.
  - apply Forall_app. split.
    + eapply Forall_lt_weaken; [|exact Hids]. lia.
    + repeat constructor. simpl. lia.
  - apply NoDup_app. split; [done|]. split; [|apply NoDup_singleton].
    intros o Ho ->%list_elem_of_singleton. apply Hlt in Ho. lia.
  - intros o [Ho| ->%list_elem_of_singleton]%elem_of_app.
    + destruct (Hreaction o Ho) as (r' & Hr' & Hp). exists r'. split; [done|].
      rewrite lookup_insert_ne; [done|]. apply Hlt in Ho. lia.
    + exists r. split; [done|]. by rewrite lookup_insert_eq.
  - intros o Ho. apply Hrlt in Ho. lia.
  - done.
  - intros o Ho [Ho'| ->%list_elem_of_singleton]%elem_of_app.
    + by apply (Hrgone o).
    + apply Hrlt in Ho. lia.
  - intros o Ho. rewrite lookup_insert_ne; [by apply Hrsettled|].
    apply Hrlt in Ho. lia.
Qed.

Lemma react_sys (r : Reaction) (g : Game) : sys (react r g) = sys g.
Proof. destruct r; unfold react, BenefitScene.closed, NapiScene.closed, BuildScene.closed, ExampleScene.closed; simpl; repeat case_match; done. Qed.
Lemma react_resolved (r : Reaction) (g : Game) : resolved (react r g) = resolved g.
Proof. destruct r; unfold react, BenefitScene.closed, NapiScene.closed, BuildScene.closed, ExampleScene.closed; simpl; repeat case_match; done. Qed.
Lemma react_running (r : Reaction) (g : Game) : running (react r g) = running g.
Proof. destruct r; unfold react, BenefitScene.closed, NapiScene.closed, BuildScene.closed, ExampleScene.closed; simpl; repeat case_match; done. Qed.
Lemma react_queued (r : Reaction) (g : Game) : queued (react r g) = queued g.
Proof. destruct r; unfold react, BenefitScene.closed, NapiScene.closed, BuildScene.closed, ExampleScene.closed; simpl; repeat case_match; done. Qed.
Lemma react_gameState (r : Reaction) (g : Game) : gameState (react r g) = gameState g.
Proof. destruct r; unfold react, BenefitScene.closed, NapiScene.closed, BuildScene.closed, ExampleScene.closed; simpl; repeat case_match; done. Qed.
Lemma react_presented (r : Reaction) (g : Game) : presented (react r g) = presented g.
Proof. destruct r; unfold react, BenefitScene.closed, NapiScene.closed, BuildScene.closed, ExampleScene.closed; simpl; repeat case_match; done. Qed.

Lemma SysInv_ext (g g' : Game) :
  sys g' = sys g -> resolved g' = resolved g -> running g' = running g ->
  SysInv g -> SysInv g'.
Proof.
  intros Hs Hr Hk [H1 H2 H3 H4 H5 H6 H7 H8].
  constructor; unfold overlays_active in *; rewrite ?Hs, ?Hr, ?Hk; done.
Qed.


Lemma active_closed (o : nat) (g : Game) :
  overlays_active (closed_sys o g) = filter (fun i => i ≠ o) (overlays_active g).
Proof.
  unfold overlays_active, closed_sys. simpl.
  induction (containers (sys g)) as [|k ks IH]; [done|].
  rewrite filter_cons, fmap_cons, filter_cons.
  destruct (decide (c_id k ≠ o)); rewrite ?fmap_cons; by rewrite IH.
Qed.

Lemma SysInv_closed (o : nat) (g : Game) :
  SysInv g -> o ∈ overlays_active g -> SysInv (closed_sys o g).
Proof.
  intros H Ho. pose proof (fun o => active_lt g o H) as Hlt.
  destruct H as [Hdisplay Hids Hnodup Hreaction Hrlt Hrnodup Hrgone Hrsettled].
  constructor; rewrite ?active_closed; simpl.
  - done.
  - rewrite Forall_forall in Hids |- *.
    intros k [_ Hk]%list_elem_of_filter. by apply Hids.
  - by apply NoDup_filter.
  - intros i [Hi Hin]%list_elem_of_filter.
    destruct (Hreaction i Hin) as (r & Hr & Hp). exists r. split; [done|].
    by rewrite lookup_insert_ne.
  - intros i [Hi| ->%list_elem_of_singleton]%elem_of_app; auto.
  - apply NoDup_app. split; [done|]. split; [|apply NoDup_singleton].
    intros i Hi ->%list_elem_of_singleton. by apply (Hrgone o).
  - intros i [Hi| ->%list_elem_of_singleton]%elem_of_app [Hne Hin]%list_elem_of_filter.
    + by apply (Hrgone i).
    + done.
  - intros i [Hi| ->%list_elem_of_singleton]%elem_of_app.
    + rewrite lookup_insert_ne; [by apply Hrsettled|].
      intros ->. by apply (Hrgone i).
    + by rewrite lookup_insert_eq.
Qed.

(** A click on Close of an overlay on screen runs the reaction of the
    running scene, once. *)
Lemma close_running (o : nat) (g : Game) :
  SysInv g -> o ∈ overlays_active g ->
  exists r, scene_reaction (running g) = Some r /\
            closeButton_pointerdown o g = react r (closed_sys o g).
Proof.
  intros H Ho. destruct (inv_reaction g H o Ho) as (r & Hr & Hp).
  exists r. split; [done|]. by rewrite (close_spec o [r]).
Qed.

Ltac fields :=
  cbn [gameState running queued sys benefitScene napiScene buildScene
       exampleScene digests anims presented resolved
       with_gameState with_running with_queued with_sys with_benefitScene
       with_napiScene with_buildScene with_exampleScene with_digests
       with_anims with_presented with_resolved scene_start
       benefitsCollected examplesVisited benefits benefit_nextButton
       buildProgress overlayShown progressBar_width napi_nextButton
       stepIndex steps signposts build_nextButton
       stations stationBodies example_nextButton
       displayList containers next_id promises] in *.

Ltac inv_split H :=
  pose proof (SysInv_wf _ (inv_sys _ H)) as Hwf;
  destruct H as [Hsys Hbenefits Hbodies Hcollected Hvisited Htitle Hbnext Hblive
                 Hprogress Hshown Hnapi Hafternapi Hbuildf HstepIndex Hbuildnext
                 Hafterbuild Hexamplef Hexamplenext].

Lemma app_singleton_ne {A} (l : list A) (x : A) : l ++ [x] ≠ [].
Proof. by destruct l. Qed.

Lemma truthy_flag_true (v : option bool) : truthy_flag v = true <-> v = Some true.
Proof. destruct v as [[]|]; simpl; split; congruence. Qed.

Lemma Inv_collectBenefit (k : string) (g : Game) :
  Inv g -> running g = BenefitScene -> k ∈ benefits (benefitScene g) ->
  Inv (BenefitScene.collectBenefit k g).
Proof.
  intros H Hrun Hk. unfold BenefitScene.collectBenefit.
  destruct (truthy_flag _) eqn:Hflag; [done|].
  destruct (benefit_text k) as [t b].
  inv_split H.
  constructor; unfold all_collected, all_visited in *;
    rewrite ?present_active by done; autorewrite with frame; fields;
    rewrite ?Hrun; try done; try solve [intuition discriminate].
  - apply SysInv_present; [|fields; by rewrite Hrun].
    eapply SysInv_ext; [..|exact Hsys]; done.
  - intros k' [_ Hk']%list_elem_of_filter. auto.
  - intros k' v. destruct (decide (k = k')) as [<-|Hne].
    + rewrite lookup_insert_eq. intros [= <-]. auto.
    + rewrite lookup_insert_ne by done. auto.
  - intros _ Hnext k' Hk'. destruct (decide (k = k')) as [<-|Hne].
    + by rewrite lookup_insert_eq.
    + rewrite lookup_insert_ne by done. by apply Hbnext.
  - intros _ _. right. apply app_singleton_ne.
Qed.

(** *** The bridge counter *)

Lemma press_bridge (k : nat) :
  k <= 20 -> press (bridge k) = bridge (Nat.min 20 (S k)).
Proof.
  intros Hk. destruct (decide (k = 20)) as [->|Hne].
  - vm_compute. reflexivity.
  - replace (Nat.min 20 (S k)) with (S k) by lia. reflexivity.
Qed.

Lemma bridge_full (k : nat) :
  k <= 20 -> Number.geb (bridge k) (Number.of_Z 1) = true -> bridge k = Number.of_Z 1.
Proof.
  intros Hk.
  do 21 (destruct k as [|k]; [vm_compute; first [discriminate | reflexivity]|]).
  lia.
Qed.

Lemma press_one : press (Number.of_Z 1) = Number.of_Z 1.
Proof. vm_compute. reflexivity. Qed.

Lemma Inv_update_JustDown (g : Game) :
  Inv g -> running g = NapiScene -> Inv (NapiScene.update_JustDown g).
Proof.
  intros H Hrun. unfold NapiScene.update_JustDown.
  fold (press (buildProgress (napiScene g))).
  inv_split H. destruct Hprogress as (k & Hk & Hp).
  assert (exists k', k' <= 20 /\ press (buildProgress (napiScene g)) = bridge k') as Hprogress'.
  { exists (Nat.min 20 (S k)). split; [lia|]. rewrite Hp. by apply press_bridge. }
  cbv zeta.
  destruct (Number.geb _ _ && negb _) eqn:Hcond.
  - apply andb_true_iff in Hcond as [Hfull Hnot].
    assert (press (buildProgress (napiScene g)) = Number.of_Z 1) as Hone.
    { destruct Hprogress' as (k' & Hk' & Hp'). rewrite Hp' in Hfull |- *.
      by apply bridge_full. }
    constructor; unfold all_collected, all_visited in *;
      rewrite ?present_active by done; autorewrite with frame; fields;
      rewrite ?Hrun; try done; try solve [intuition discriminate].
    apply SysInv_present; [|fields; by rewrite Hrun].
    eapply SysInv_ext; [..|exact Hsys]; done.
  - constructor; unfold all_collected, all_visited in *; fields;
      rewrite ?Hrun; try done; try solve [intuition discriminate].
    + eapply SysInv_ext; [..|exact Hsys]; done.
    + intros Hs. rewrite (Hshown Hs). apply press_one.
Qed.

Lemma Inv_reachSign (i : nat) (g : Game) :
  Inv g -> running g = BuildScene -> i ∈ signposts (buildScene g) ->
  Inv (BuildScene.reachSign i g).
Proof.
  intros H Hrun Hi. unfold BuildScene.reachSign. cbv zeta.
  destruct (decide (i = stepIndex (buildScene g))) as [->|Hne]; [|done].
  inv_split H. destruct (Hbuildf Hrun) as [Hsteps Hsigns].
  rewrite Hsigns in Hi. apply elem_of_seq in Hi.
  destruct (steps (buildScene g) !! stepIndex (buildScene g)) as [step|] eqn:Hstep.
  - constructor; unfold all_collected, all_visited in *;
      rewrite ?present_active by done; autorewrite with frame; fields;
      rewrite ?Hrun; try done; try solve [intuition discriminate]; try lia.
    + apply SysInv_present; [|fields; by rewrite Hrun].
      eapply SysInv_ext; [..|exact Hsys]; done.
    + intros _ Hnext. specialize (Hbuildnext Hrun Hnext). lia.
  - apply lookup_ge_None in Hstep. rewrite Hsteps in Hstep. simpl in Hstep. lia.
Qed.

Lemma Inv_showOverlay (station : Station) (output : string) (g : Game) :
  Inv g -> running g = ExampleScene -> Inv (ExampleScene.showOverlay station output g).
Proof.
  intros H Hrun. unfold ExampleScene.showOverlay. inv_split H.
  constructor; unfold all_collected, all_visited in *;
    rewrite ?present_active by done; autorewrite with frame; fields;
    rewrite ?Hrun; try done; try solve [intuition discriminate].
  apply SysInv_present; [done|by rewrite Hrun].
Qed.

Lemma Inv_with_digests (l : list Station) (g : Game) : Inv g -> Inv (with_digests l g).
Proof.
  intros H. inv_split H. constructor; try done.
  eapply SysInv_ext; [..|exact Hsys]; done.
Qed.

Lemma Inv_with_queued (q : option SceneKey) (g : Game) : Inv g -> Inv (with_queued q g).
Proof.
  intros H. inv_split H. constructor; try done.
  eapply SysInv_ext; [..|exact Hsys]; done.
Qed.

Lemma Inv_visitStation (k result : string) (g : Game) :
  Inv g -> running g = ExampleScene -> k ∈ stationBodies (exampleScene g) ->
  Inv (ExampleScene.visitStation k result g).
Proof.
  intros H Hrun Hk. unfold ExampleScene.visitStation.
  destruct (truthy_flag _) eqn:Hflag; [done|]. cbv zeta.
  assert (Inv (with_gameState
                 (mkGameState (benefitsCollected (gameState g))
                              (<[k := true]> (examplesVisited (gameState g)))) g)) as H1.
  { inv_split H.
    constructor; unfold all_collected, all_visited in *; fields;
      rewrite ?Hrun; try done; try solve [intuition discriminate].
    - eapply SysInv_ext; [..|exact Hsys]; done.
    - intros k' v. destruct (decide (k = k')) as [<-|Hne].
      + rewrite lookup_insert_eq. intros [= <-]. auto.
      + rewrite lookup_insert_ne by done. auto.
    - intros _ Hnext k' Hk'. destruct (decide (k = k')) as [<-|Hne].
      + by rewrite lookup_insert_eq.
      + rewrite lookup_insert_ne by done. by apply Hexamplenext. }
  fields. destruct (find _ _) as [station|]; [|done].
  destruct (st_async station).
  - by apply Inv_with_digests.
  - by apply Inv_showOverlay.
Qed.

Lemma Inv_digest_fulfilled (output : string) (g : Game) :
  Inv g -> running g = ExampleScene -> Inv (ExampleScene.digest_fulfilled output g).
Proof.
  intros H Hrun. unfold ExampleScene.digest_fulfilled.
  destruct (digests g) as [|station rest]; [done|].
  apply Inv_showOverlay; [by apply Inv_with_digests | done].
Qed.

Lemma forallb_collected (g : Game) :
  forallb (fun k => truthy_flag (benefitsCollected (gameState g) !! k)) benefit_keys = true
  <-> all_collected g.
Proof.
  unfold all_collected. rewrite forallb_forall. split.
  - intros H k Hk. apply truthy_flag_true, H. by apply list_elem_of_In.
  - intros H k Hk. apply truthy_flag_true, H. by apply list_elem_of_In.
Qed.

Lemma forallb_visited (g : Game) :
  forallb (fun s => truthy_flag (examplesVisited (gameState g) !! st_key s))
          example_stations = true
  <-> all_visited g.
Proof.
  unfold all_visited, example_stations, station_keys. cbn [forallb st_key].
  rewrite !andb_true_iff, !truthy_flag_true. split.
  - intros (H1 & H2 & H3 & H4 & _) k Hk.
    repeat (apply elem_of_cons in Hk as [->|Hk]; [done|]).
    by apply elem_of_nil in Hk.
  - intros H. repeat split; try apply H; set_solver.
Qed.

Lemma elem_of_filter_ne (o : nat) (l : list nat) :
  o ∈ l -> l ≠ [].
Proof. intros Ho ->. by apply elem_of_nil in Ho. Qed.

Lemma Inv_close (o : nat) (g : Game) :
  Inv g -> o ∈ overlays_active g -> Inv (closeButton_pointerdown o g).
Proof.
  intros H Ho.
  destruct (close_running o g (inv_sys g H) Ho) as (r & Hr & ->).
  pose proof (SysInv_closed o g (inv_sys g H) Ho) as Hsys'.
  pose proof (elem_of_filter_ne o _ Ho) as Hne.
  inv_split H.
  destruct (running g) eqn:Hrun; try discriminate; injection Hr as <-;
    unfold react.
  - (* BenefitScene *)
    unfold BenefitScene.closed. cbv zeta.
    pose proof (forallb_collected (closed_sys o g)) as Hall.
    unfold benefit_keys in Hall at 1.
    destruct (forallb _ _) eqn:Hb;
      (constructor; unfold closed_sys in Hall |- *; fields; rewrite ?Hrun;
       first [ done | solve [intuition discriminate]
             | eapply SysInv_ext; [..|exact Hsys']; done
             | intros _ _; by apply Hall
             | intros _ _; by left
             | intros _ Hc; apply Hall in Hc; discriminate ]).
  - (* NapiScene *)
    unfold NapiScene.closed. cbv zeta.
    constructor; unfold closed_sys; fields; rewrite ?Hrun;
      first [ done | solve [intuition discriminate]
            | eapply SysInv_ext; [..|exact Hsys']; done
            | intros _ _; apply Hnapi; [done|]; by left ].
  - (* BuildScene *)
    unfold BuildScene.closed. cbv zeta.
    destruct (Hbuildf eq_refl) as [Hsteps Hsigns].
    destruct (decide _) as [Hge|Hlt];
      (constructor; unfold closed_sys in *; fields; rewrite ?Hrun;
       first [ done | solve [intuition discriminate]
             | eapply SysInv_ext; [..|exact Hsys']; done
             | intros _ _; rewrite Hsteps in Hge; simpl in Hge; lia ]).
  - (* ExampleScene *)
    unfold ExampleScene.closed. cbv zeta.
    destruct (Hexamplef eq_refl) as [Hst Hbd].
    pose proof (forallb_visited (closed_sys o g)) as Hall.
    unfold closed_sys at 1 2. fields. rewrite Hst.
    destruct (forallb _ _) eqn:Hb;
      (constructor; unfold closed_sys in Hall |- *; fields; rewrite ?Hrun;
       first [ done | solve [intuition discriminate]
             | eapply SysInv_ext; [..|exact Hsys']; done
             | intros _ _; by apply Hall ]).
Qed.

Lemma Inv_exit (g : Game) :
  Inv g -> running g = ConclusionScene -> Inv (ConclusionScene.exitButton_pointerdown g).
Proof.
  intros H Hrun. unfold ConclusionScene.exitButton_pointerdown. cbv zeta.
  inv_split H.
  constructor; unfold all_collected, all_visited in *; fields; rewrite ?Hrun;
    first [ done | solve [intuition discriminate]
          | eapply SysInv_ext; [..|exact Hsys]; done
          | intros k v; by rewrite lookup_empty ].
Qed.

Lemma shutdown_SysInv (key : SceneKey) (g : Game) :
  SysInv g -> SysInv (with_running key (with_queued None (shutdown g))).
Proof.
  intros [Hdisplay Hids Hnodup Hreaction Hrlt Hrnodup Hrgone Hrsettled].
  constructor; unfold overlays_active; fields; try done.
  - constructor.
  - intros o Ho. by apply elem_of_nil in Ho.
  - intros o _ Ho. by apply elem_of_nil in Ho.
Qed.

Lemma Inv_processQueue (g : Game) :
  Inv g -> queue_ok g -> Inv (processQueue g) /\ queued (processQueue g) = None.
Proof.
  intros H Hq. unfold processQueue, queue_ok in *.
  destruct (queued g) as [key|] eqn:Hqueued; [|done].
  pose proof (shutdown_SysInv key g (inv_sys g H)) as Hsys'.
  inv_split H.
  destruct (running g) eqn:Hrun; destruct key; try done;
    unfold scene_create, TitleScene.create, BenefitScene.create, NapiScene.create,
      BuildScene.create, ExampleScene.create, ConclusionScene.create;
    (split; [|done]);
    (constructor; unfold all_collected, all_visited, overlays_active, shutdown in *;
     fields; rewrite ?Hrun;
     first [ done | solve [intuition discriminate]
           | eapply SysInv_ext; [..|exact Hsys']; done
           | intros; solve [intuition eauto] 
           | idtac ]).
  all: try (rewrite Hq; intros k v; by rewrite lookup_empty).
  intros _ Hall. rewrite Htitle in Hall by auto.
  assert ("performance" ∈ benefit_keys) as Hin by (apply elem_of_cons; by left).
  specialize (Hall _ Hin). fields. by rewrite lookup_empty in Hall.
Qed.

Lemma foldl_react_queued (rs : list Reaction) (g : Game) :
  queued (foldl (fun g r => react r g) g rs) = queued g.
Proof.
  revert g. induction rs as [|r rs IH]; intros g; [done|].
  simpl. by rewrite IH, react_queued.
Qed.

Lemma close_queued (o : nat) (g : Game) :
  queued (closeButton_pointerdown o g) = queued g.
Proof.
  unfold closeButton_pointerdown. destruct (promise_resolve _ _) as [rs s].
  by rewrite foldl_react_queued.
Qed.

Lemma collectBenefit_queued (k : string) (g : Game) :
  queued (BenefitScene.collectBenefit k g) = queued g.
Proof.
  unfold BenefitScene.collectBenefit. destruct (truthy_flag _); [done|].
  destruct (benefit_text k). by autorewrite with frame.
Qed.

Lemma update_JustDown_queued (g : Game) :
  queued (NapiScene.update_JustDown g) = queued g.
Proof.
  unfold NapiScene.update_JustDown. cbv zeta.
  destruct (_ && _); [|done]. by autorewrite with frame.
Qed.

Lemma reachSign_queued (i : nat) (g : Game) :
  queued (BuildScene.reachSign i g) = queued g.
Proof.
  unfold BuildScene.reachSign. cbv zeta. destruct (decide _); [|done].
  destruct (_ !! _); [|done]. by autorewrite with frame.
Qed.

Lemma visitStation_queued (k result : string) (g : Game) :
  queued (ExampleScene.visitStation k result g) = queued g.
Proof.
  unfold ExampleScene.visitStation, ExampleScene.showOverlay.
  destruct (truthy_flag _); [done|]. cbv zeta.
  destruct (find _ _) as [station|]; [|done].
  destruct (st_async station); [done|]. by autorewrite with frame.
Qed.

Lemma digest_fulfilled_queued (output : string) (g : Game) :
  queued (ExampleScene.digest_fulfilled output g) = queued g.
Proof.
  unfold ExampleScene.digest_fulfilled, ExampleScene.showOverlay.
  destruct (digests g); [done|]. by autorewrite with frame.
Qed.

Lemma queue_ok_None (g : Game) : queued g = None -> queue_ok g.
Proof. intros H. unfold queue_ok. by rewrite H. Qed.

Lemma Inv_dispatch (e : Event) (g : Game) :
  Inv g -> queued g = None -> Inv (dispatch e g) /\ queue_ok (dispatch e g).
Proof.
  intros H Hq.
  pose proof (queue_ok_None g Hq) as Hok.
  unfold dispatch.
  destruct e; destruct (running g) eqn:Hrun; try done;
    repeat case_decide; try done.
  all: try (split; [by apply Inv_close | apply queue_ok_None; by rewrite close_queued]).
  - split; [by apply Inv_with_queued|]. unfold queue_ok. simpl. by rewrite Hrun.
  - split; [by apply Inv_collectBenefit|].
    apply queue_ok_None. by rewrite collectBenefit_queued.
  - split; [by apply Inv_update_JustDown|].
    apply queue_ok_None. by rewrite update_JustDown_queued.
  - split; [by apply Inv_reachSign|].
    apply queue_ok_None. by rewrite reachSign_queued.
  - split; [by apply Inv_visitStation|].
    apply queue_ok_None. by rewrite visitStation_queued.
  - split; [by apply Inv_digest_fulfilled|].
    apply queue_ok_None. by rewrite digest_fulfilled_queued.
  - destruct (benefit_nextButton _); [|done].
    split; [by apply Inv_with_queued|]. unfold queue_ok. simpl. by rewrite Hrun.
  - destruct (napi_nextButton _) eqn:Hn; [|done].
    split; [by apply Inv_with_queued|]. unfold queue_ok. simpl. by rewrite Hrun.
  - destruct (build_nextButton _) eqn:Hn; [|done].
    split; [by apply Inv_with_queued|]. unfold queue_ok. simpl. by rewrite Hrun.
  - destruct (example_nextButton _); [|done].
    split; [by apply Inv_with_queued|]. unfold queue_ok. simpl. by rewrite Hrun.
  - split; [by apply Inv_exit|]. unfold queue_ok. simpl. by rewrite Hrun.
Qed.

(** Every step of the game preserves the invariant. *)
Lemma Inv_step (e : Event) (g : Game) :
  Inv g /\ queued g = None -> Inv (step e g) /\ queued (step e g) = None.
Proof.
  intros [H Hq]. unfold step.
  destruct (Inv_dispatch e g H Hq) as [H' Hok]. by apply Inv_processQueue.
Qed.

Lemma Inv_run (es : list Event) (g : Game) :
  Inv g /\ queued g = None -> Inv (run es g) /\ queued (run es g) = None.
Proof.
  revert g. induction es as [|e es IH]; intros g H; [done|].
  simpl. apply IH. by apply Inv_step.
Qed.

Lemma Inv_new_Game : Inv new_Game.
Proof.
  constructor; [constructor|..]; unfold overlays_active; simpl;
    first [ done | solve [intuition discriminate] | solve [constructor] | lia
          | intros ? Hin; by apply elem_of_nil in Hin
          | intros ? ? Hin; by apply elem_of_nil in Hin
          | intros ? ?; by rewrite lookup_empty
          | idtac ].
  exists 0. split; [lia | reflexivity].
Qed.

Lemma Inv_boot (cache : JsonCache) (g : Game) :
  boot cache = Returns g -> Inv g /\ queued g = None.
Proof.
  unfold boot, BootScene.create. destruct cache as [json|]; [|done].
  destruct (BootScene.forEach _ _) as [m|]; [|done]. intros [= <-].
  apply Inv_processQueue.
  - pose proof Inv_new_Game as H. inv_split H.
    constructor; try done. eapply SysInv_ext; [..|exact Hsys]; done.
  - unfold queue_ok. reflexivity.
Qed.

(** The invariant holds in every state the page can be in. *)
Lemma reachable_Inv (g : Game) : reachable g -> Inv g /\ queued g = None.
Proof.
  intros (cache & g0 & es & Hboot & ->). apply Inv_run. by apply (Inv_boot cache).
Qed.

(** ** The properties of the specification *)

Lemma started_reachable (es : list Event) : reachable (run es started).
Proof. exists no_anims, started, es. split; reflexivity. Qed.

Lemma processQueue_None (g : Game) : queued g = None -> processQueue g = g.
Proof. intros H. unfold processQueue. by rewrite H. Qed.

(** *** Session state *)

Lemma foldl_react_gameState (rs : list Reaction) (g : Game) :
  gameState (foldl (fun g r => react r g) g rs) = gameState g.
Proof.
  revert g. induction rs as [|r rs IH]; intros g; [done|].
  simpl. by rewrite IH, react_gameState.
Qed.

Lemma close_gameState (o : nat) (g : Game) :
  gameState (closeButton_pointerdown o g) = gameState g.
Proof.
  unfold closeButton_pointerdown. destruct (promise_resolve _ _) as [rs s].
  by rewrite foldl_react_gameState.
Qed.

Lemma processQueue_gameState (g : Game) : gameState (processQueue g) = gameState g.
Proof.
  unfold processQueue. destruct (queued g) as [[]|]; reflexivity.
Qed.

(** Apart from the reset on replay, a step only adds [true] entries to the
    two mappings. *)
Lemma dispatch_keeps_flags (e : Event) (g : Game) (k : string) :
  e ≠ ExitButton_pointerdown ->
  (benefitsCollected (gameState g) !! k = Some true ->
   benefitsCollected (gameState (dispatch e g)) !! k = Some true) /\
  (examplesVisited (gameState g) !! k = Some true ->
   examplesVisited (gameState (dispatch e g)) !! k = Some true).
Proof.
  intros He. unfold dispatch.
  destruct e; try done; destruct (running g); try done;
    repeat case_decide; try done;
    rewrite ?close_gameState; try done;
    try (case_match; done).
  - unfold BenefitScene.collectBenefit. destruct (truthy_flag _); [done|].
    destruct (benefit_text _). rewrite present_gameState. fields. split; [|done].
    intros Hk. destruct (decide (benefitKey = k)) as [->|Hne].
    + by rewrite lookup_insert_eq.
    + by rewrite lookup_insert_ne.
  - unfold NapiScene.update_JustDown. cbv zeta.
    destruct (_ && _); by rewrite ?present_gameState.
  - unfold BuildScene.reachSign. cbv zeta. destruct (decide _); [|done].
    destruct (steps _ !! _); by rewrite ?present_gameState.
  - unfold ExampleScene.visitStation, ExampleScene.showOverlay.
    destruct (truthy_flag _); [done|]. cbv zeta.
    assert (forall m : gmap string bool, m !! k = Some true ->
              <[stationKey := true]> m !! k = Some true) as Hins.
    { intros m Hk. destruct (decide (stationKey = k)) as [->|Hne].
      - by rewrite lookup_insert_eq.
      - by rewrite lookup_insert_ne. }
    destruct (find _ _) as [station|]; [destruct (st_async station)|];
      rewrite ?present_gameState; fields; auto.
  - unfold ExampleScene.digest_fulfilled, ExampleScene.showOverlay.
    destruct (digests g); by rewrite ?present_gameState.
Qed.

(** C5. Session-state invariant: a step other than the replay never clears
    a key that is true in [benefitsCollected] or in [examplesVisited], and
    in every state the page can reach the keys of [benefitsCollected] are
    among the five benefit keys and those of [examplesVisited] among the
    four station keys. *)
Theorem session_state_invariant (g : Game) (e : Event) (k : string) :
  reachable g ->
  e ≠ ExitButton_pointerdown ->
  (benefitsCollected (gameState g) !! k = Some true ->
   benefitsCollected (gameState (step e g)) !! k = Some true) /\
  (examplesVisited (gameState g) !! k = Some true ->
   examplesVisited (gameState (step e g)) !! k = Some true) /\
  (is_Some (benefitsCollected (gameState g) !! k) -> k ∈ benefit_keys) /\
  (is_Some (examplesVisited (gameState g) !! k) -> k ∈ station_keys).
Proof.
  intros Hreach He. unfold step. rewrite processQueue_gameState.
  destruct (dispatch_keeps_flags e g k He) as [Hb Hv].
  destruct (reachable_Inv g Hreach) as [H _].
  repeat split; try done.
  - intros [v Hk]. by apply (inv_collected g H k v).
  - intros [v Hk]. by apply (inv_visited g H k v).
Qed.

Lemma session_state_invariant_witness :
  let g := run (take 4 first_playthrough) started in
  reachable g /\ Overlap_benefit "memory" ≠ ExitButton_pointerdown /\
  (benefitsCollected (gameState g) !! "performance" = Some true ->
   benefitsCollected (gameState (step (Overlap_benefit "memory") g)) !! "performance"
     = Some true).
Proof.
  split; [apply started_reachable|]. split; [discriminate|].
  apply (session_state_invariant _ (Overlap_benefit "memory") "performance");
    [apply started_reachable | discriminate].
Defined.

(** C6. Replay: the handler of the Play Again button of the terminal stage
    leaves both session mappings empty and the scene manager at the title
    stage. *)
Theorem replay_resets_session (g : Game) :
  running g = ConclusionScene ->
  benefitsCollected (gameState (step ExitButton_pointerdown g)) = ∅ /\
  examplesVisited (gameState (step ExitButton_pointerdown g)) = ∅ /\
  running (step ExitButton_pointerdown g) = TitleScene /\
  queued (step ExitButton_pointerdown g) = None.
Proof.
  intros Hrun. unfold step, dispatch. rewrite Hrun. done.
Qed.

Lemma replay_resets_session_witness :
  running (run first_playthrough started) = ConclusionScene /\
  benefitsCollected
    (gameState (step ExitButton_pointerdown (run first_playthrough started))) = ∅ /\
  examplesVisited
    (gameState (step ExitButton_pointerdown (run first_playthrough started))) = ∅ /\
  running (step ExitButton_pointerdown (run first_playthrough started)) = TitleScene /\
  queued (step ExitButton_pointerdown (run first_playthrough started)) = None.
Proof.
  split; [vm_compute; reflexivity|].
  apply replay_resets_session. vm_compute. reflexivity.
Defined.

(** *** Overlays on screen *)

(** C7. Two overlays on screen at once: in the benefit stage the player
    walks from the first benefit to the next one on the ground while the
    overlay of the first is still open; [collectBenefit] presents a second
    overlay, and both promises are pending. Nothing in [createOverlay] or
    in the scene stops the keyboard or the physics while an overlay is
    shown, although the comment on [createOverlay] says that overlays
    block input to the rest of the game until dismissed. *)
Theorem two_overlays_on_screen :
  let g := run [ PlayButton_pointerdown;
                 Overlap_benefit "performance";
                 Overlap_benefit "concurrency" ] started in
  running g = BenefitScene /\
  overlays_active g = [0; 6] /\
  promises (sys g) !! 0 = Some (Pending [BenefitClosed]) /\
  promises (sys g) !! 6 = Some (Pending [BenefitClosed]) /\
  resolved g = [].
Proof. vm_compute. repeat split; reflexivity. Qed.

(** C8. A missing animation file stops the start of the page:
    [cache.json.get('robotAnims')] is [undefined], reading [.anims] from it
    throws, and [TitleScene] is never started. The [|| []] in
    [BootScene.create] only covers a file without an [anims] member, with
    which the page starts. *)
Theorem boot_without_animation_file_throws :
  boot None = Throws "TypeError: Cannot read properties of undefined (reading 'anims')" /\
  (exists g, boot (Some (Json.mkRobotAnims None)) = Returns g /\ running g = TitleScene).
Proof.
  split; [reflexivity|]. exists started. split; reflexivity.
Qed.

Lemma foldl_react_resolved (rs : list Reaction) (g : Game) :
  resolved (foldl (fun g r => react r g) g rs) = resolved g.
Proof.
  revert g. induction rs as [|r rs IH]; intros g; [done|].
  simpl. by rewrite IH, react_resolved.
Qed.

Lemma close_resolved (o : nat) (g : Game) :
  resolved (closeButton_pointerdown o g) = resolved g ++ [o].
Proof.
  unfold closeButton_pointerdown. destruct (promise_resolve _ _) as [rs s].
  by rewrite foldl_react_resolved.
Qed.

Lemma processQueue_resolved (g : Game) : resolved (processQueue g) = resolved g.
Proof. unfold processQueue. destruct (queued g) as [[]|]; reflexivity. Qed.

(** Only a click on Close of an overlay on screen calls [resolve]. *)
Lemma step_resolved (e : Event) (g : Game) :
  resolved (step e g) = resolved g \/
  exists o, e = Close_pointerdown o /\ o ∈ overlays_active g /\
            resolved (step e g) = resolved g ++ [o].
Proof.
  unfold step. rewrite processQueue_resolved. unfold dispatch.
  destruct e; destruct (running g); try (by left);
    repeat case_decide; try (by left);
    try (right; eexists; split; [reflexivity|]; split; [done|]; apply close_resolved);
    left.
  - unfold BenefitScene.collectBenefit. destruct (truthy_flag _); [done|].
    destruct (benefit_text _). by rewrite present_resolved.
  - unfold NapiScene.update_JustDown. cbv zeta.
    destruct (_ && _); by rewrite ?present_resolved.
  - unfold BuildScene.reachSign. cbv zeta. destruct (decide _); [|done].
    destruct (steps _ !! _); by rewrite ?present_resolved.
  - unfold ExampleScene.visitStation, ExampleScene.showOverlay.
    destruct (truthy_flag _); [done|]. cbv zeta.
    destruct (find _ _) as [station|]; [destruct (st_async station)|];
      by rewrite ?present_resolved.
  - unfold ExampleScene.digest_fulfilled, ExampleScene.showOverlay.
    destruct (digests g); by rewrite ?present_resolved.
  - by destruct (benefit_nextButton _).
  - by destruct (napi_nextButton _).
  - by destruct (build_nextButton _).
  - by destruct (example_nextButton _).
Qed.

(** C9. The overlay presenter. On every scene [s] whose identities are
    well formed, [createOverlay] puts one container on screen, holding
    every element it created, and returns a pending promise; the Close
    handler ([overlay.destroy(); resolve();]) removes the container with
    its elements, so that the display list and the containers are as they
    were before, and fulfils the promise, which runs its reaction once; a
    further [resolve] does nothing. In every state [g] the page can reach
    the scene is well formed, presenting resolves nothing, and [resolve] is
    called only by a click on Close of an overlay on screen, never twice
    for the same promise. *)
Theorem overlay_resolved_once_on_dismissal
    (s : SceneSys) (g : Game) (c : Content) (r : Reaction) :
  wf_sys s ->
  reachable g ->
  let p := fst (createOverlay c s) in
  let s1 := promise_then p r (snd (createOverlay c s)) in
  let s2 := snd (promise_resolve p (container_destroy p s1)) in
  (p = next_id s /\
   promises s1 !! p = Some (Pending [r]) /\
   containers s1 = containers s ++ [mkContainer p (overlay_children c p)] /\
   displayList s1 = displayList s /\
   fst (promise_resolve p (container_destroy p s1)) = [r] /\
   displayList s2 = displayList s /\
   containers s2 = containers s /\
   promises s2 = <[p := Fulfilled]> (promises s) /\
   promise_resolve p s2 = ([], s2)) /\
  (wf_sys (sys g) /\
   NoDup (resolved g) /\
   resolved (present c r g) = resolved g /\
   (fst (createOverlay c (sys g)) ∉ resolved g) /\
   forall e,
     resolved (step e g) = resolved g \/
     exists o, e = Close_pointerdown o /\ o ∈ overlays_active g /\
               (o ∉ resolved g) /\ resolved (step e g) = resolved g ++ [o]).
Proof.
  intros Hs Hreach p s1 s2.
  destruct (reachable_Inv g Hreach) as [H Hq].
  pose proof (inv_sys g H) as Hsys. pose proof (SysInv_wf g Hsys) as Hwf.
  split.
  - subst s2 s1 p. rewrite createOverlay_spec by done. cbn [fst snd].
    unfold promise_then. fields. rewrite lookup_insert_eq, insert_insert_eq.
    cbn [app]. unfold container_destroy, promise_resolve. fields.
    rewrite destroy_last by apply Hs.
    rewrite lookup_insert_eq, insert_insert_eq. cbn [fst snd]. fields.
    rewrite lookup_insert_eq. done.
  - split; [done|].
    split; [apply (inv_resolved_nodup g Hsys)|].
    split; [apply present_resolved|].
    split.
    { rewrite createOverlay_spec by done. cbn [fst].
      intros Hin. apply (inv_resolved_lt g Hsys) in Hin. lia. }
    intros e. destruct (step_resolved e g) as [He|(o & -> & Ho & He)]; [by left|].
    right. exists o. repeat split; try done.
    intros Hin. by apply (inv_resolved_gone g Hsys o).
Qed.

Lemma overlay_resolved_once_on_dismissal_witness :
  let s := mkSys [mkObject 0 Rectangle false] [mkContainer 1 []] 2 ∅ in
  let p := fst (createOverlay napi_overlay s) in
  let s1 := promise_then p NapiClosed (snd (createOverlay napi_overlay s)) in
  wf_sys s /\ reachable started /\
  displayList (snd (promise_resolve p (container_destroy p s1))) = displayList s /\
  containers (snd (promise_resolve p (container_destroy p s1))) = containers s.
Proof.
  assert (wf_sys (mkSys [mkObject 0 Rectangle false] [mkContainer 1 []] 2 ∅)) as Hs
    by (split; repeat constructor; simpl; lia).
  split; [exact Hs|]. split; [apply (started_reachable [])|].
  split;
    apply (overlay_resolved_once_on_dismissal _ started napi_overlay NapiClosed Hs
             (started_reachable [])).
Defined.

(** *** The benefit stage *)

(** A click on Close of an overlay on screen, in a reachable game. *)
Lemma step_close (o : nat) (g : Game) :
  Inv g -> queued g = None -> o ∈ overlays_active g ->
  exists r, scene_reaction (running g) = Some r /\
            step (Close_pointerdown o) g = react r (closed_sys o g).
Proof.
  intros H Hq Ho. destruct (close_running o g (inv_sys g H) Ho) as (r & Hr & Hc).
  exists r. split; [done|]. unfold step, dispatch.
  destruct (running g); rewrite decide_True by done;
    (rewrite processQueue_None; [done | by rewrite close_queued]).
Qed.

(** C1. The benefit stage, in every state the page can reach: the Next
    button is visible only if all five benefit keys are true; at the
    dismissal of an overlay it becomes (or stays) visible exactly if all
    five keys are true; when all five are true and the button is not yet
    visible, an overlay is still waiting to be dismissed; and collecting a
    key that is already true changes nothing, so that no second overlay is
    presented for it. *)
Theorem benefit_advance_iff_all_collected (g : Game) :
  reachable g ->
  running g = BenefitScene ->
  (benefit_nextButton (benefitScene g) = true -> all_collected g) /\
  (forall o, o ∈ overlays_active g ->
     (benefit_nextButton (benefitScene (step (Close_pointerdown o) g)) = true
      <-> all_collected g)) /\
  (all_collected g ->
     benefit_nextButton (benefitScene g) = true \/ overlays_active g ≠ []) /\
  (forall k, truthy_flag (benefitsCollected (gameState g) !! k) = true ->
     BenefitScene.collectBenefit k g = g /\ step (Overlap_benefit k) g = g).
Proof.
  intros Hreach Hrun. destruct (reachable_Inv g Hreach) as [H Hq].
  split; [by apply (inv_benefit_next g H)|].
  split; [|split; [by apply (inv_benefit_live g H)|]].
  - intros o Ho. destruct (step_close o g H Hq Ho) as (r & Hr & ->).
    rewrite Hrun in Hr. injection Hr as <-.
    unfold react, BenefitScene.closed. cbv zeta.
    pose proof (forallb_collected (closed_sys o g)) as Hall.
    unfold benefit_keys in Hall at 1.
    assert (all_collected (closed_sys o g) <-> all_collected g) as Hsame by done.
    destruct (forallb _ _).
    + unfold closed_sys. fields. rewrite <- Hsame, <- Hall. done.
    + unfold closed_sys at 1. fields. split.
      * by apply (inv_benefit_next g H).
      * intros Hc. apply Hsame, Hall in Hc. discriminate.
  - intros k Hk.
    assert (BenefitScene.collectBenefit k g = g) as Hsame.
    { unfold BenefitScene.collectBenefit. by rewrite Hk. }
    split; [done|]. unfold step, dispatch. rewrite Hrun.
    destruct (decide _); rewrite ?Hsame; by apply processQueue_None.
Qed.

Lemma benefit_advance_iff_all_collected_witness :
  let g := run (take 10 first_playthrough) started in
  reachable g /\ running g = BenefitScene /\
  (benefit_nextButton (benefitScene (step (Close_pointerdown 24) g)) = true
   <-> all_collected g).
Proof.
  split; [apply started_reachable|]. split; [vm_compute; reflexivity|].
  apply (benefit_advance_iff_all_collected (run (take 10 first_playthrough) started));
    [apply started_reachable | vm_compute; reflexivity | vm_compute; left].
Defined.

(** *** The bridge stage *)

Lemma bridge_S (k : nat) : bridge (S k) = press (bridge k).
Proof. reflexivity. Qed.

Lemma bridge_ge (k : nat) : 20 <= k -> bridge k = Number.of_Z 1.
Proof.
  induction 1 as [|k Hk IH]; [vm_compute; reflexivity|].
  by rewrite bridge_S, IH, press_one.
Qed.

Lemma bridge_lt (k : nat) :
  k < 20 -> Number.geb (bridge k) (Number.of_Z 1) = false.
Proof.
  intros Hk. do 20 (destruct k as [|k]; [vm_compute; reflexivity|]). lia.
Qed.

Lemma bridge_full_iff (k : nat) :
  Number.geb (bridge k) (Number.of_Z 1) = bool_decide (20 <= k).
Proof.
  destruct (decide (20 <= k)) as [Hk|Hk].
  - rewrite bool_decide_eq_true_2 by done. by rewrite bridge_ge.
  - rewrite bool_decide_eq_false_2 by done. apply bridge_lt. lia.
Qed.

Lemma bridge_error (k : nat) :
  (Z.abs (20 * Number.scaled57 (bridge k) - Z.of_nat (Nat.min k 20) * 2 ^ 57) <= 832)%Z.
Proof.
  destruct (decide (20 <= k)) as [Hk|Hk].
  - rewrite bridge_ge by done. replace (Nat.min k 20) with 20 by lia.
    vm_compute. discriminate.
  - do 20 (destruct k as [|k]; [vm_compute; discriminate|]). lia.
Qed.

Lemma present_presented_length (c : Content) (r : Reaction) (g : Game) :
  overlays_presented (present c r g) = S (overlays_presented g).
Proof.
  unfold overlays_presented, present. destruct (createOverlay c (sys g)). simpl.
  rewrite length_app. simpl. lia.
Qed.

Lemma react_napi (r : Reaction) (g : Game) :
  buildProgress (napiScene (react r g)) = buildProgress (napiScene g) /\
  overlayShown (napiScene (react r g)) = overlayShown (napiScene g) /\
  progressBar_width (napiScene (react r g)) = progressBar_width (napiScene g).
Proof.
  destruct r; unfold react, BenefitScene.closed, NapiScene.closed,
    BuildScene.closed, ExampleScene.closed; cbv zeta; repeat case_match; done.
Qed.

Lemma react_stepIndex (r : Reaction) (g : Game) :
  stepIndex (buildScene (react r g)) = stepIndex (buildScene g).
Proof.
  destruct r; unfold react, BenefitScene.closed, NapiScene.closed,
    BuildScene.closed, ExampleScene.closed; cbv zeta; repeat case_match; done.
Qed.


Lemma bridge_state_close (n k o : nat) (g : Game) :
  bridge_state n k g -> bridge_state n k (closeButton_pointerdown o g).
Proof.
  intros (Hrun & Hq & Hp & Hw & Hs & Hn).
  unfold closeButton_pointerdown. destruct (promise_resolve _ _) as [rs s].
  set (g0 := with_resolved _ _).
  assert (bridge_state n k g0) as H0 by done.
  clearbody g0. clear -H0. revert g0 H0.
  induction rs as [|r rs IH]; intros g0 H0; [done|].
  simpl. apply IH. destruct H0 as (Hrun & Hq & Hp & Hw & Hs & Hn).
  destruct (react_napi r g0) as (E1 & E2 & E3).
  unfold bridge_state, overlays_presented.
  by rewrite react_running, react_queued, react_presented, E1, E2, E3.
Qed.

Lemma bridge_state_step (n k : nat) (e : Event) (g : Game) :
  bridge_state n k g -> e ≠ NextButton_pointerdown ->
  bridge_state n (k + presses [e]) (step e g).
Proof.
  intros H He.
  assert (e ≠ Space_JustDown -> bridge_state n (k + presses [e]) g) as Hsame.
  { intros Hne. unfold presses. rewrite filter_cons_False by done.
    simpl. by rewrite Nat.add_0_r. }
  pose proof H as (Hrun & Hq & Hp & Hw & Hs & Hn).
  unfold step, dispatch. rewrite Hrun.
  destruct e; try done; try (rewrite processQueue_None by done; by apply Hsame).
  - (* Space_JustDown *)
    clear Hsame. replace (k + presses [Space_JustDown]) with (S k)
      by (unfold presses; rewrite filter_cons_True by done; simpl; lia).
    unfold NapiScene.update_JustDown. cbv zeta.
    fold (press (buildProgress (napiScene g))). rewrite Hp, <- bridge_S.
    rewrite bridge_full_iff, Hs.
    destruct (decide (k = 19)) as [->|Hne].
    + rewrite (bool_decide_eq_true_2 (20 <= 20)) in * by lia.
      rewrite (bool_decide_eq_false_2 (20 <= 19)) in * by lia.
      cbn [andb negb].
      rewrite processQueue_None by (by rewrite present_queued).
      unfold bridge_state. rewrite present_presented_length.
      autorewrite with frame. unfold overlays_presented in *. fields. rewrite Hn.
      rewrite (bool_decide_eq_true_2 (20 <= 20)) by lia.
      repeat split; try done; lia.
    + assert (bool_decide (20 <= S k) && negb (bool_decide (20 <= k)) = false) as ->.
      { destruct (decide (20 <= k)).
        - rewrite (bool_decide_eq_true_2 (20 <= k)) by done. apply andb_false_r.
        - rewrite (bool_decide_eq_false_2 (20 <= S k)) by lia. done. }
      rewrite processQueue_None by done.
      unfold bridge_state, overlays_presented in *. fields. rewrite Hn.
      assert (bool_decide (20 <= S k) = bool_decide (20 <= k)) as ->.
      { apply bool_decide_ext. lia. }
      done.
  - (* Close_pointerdown *)
    destruct (decide _).
    + rewrite processQueue_None by (by rewrite close_queued).
      apply bridge_state_close, Hsame. done.
    + rewrite processQueue_None by done. by apply Hsame.
Qed.

Lemma bridge_state_run (n k : nat) (es : list Event) (g : Game) :
  bridge_state n k g -> Forall (fun e => e ≠ NextButton_pointerdown) es ->
  bridge_state n (k + presses es) (run es g).
Proof.
  revert k g. induction es as [|e es IH]; intros k g H Hes.
  - unfold presses. simpl. by rewrite Nat.add_0_r.
  - apply Forall_cons in Hes as [He Hes]. simpl.
    replace (k + presses (e :: es)) with ((k + presses [e]) + presses es).
    + apply IH; [|done]. by apply bridge_state_step.
    + unfold presses. rewrite !filter_cons. destruct (decide _); simpl; lia.
Qed.

(** C2, as the code has it. From a bridge stage whose counter is zero and
    whose overlay has not been shown, after any events that contain [k]
    presses of the progress action and no click on Next: the counter is
    the running binary64 sum of [0.05] clamped to [1]; the bar is [400]
    times the counter; the counter differs from [min(1, k / 20)] by at
    most [832 / (20 * 2^57)], which is less than [2^-51], and is exactly
    [1] from the twentieth press on, the first press at which it reaches
    [1]; the completion overlay has been presented once if [k >= 20] and
    not at all before, and [overlayShown], the flag that guards it, tells
    which. *)
Theorem bridge_progress_clamped (g : Game) (es : list Event) :
  running g = NapiScene ->
  queued g = None ->
  buildProgress (napiScene g) = Number.of_Z 0 ->
  overlayShown (napiScene g) = false ->
  Forall (fun e => e ≠ NextButton_pointerdown) es ->
  buildProgress (napiScene (run es g)) = bridge (presses es) /\
  (0 < presses es ->
   progressBar_width (napiScene (run es g))
   = Number.mul (Number.of_Z 400) (bridge (presses es))) /\
  (Z.abs (20 * Number.scaled57 (bridge (presses es))
          - Z.of_nat (Nat.min (presses es) 20) * 2 ^ 57) <= 832)%Z /\
  (20 <= presses es -> bridge (presses es) = Number.of_Z 1) /\
  (presses es < 20 -> Number.geb (bridge (presses es)) (Number.of_Z 1) = false) /\
  overlayShown (napiScene (run es g)) = bool_decide (20 <= presses es) /\
  overlays_presented (run es g)
  = overlays_presented g + (if bool_decide (20 <= presses es) then 1 else 0).
Proof.
  intros Hrun Hq Hp Hs Hes.
  assert (bridge_state (overlays_presented g) 0 g) as H0.
  { unfold bridge_state. repeat split; try done; lia. }
  destruct (bridge_state_run _ 0 es g H0 Hes) as (_ & _ & Hp' & Hw' & Hs' & Hn').
  simpl in *.
  repeat split; try done.
  - apply bridge_error.
  - apply bridge_ge.
  - apply bridge_lt.
Qed.

Lemma bridge_progress_clamped_witness :
  running bridge_entry = NapiScene /\
  overlays_presented (run (replicate 20 Space_JustDown) bridge_entry)
  = overlays_presented bridge_entry + 1.
Proof.
  split; [vm_compute; reflexivity|].
  apply (bridge_progress_clamped bridge_entry (replicate 20 Space_JustDown));
    try (vm_compute; reflexivity).
  repeat constructor; discriminate.
Defined.

(** C2, as the spec states it, fails at ten presses: the counter is
    [0.49999999999999994], which is neither [min(1, 10 * 0.05) = 0.5] on
    JavaScript numbers nor one half exactly, and the bar is not [200]
    wide. *)
Lemma bridge_progress_not_exact :
  let g := run (replicate 10 Space_JustDown) bridge_entry in
  running bridge_entry = NapiScene /\
  buildProgress (napiScene bridge_entry) = Number.of_Z 0 /\
  buildProgress (napiScene g) ≠ claimed_progress 10 /\
  claimed_progress 10 = Number.of_decimal 5 1 /\
  (20 * Number.scaled57 (buildProgress (napiScene g)) ≠ 10 * 2 ^ 57)%Z /\
  progressBar_width (napiScene g) ≠ Number.of_Z 200.
Proof. vm_compute. repeat split; try reflexivity; discriminate. Qed.

(** *** Replay *)

Lemma foldl_react_running (rs : list Reaction) (g : Game) :
  running (foldl (fun g r => react r g) g rs) = running g.
Proof.
  revert g. induction rs as [|r rs IH]; intros g; [done|].
  simpl. by rewrite IH, react_running.
Qed.

Lemma foldl_react_retained (rs : list Reaction) (g : Game) :
  overlayShown (napiScene (foldl (fun g r => react r g) g rs))
  = overlayShown (napiScene g) /\
  stepIndex (buildScene (foldl (fun g r => react r g) g rs))
  = stepIndex (buildScene g).
Proof.
  revert g. induction rs as [|r rs IH]; intros g; [done|].
  simpl. destruct (IH (react r g)) as [-> ->].
  destruct (react_napi r g) as (_ & -> & _). by rewrite react_stepIndex.
Qed.

Lemma close_retained (o : nat) (g : Game) :
  running (closeButton_pointerdown o g) = running g /\
  overlayShown (napiScene (closeButton_pointerdown o g)) = overlayShown (napiScene g) /\
  stepIndex (buildScene (closeButton_pointerdown o g)) = stepIndex (buildScene g).
Proof.
  unfold closeButton_pointerdown. destruct (promise_resolve _ _) as [rs s].
  rewrite foldl_react_running.
  destruct (foldl_react_retained rs (with_resolved (resolved g ++ [o]) (with_sys s g)))
    as [-> ->].
  done.
Qed.


Lemma replayed_step (e : Event) (h : Game) : replayed h -> replayed (step e h).
Proof.
  intros (Hq & Hs & Hi & Hrun).
  assert (replayed h) as Hh by done.
  assert (processQueue h = h) as Hsame by (by apply processQueue_None).
  unfold step, dispatch.
  destruct Hrun as [Hrun|[Hrun|(Hrun & Hn & Ha)]]; rewrite Hrun.
  - (* TitleScene *)
    destruct e; rewrite ?Hsame; try done.
    + unfold replayed, processQueue, TitleScene.playButton_pointerdown. simpl. auto 10.
    + destruct (decide _); rewrite ?Hsame; [|done].
      destruct (close_retained overlay h) as (Er & Es & Ei).
      rewrite processQueue_None by (by rewrite close_queued).
      unfold replayed. rewrite close_queued, Er, Es, Ei. auto 10.
  - (* BenefitScene *)
    destruct e; rewrite ?Hsame; try done.
    + destruct (decide _); rewrite ?Hsame; [|done].
      rewrite processQueue_None by (by rewrite collectBenefit_queued).
      unfold replayed. rewrite collectBenefit_queued.
      unfold BenefitScene.collectBenefit. destruct (truthy_flag _); [done|].
      destruct (benefit_text _). autorewrite with frame. fields. auto 10.
    + destruct (decide _); rewrite ?Hsame; [|done].
      destruct (close_retained overlay h) as (Er & Es & Ei).
      rewrite processQueue_None by (by rewrite close_queued).
      unfold replayed. rewrite close_queued, Er, Es, Ei. auto 10.
    + destruct (benefit_nextButton _); rewrite ?Hsame; [|done].
      unfold replayed, overlays_active, processQueue,
        BenefitScene.nextButton_pointerdown. simpl. auto 10.
  - (* NapiScene *)
    destruct e; rewrite ?Hsame; try done.
    + unfold NapiScene.update_JustDown. cbv zeta. rewrite Hs.
      rewrite andb_false_r. rewrite processQueue_None by done.
      unfold replayed, overlays_active in *. fields. auto 10.
    + rewrite Ha. rewrite decide_False by apply not_elem_of_nil. by rewrite Hsame.
    + rewrite Hn. by rewrite Hsame.
Qed.

Lemma replayed_run (es : list Event) (h : Game) : replayed h -> replayed (run es h).
Proof.
  revert h. induction es as [|e es IH]; intros h H; [done|].
  simpl. apply IH. by apply replayed_step.
Qed.


Lemma build_stuck_step (e : Event) (b : Game) : build_stuck b -> step e b = b.
Proof.
  intros (Hrun & Hq & Hi & Hsig & Ha & Hn).
  unfold step, dispatch. rewrite Hrun.
  destruct e; try (by apply processQueue_None).
  - rewrite Hsig. destruct (decide _) as [Hin|]; [|by apply processQueue_None].
    apply elem_of_seq in Hin. unfold BuildScene.reachSign. cbv zeta.
    rewrite Hi. rewrite decide_False by lia. by apply processQueue_None.
  - rewrite Ha. rewrite decide_False by apply not_elem_of_nil.
    by apply processQueue_None.
  - rewrite Hn. by apply processQueue_None.
Qed.

Lemma build_stuck_run (es : list Event) (b : Game) : build_stuck b -> run es b = b.
Proof.
  intros H. induction es as [|e es IH]; [done|].
  simpl. by rewrite build_stuck_step.
Qed.

(** C10. Replay changes the two session mappings, the running scene and
    its display list, and nothing else: the fields of the scene instances
    are kept, among them a full bridge counter, a set [overlayShown] flag
    and a step pointer past the last signpost. In the playthrough that
    follows, the game never leaves the title, benefit and bridge stages and
    the Next button of the bridge stage stays hidden with no overlay to
    close; and a build stage created on the instance as it is kept ignores
    every event: no overlay, and its Next button stays hidden. *)
Theorem replay_keeps_scene_fields (g : Game) (es es' : list Event) :
  reachable g ->
  running g = ConclusionScene ->
  let g' := step ExitButton_pointerdown g in
  let h := run es g' in
  let b := run es' (processQueue (scene_start BuildScene h)) in
  (gameState g' = mkGameState ∅ ∅ /\
   benefitScene g' = benefitScene g /\ napiScene g' = napiScene g /\
   buildScene g' = buildScene g /\ exampleScene g' = exampleScene g /\
   digests g' = digests g /\ anims g' = anims g /\
   presented g' = presented g /\ resolved g' = resolved g /\
   promises (sys g') = promises (sys g)) /\
  (buildProgress (napiScene g') = Number.of_Z 1 /\
   overlayShown (napiScene g') = true /\
   stepIndex (buildScene g') = 6) /\
  ((running h = TitleScene \/ running h = BenefitScene \/ running h = NapiScene) /\
   (running h = NapiScene ->
    napi_nextButton (napiScene h) = false /\ overlays_active h = []) /\
   overlayShown (napiScene h) = true /\
   stepIndex (buildScene h) = 6) /\
  (running b = BuildScene /\
   stepIndex (buildScene b) = 6 /\
   build_nextButton (buildScene b) = false /\
   overlays_active b = [] /\
   overlays_presented b = overlays_presented h).
Proof.
  intros Hreach Hrun g' h b.
  destruct (reachable_Inv g Hreach) as [H Hq].
  assert (g' = TitleScene.create
                 (with_running TitleScene
                    (with_queued None
                       (shutdown (ConclusionScene.exitButton_pointerdown g))))) as Hg'.
  { subst g'. unfold step, dispatch. rewrite Hrun. reflexivity. }
  assert (overlayShown (napiScene g) = true) as Hshown
    by (apply (inv_after_napi g H); auto).
  assert (stepIndex (buildScene g) = 6) as Hidx
    by (apply (inv_after_build g H); auto).
  split; [by rewrite Hg'|].
  split.
  { rewrite Hg'. fields. repeat split; try done. by apply (inv_shown g H). }
  assert (replayed h) as (Hhq & Hhs & Hhi & Hhrun).
  { apply replayed_run. rewrite Hg'. unfold replayed. fields. auto 10. }
  split.
  { repeat split; try done.
    - destruct Hhrun as [?|[?|(? & _)]]; auto.
    - destruct Hhrun as [E|[E|(_ & ? & _)]]; [congruence..|done].
    - destruct Hhrun as [E|[E|(_ & _ & ?)]]; [congruence..|done]. }
  subst b. rewrite build_stuck_run.
  - unfold processQueue, overlays_active, overlays_presented. simpl. auto 10.
  - unfold build_stuck, processQueue, overlays_active. simpl. auto 10.
Qed.

Lemma replay_keeps_scene_fields_witness :
  let g := run first_playthrough started in
  let h := run second_playthrough (step ExitButton_pointerdown g) in
  reachable g /\ running g = ConclusionScene /\
  running h = NapiScene /\
  napi_nextButton (napiScene h) = false /\ overlays_active h = [].
Proof.
  split; [apply started_reachable|]. split; [vm_compute; reflexivity|].
  split; [vm_compute; reflexivity|].
  apply (replay_keeps_scene_fields (run first_playthrough started)
           second_playthrough []);
    [apply started_reachable | vm_compute; reflexivity..].
Defined.

Lemma step_Inv (e : Event) (g : Game) :
  Inv g -> queued g = None -> Inv (step e g) /\ queued (step e g) = None.
Proof. intros H Hq. by apply Inv_step. Qed.

(** *** The build stage *)














(** *** The example stations *)

Lemma find_station (k : string) :
  k ∈ station_keys ->
  exists st, find (fun s => String.eqb (st_key s) k) example_stations = Some st.
Proof.
  intros Hk. unfold station_keys in Hk.
  repeat (apply elem_of_cons in Hk as [->|Hk]; [eexists; reflexivity|]).
  by apply elem_of_nil in Hk.
Qed.


(** The visit of a new station up to the moment its overlay is on screen. *)
Lemma toured_visit (m : nat) (visited : list string) (out : string -> string)
    (k : string) (t : Game) :
  toured m visited t -> k ∈ station_keys -> k ∉ visited ->
  let g2 := step (Digest_fulfilled (out k)) (step (Overlap_station k (out k)) t) in
  Inv g2 /\ queued g2 = None /\ running g2 = ExampleScene /\
  overlays_active g2 = [next_id (sys t)] /\ newest g2 = next_id (sys t) /\
  digests g2 = [] /\
  examplesVisited (gameState g2) = <[k := true]> (examplesVisited (gameState t)) /\
  overlays_presented g2 = m + S (length visited) /\
  exampleScene g2 = exampleScene t.
Proof.
  intros (H & Hq & Hrun & Ha & Hd & Hv & Hm & Hn) Hk Hnew g2.
  destruct (step_Inv (Overlap_station k (out k)) t H Hq) as [H1 Hq1].
  destruct (step_Inv (Digest_fulfilled (out k)) _ H1 Hq1) as [H2 Hq2].
  fold g2 in H2, Hq2. split; [done|]. split; [done|].
  destruct (inv_example_fields t H Hrun) as [Hst Hbd].
  pose proof (SysInv_wf t (inv_sys t H)) as Hwf.
  destruct (find_station k Hk) as (st & Hfind).
  set (G := with_gameState
              (mkGameState (benefitsCollected (gameState t))
                           (<[k := true]> (examplesVisited (gameState t)))) t).
  assert (truthy_flag (examplesVisited (gameState t) !! k) = false) as Hflag.
  { destruct (truthy_flag _) eqn:E; [|done].
    apply truthy_flag_true, Hv in E. done. }
  assert (exists G', g2 = ExampleScene.showOverlay st (out k) G' /\
                     sys G' = sys t /\ gameState G' = gameState G /\
                     running G' = running t /\ queued G' = queued t /\
                     exampleScene G' = exampleScene t /\ digests G' = [] /\
                     presented G' = presented t) as (G' & E2 & Es & Eg & Er & Eq & Ee & Ed & Ep).
  { subst g2. unfold step at 2, dispatch. rewrite Hrun, Hbd.
    rewrite decide_True by done.
    unfold ExampleScene.visitStation. rewrite Hflag. cbv zeta. fold G.
    assert (stations (exampleScene G) = example_stations) as -> by done.
    rewrite Hfind. subst G.
    destruct (st_async st).
    - rewrite processQueue_None by done.
      unfold step, dispatch. fields. rewrite Hrun.
      unfold ExampleScene.digest_fulfilled. fields. rewrite Hd. simpl.
      rewrite processQueue_None
        by (unfold ExampleScene.showOverlay; by rewrite present_queued).
      eexists. split; [reflexivity|]. by repeat split.
    - rewrite processQueue_None
        by (unfold ExampleScene.showOverlay; by rewrite present_queued).
      unfold step, dispatch. unfold ExampleScene.showOverlay at 1.
      rewrite present_running. fields. rewrite Hrun.
      unfold ExampleScene.digest_fulfilled.
      unfold ExampleScene.showOverlay at 1. rewrite present_digests. fields.
      rewrite Hd.
      rewrite processQueue_None
        by (unfold ExampleScene.showOverlay; by rewrite present_queued).
      eexists. split; [reflexivity|]. by repeat split. }
  assert (wf_sys (sys G')) as Hwf' by (by rewrite Es).
  unfold ExampleScene.showOverlay in E2.
  repeat split.
  - rewrite E2. autorewrite with frame. by rewrite Er.
  - rewrite E2. rewrite present_active by done.
    unfold overlays_active in *. by rewrite Es, Ha.
  - rewrite E2. unfold newest. rewrite present_active by done.
    by rewrite last_snoc, Es.
  - rewrite E2. by autorewrite with frame.
  - rewrite E2. autorewrite with frame. by rewrite Eg.
  - rewrite E2, present_presented_length. unfold overlays_presented in *.
    rewrite Ep. lia.
  - rewrite E2. by autorewrite with frame.
Qed.

Lemma toured_snoc (m : nat) (visited : list string) (out : string -> string)
    (k : string) (t : Game) :
  toured m visited t -> k ∈ station_keys -> k ∉ visited ->
  toured m (visited ++ [k]) (visit_then_close out k t).
Proof.
  intros Ht Hk Hnew. pose proof Ht as (H & Hq & Hrun & Ha & Hd & Hv & Hm & Hn).
  destruct (toured_visit m visited out k t Ht Hk Hnew)
    as (H2 & Hq2 & Hr2 & Ha2 & Hnew2 & Hd2 & Hv2 & Hp2 & He2).
  unfold visit_then_close. cbv zeta. rewrite Hnew2.
  set (g2 := step (Digest_fulfilled (out k)) (step (Overlap_station k (out k)) t)) in *.
  set (o := next_id (sys t)) in *.
  assert (o ∈ overlays_active g2) as Ho by (rewrite Ha2; by left).
  destruct (step_Inv (Close_pointerdown o) g2 H2 Hq2) as [Hc Hqc].
  destruct (step_close o g2 H2 Hq2 Ho) as (r & Hr & Ec).
  rewrite Hr2 in Hr. injection Hr as <-.
  rewrite Ec in Hc, Hqc |- *.
  unfold toured. split; [done|]. split; [done|].
  destruct (inv_example_fields t H Hrun) as [Hst Hbd].
  unfold react, ExampleScene.closed. cbv zeta.
  set (c := closed_sys o g2).
  assert (overlays_active c = []) as Hgone.
  { subst c. rewrite active_closed, Ha2. by rewrite filter_cons_False, filter_nil by auto. }
  assert (stations (exampleScene c) = example_stations) as Hsc by (by rewrite <- Hst, <- He2).
  assert (running c = ExampleScene) as Hrc by done.
  assert (digests c = []) as Hdc by done.
  assert (overlays_presented c = m + S (length visited)) as Hpc by done.
  assert (examplesVisited (gameState c) = <[k := true]> (examplesVisited (gameState t)))
    as Hvc by done.
  assert (example_nextButton (exampleScene c) = example_nextButton (exampleScene t))
    as Hnc by (by rewrite <- He2).
  pose proof (forallb_visited c) as Hall.
  clearbody c. rewrite Hsc.
  assert (forall k', examplesVisited (gameState c) !! k' = Some true <-> k' ∈ visited ++ [k])
    as Hv'.
  { intros k'. rewrite Hvc, elem_of_app, list_elem_of_singleton, <- Hv.
    destruct (decide (k = k')) as [->|Hne].
    - rewrite lookup_insert_eq. tauto.
    - rewrite lookup_insert_ne by done. split; [tauto|]. intros [?|?]; congruence. }
  assert (length (visited ++ [k]) = S (length visited)) as Hlen
    by (rewrite length_app; simpl; lia).
  destruct (forallb _ _) eqn:Hb.
  - unfold overlays_presented in *. fields. rewrite Hlen.
    repeat split; try done.
    all: try (intros ?; by apply Hv').
  - rewrite Hlen. repeat split; try done.
    all: try (intros ?; by apply Hv').
    intros Hsub. exfalso.
    assert (all_visited c) as Hc'.
    { intros k' Hk'. apply Hv', Hsub, Hk'. }
    apply Hall in Hc'. congruence.
Qed.

Lemma tour_snoc (out : string -> string) (order : list string) (k : string) (g : Game) :
  tour out (order ++ [k]) g = visit_then_close out k (tour out order g).
Proof. unfold tour. by rewrite foldl_app. Qed.

Lemma toured_tour (m : nat) (out : string -> string) (order : list string) (g : Game) :
  toured m [] g -> NoDup order -> order ⊆ station_keys ->
  toured m order (tour out order g).
Proof.
  intros Hg. induction order as [|k order IH] using rev_ind; intros Hnd Hsub; [done|].
  rewrite tour_snoc. apply NoDup_app in Hnd as (Hnd & Hk & _).
  apply toured_snoc.
  - apply IH; [done|]. intros x Hx. apply Hsub, elem_of_app. by left.
  - apply Hsub, elem_of_app. right. by left.
  - intros Hin. apply (Hk k Hin). by left.
Qed.

(** C4. The example stage, in every state the page can reach: a visit of
    a station whose flag is already true changes nothing (no overlay, no
    state change), and the Finish button is visible only when all four
    station flags are true. From the start of the stage (no flag set,
    nothing on screen, no digest pending), visiting the four stations in
    any order and closing each overlay sets all four flags, presents four
    overlays and leaves the Finish button visible. *)
Theorem example_stations_any_order (g : Game) (order : list string)
    (out : string -> string) (k result : string) :
  reachable g ->
  running g = ExampleScene ->
  (truthy_flag (examplesVisited (gameState g) !! k) = true ->
   ExampleScene.visitStation k result g = g /\
   step (Overlap_station k result) g = g) /\
  (example_nextButton (exampleScene g) = true -> all_visited g) /\
  (order ≡ₚ station_keys ->
   examplesVisited (gameState g) = ∅ -> overlays_active g = [] -> digests g = [] ->
   all_visited (tour out order g) /\
   example_nextButton (exampleScene (tour out order g)) = true /\
   overlays_presented (tour out order g) = overlays_presented g + 4 /\
   overlays_active (tour out order g) = []).
Proof.
  intros Hreach Hrun. destruct (reachable_Inv g Hreach) as [H Hq].
  split.
  { intros Hk.
    assert (ExampleScene.visitStation k result g = g) as Hsame.
    { unfold ExampleScene.visitStation. by rewrite Hk. }
    split; [done|]. unfold step, dispatch. rewrite Hrun.
    destruct (decide _); rewrite ?Hsame; by apply processQueue_None. }
  split; [by apply (inv_example_next g H)|].
  intros Hperm Hempty Ha Hd.
  assert (toured (overlays_presented g) [] g) as Hg.
  { unfold toured. split; [done|]. repeat split; try done.
    all: try (rewrite Hempty, lookup_empty; done).
    all: try (intros Hin; by apply elem_of_nil in Hin).
    all: try (simpl; lia).
    intros Hsub. exfalso. eapply elem_of_nil, Hsub. by left. }
  assert (NoDup order) as Hnd.
  { rewrite Hperm. apply (bool_decide_unpack _). by vm_compute. }
  assert (order ⊆ station_keys) as Hsub by (by rewrite Hperm).
  destruct (toured_tour _ out order g Hg Hnd Hsub)
    as (Ht & Hqt & Hrt & Hat & Hdt & Hvt & Hpt & Hnt).
  repeat split; try done.
  - intros k' Hk'. apply Hvt. by rewrite Hperm.
  - apply Hnt. by rewrite Hperm.
  - rewrite Hpt. by rewrite Hperm.
Qed.

Lemma example_stations_any_order_witness :
  let g := run (take 47 first_playthrough) started in
  let order := ["random"; "jwt"; "hashing"; "password"] in
  reachable g /\ running g = ExampleScene /\ order ≡ₚ station_keys /\
  example_nextButton (exampleScene (tour (fun k => k) order g)) = true.
Proof.
  split; [apply started_reachable|].
  split; [vm_compute; reflexivity|].
  split; [apply (bool_decide_unpack _); by vm_compute|].
  apply (example_stations_any_order (run (take 47 first_playthrough) started)
           ["random"; "jwt"; "hashing"; "password"] (fun k => k) "jwt" "jwt");
    [apply started_reachable | vm_compute; reflexivity
    | apply (bool_decide_unpack _); by vm_compute
    | vm_compute; reflexivity..].
Defined.

(** ** Further properties of the code *)

(** *** The overlay presenter *)

(** X1. What [createOverlay] builds. On a scene whose identities are well
    formed it adds one container and nothing else; the container holds the
    two rectangles and the texts: title, body, the code if it is a
    non-empty string, the output if it is a non-empty string, and the
    Close button. The button is the last child and the only interactive
    one; the children have fresh, distinct identities, and the scene is
    well formed again, so that the presenter can be called on it again. *)
Theorem createOverlay_children (c : Content) (s : SceneSys) :
  wf_sys s ->
  exists children button,
    containers (snd (createOverlay c s))
      = containers s ++ [mkContainer (next_id s) children] /\
    displayList (snd (createOverlay c s)) = displayList s /\
    next_id (snd (createOverlay c s)) = next_id s + 1 + length children /\
    wf_sys (snd (createOverlay c s)) /\
    texts children
      = [title c; body c]
        ++ (if truthy_text (code c) then [code c] else [])
        ++ (if truthy_text (output c) then [output c] else [])
        ++ [Some "Close"] /\
    length children = 2 + length (texts children) /\
    last children = Some button /\
    obj_shape button = Text (Some "Close") /\
    filter (fun x => obj_interactive x = true) children = [button] /\
    NoDup (obj_id <$> children) /\
    Forall (fun x => next_id s < obj_id x < next_id (snd (createOverlay c s))) children.
Proof.
  intros Hwf. rewrite createOverlay_spec by done. cbn [snd]. destruct Hwf as [Hdl Hks].
  unfold overlay_children, wf_sys.
  destruct (truthy_text (code c)), (truthy_text (output c));
    cbn [app length containers next_id displayList];
    eexists _, _; (split; [reflexivity|]); (split; [reflexivity|]);
    (split; [reflexivity|]).
  all: split;
    [split;
     [eapply Forall_impl; [exact Hdl|]; cbn; intros; lia
     |apply Forall_app; split;
      [eapply Forall_impl; [exact Hks|]; cbn; intros; lia
      |constructor; [cbn; lia|constructor]]]|].
  all: split; [reflexivity|]; split; [reflexivity|]; split; [reflexivity|];
    split; [reflexivity|]; split; [reflexivity|].
  all: split;
    [cbn [fmap list_fmap obj_id];
     repeat (apply NoDup_cons; split;
             [rewrite ?elem_of_cons, elem_of_nil; intros Hin;
              repeat (destruct Hin as [Hin|Hin]; [lia|]); done|]);
     apply NoDup_nil
    |repeat (constructor; [cbn; lia|]); constructor].
  all: exact I.
Qed.

(** X2. [if (code)] and [if (output)]: a code or output that is the empty
    string is left out exactly as one that is [undefined]; in particular
    an overlay with an empty code and no output is the overlay of the
    title and the body alone. *)
Theorem createOverlay_skips_empty_text (c : Content) (s : SceneSys) :
  createOverlay c s = createOverlay (shown c) s /\
  (code c = Some EmptyString -> output c = None ->
   createOverlay c s = createOverlay (mkContent (title c) (body c) None None) s).
Proof.
  assert (createOverlay c s = createOverlay (shown c) s) as Hshown.
  { unfold createOverlay, shown. cbn [title body code output].
    destruct (truthy_text (code c)) eqn:Hc, (truthy_text (output c)) eqn:Ho;
      rewrite ?Hc, ?Ho; reflexivity. }
  split; [exact Hshown|]. intros Hc Ho. rewrite Hshown. unfold shown.
  by rewrite Hc, Ho.
Qed.

Lemma createOverlay_children_witness :
  let s := mkSys [mkObject 0 Rectangle false] [mkContainer 1 []] 2 ∅ in
  wf_sys s /\
  exists children button,
    containers (snd (createOverlay napi_overlay s))
      = containers s ++ [mkContainer (next_id s) children] /\
    last children = Some button /\
    filter (fun x => obj_interactive x = true) children = [button].
Proof.
  intros s.
  assert (wf_sys s) as Hs by (split; repeat constructor; simpl; lia).
  split; [exact Hs|].
  destruct (createOverlay_children napi_overlay s Hs)
    as (children & button & H1 & _ & _ & _ & _ & _ & H2 & _ & H3 & _).
  by exists children, button.
Defined.

(** *** Registration of the animations *)














(** *** The scene manager *)

Lemma run_snoc (es : list Event) (e : Event) (g : Game) :
  run (es ++ [e]) g = step e (run es g).
Proof. unfold run. by rewrite foldl_app. Qed.

Lemma reachable_step (e : Event) (g : Game) : reachable g -> reachable (step e g).
Proof.
  intros (cache & g0 & es & Hboot & ->). exists cache, g0, (es ++ [e]).
  split; [done|]. by rewrite run_snoc.
Qed.

Lemma reachable_run (es : list Event) (g : Game) : reachable g -> reachable (run es g).
Proof.
  revert g. induction es as [|e es IH]; intros g Hg; [done|].
  apply IH. by apply reachable_step.
Qed.

(** Induction over the states the page can be in. *)
Lemma reachable_ind (P : Game -> Prop) :
  (forall cache g0, boot cache = Returns g0 -> P g0) ->
  (forall e g, reachable g -> P g -> P (step e g)) ->
  forall g, reachable g -> P g.
Proof.
  intros Hboot Hstep g (cache & g0 & es & Hg0 & ->).
  induction es as [|e es IH] using rev_ind.
  - by apply (Hboot cache).
  - rewrite run_snoc. apply Hstep; [|exact IH]. by exists cache, g0, es.
Qed.

Lemma boot_Returns (cache : JsonCache) (g0 : Game) :
  boot cache = Returns g0 ->
  exists m, g0 = processQueue (scene_start TitleScene (with_anims m new_Game)).
Proof.
  unfold boot, BootScene.create. destruct cache as [json|]; [|done].
  destruct (BootScene.forEach _ _) as [m|]; [|done]. intros [= <-]. by exists m.
Qed.


Lemma dispatch_running (e : Event) (g : Game) : running (dispatch e g) = running g.
Proof.
  unfold dispatch.
  destruct e; destruct (running g) eqn:Hrun; try done;
    repeat case_decide; try done.
  all: try (unfold closeButton_pointerdown; destruct (promise_resolve _ _) as [rs s];
            by rewrite foldl_react_running).
  - unfold BenefitScene.collectBenefit. destruct (truthy_flag _); [done|].
    destruct (benefit_text _). by rewrite present_running.
  - unfold NapiScene.update_JustDown. cbv zeta.
    destruct (_ && _); by rewrite ?present_running.
  - unfold BuildScene.reachSign. cbv zeta. destruct (decide _); [|done].
    destruct (steps _ !! _); by rewrite ?present_running.
  - unfold ExampleScene.visitStation, ExampleScene.showOverlay.
    destruct (truthy_flag _); [done|]. cbv zeta.
    destruct (find _ _) as [station|]; [destruct (st_async station)|];
      by rewrite ?present_running.
  - unfold ExampleScene.digest_fulfilled, ExampleScene.showOverlay.
    destruct (digests g); by rewrite ?present_running.
  - by destruct (benefit_nextButton _).
  - by destruct (napi_nextButton _).
  - by destruct (build_nextButton _).
  - by destruct (example_nextButton _).
Qed.

Lemma dispatch_queued (e : Event) (g : Game) :
  queued g = None ->
  queued (dispatch e g) = None \/
  (e ∈ scene_clicks /\ sys (dispatch e g) = sys g /\
   resolved (dispatch e g) = resolved g /\ presented (dispatch e g) = presented g).
Proof.
  intros Hq. unfold dispatch, scene_clicks.
  destruct e; destruct (running g) eqn:Hrun; try (by left);
    repeat case_decide; try (by left).
  all: try (left; by rewrite close_queued).
  all: try (right; split; [rewrite !elem_of_cons; tauto | done]).
  - left. by rewrite collectBenefit_queued.
  - left. by rewrite update_JustDown_queued.
  - left. by rewrite reachSign_queued.
  - left. by rewrite visitStation_queued.
  - left. by rewrite digest_fulfilled_queued.
  - destruct (benefit_nextButton _); [right|by left].
    split; [rewrite !elem_of_cons; tauto | done].
  - destruct (napi_nextButton _); [right|by left].
    split; [rewrite !elem_of_cons; tauto | done].
  - destruct (build_nextButton _); [right|by left].
    split; [rewrite !elem_of_cons; tauto | done].
  - destruct (example_nextButton _); [right|by left].
    split; [rewrite !elem_of_cons; tauto | done].
Qed.

Lemma processQueue_Some (key : SceneKey) (g : Game) :
  queued g = Some key ->
  running (processQueue g) = key /\
  sys (processQueue g) = mkSys [] [] (next_id (sys g)) (promises (sys g)) /\
  resolved (processQueue g) = resolved g /\
  presented (processQueue g) = presented g.
Proof.
  intros Hq. unfold processQueue. rewrite Hq. by destruct key.
Qed.

(** X8. The scenes run in the order of the [scene] array of the
    configuration. In every state the page can reach [BootScene] is over,
    and a step either keeps the running scene or starts the next one in the
    cycle Title, Benefit, Napi, Build, Example, Conclusion, Title; a scene
    is started only by a click on Start Adventure, Next or Play Again, and
    the new scene begins without overlays, the promises and the record of
    resolved promises being as before. *)
Theorem scenes_run_in_order (g : Game) (e : Event) :
  reachable g ->
  running g ≠ BootScene /\
  (running (step e g) = running g \/
   (running (step e g) = next_scene (running g) /\
    e ∈ scene_clicks /\
    overlays_active (step e g) = [] /\
    promises (sys (step e g)) = promises (sys g) /\
    resolved (step e g) = resolved g)).
Proof.
  intros Hreach. split.
  - revert g Hreach. apply reachable_ind.
    + intros cache g0 (m & ->)%boot_Returns. done.
    + intros e' g Hreach IH. destruct (reachable_Inv g Hreach) as [H Hq].
      destruct (Inv_dispatch e' g H Hq) as [_ Hok].
      unfold step, processQueue. unfold queue_ok in Hok.
      rewrite dispatch_running in Hok.
      destruct (queued (dispatch e' g)) as [key|] eqn:Hq'.
      * destruct (running g), key; done.
      * by rewrite dispatch_running.
  - destruct (reachable_Inv g Hreach) as [H Hq].
    destruct (Inv_dispatch e g H Hq) as [_ Hok].
    unfold queue_ok in Hok. rewrite dispatch_running in Hok. unfold step.
    destruct (queued (dispatch e g)) as [key|] eqn:Hq'.
    + right. destruct (dispatch_queued e g Hq) as [Hnone|(Hin & Hsys & Hres & _)];
        [congruence|].
      destruct (processQueue_Some key _ Hq') as (Hrun & Hsys' & Hres' & _).
      unfold overlays_active. rewrite Hrun, Hsys', Hres', Hsys, Hres.
      repeat split; try done. destruct (running g), key; done.
    + left. rewrite processQueue_None by done. apply dispatch_running.
Qed.

Lemma scenes_run_in_order_witness :
  let g := run (take 11 first_playthrough) started in
  reachable g /\ running g = BenefitScene /\
  running (step NextButton_pointerdown g) = NapiScene /\
  (running (step (Overlap_benefit "memory") g) = running g \/
   running (step (Overlap_benefit "memory") g) = next_scene (running g) /\
   Overlap_benefit "memory" ∈ scene_clicks /\
   overlays_active (step (Overlap_benefit "memory") g) = [] /\
   promises (sys (step (Overlap_benefit "memory") g)) = promises (sys g) /\
   resolved (step (Overlap_benefit "memory") g) = resolved g).
Proof.
  split; [apply started_reachable|]. split; [vm_compute; reflexivity|].
  split; [vm_compute; reflexivity|].
  apply (scenes_run_in_order _ (Overlap_benefit "memory")), started_reachable.
Defined.

Lemma foldl_react_napi (rs : list Reaction) (g : Game) :
  buildProgress (napiScene (foldl (fun g r => react r g) g rs))
  = buildProgress (napiScene g) /\
  progressBar_width (napiScene (foldl (fun g r => react r g) g rs))
  = progressBar_width (napiScene g).
Proof.
  revert g. induction rs as [|r rs IH]; intros g; [done|].
  simpl. destruct (IH (react r g)) as [-> ->].
  by destruct (react_napi r g) as (-> & _ & ->).
Qed.

(** What a step does to the counter and to the bar. *)
Lemma step_napi (e : Event) (g : Game) :
  queued g = None ->
  let p := buildProgress (napiScene g) in
  let p' := buildProgress (napiScene (step e g)) in
  let w' := progressBar_width (napiScene (step e g)) in
  (p' = p /\ w' = progressBar_width (napiScene g)) \/
  (p' = press p /\ w' = Number.mul (Number.of_Z 400) (press p)) \/
  (p' = p /\ w' = Number.of_Z 0).
Proof.
  intros Hq. cbv zeta. unfold step.
  destruct (queued (dispatch e g)) as [key|] eqn:Hq'.
  - assert (napiScene (dispatch e g) = napiScene g) as Hn.
    { revert Hq'. unfold dispatch.
      destruct e; destruct (running g) eqn:Hrun;
        rewrite ?Hq; try done; repeat case_decide; rewrite ?Hq; try done;
        rewrite ?close_queued, ?collectBenefit_queued, ?update_JustDown_queued,
          ?reachSign_queued, ?visitStation_queued, ?digest_fulfilled_queued, ?Hq;
        try done; try (case_match; by rewrite ?Hq). }
    unfold processQueue. rewrite Hq'. destruct key; cbn; rewrite ?Hn; auto.
  - rewrite processQueue_None by done. unfold dispatch.
    destruct e; destruct (running g) eqn:Hrun; auto;
      repeat case_decide; auto.
    all: try (left; unfold closeButton_pointerdown;
              destruct (promise_resolve _ _) as [rs s];
              by destruct (foldl_react_napi rs
                             (with_resolved (resolved g ++ [overlay]) (with_sys s g)))
                as [-> ->]).
    + left. unfold BenefitScene.collectBenefit. destruct (truthy_flag _); [done|].
      destruct (benefit_text _). by rewrite present_napiScene.
    + right. left. unfold NapiScene.update_JustDown, press. cbv zeta.
      destruct (_ && _); by rewrite ?present_napiScene.
    + left. unfold BuildScene.reachSign. cbv zeta. destruct (decide _); [|done].
      destruct (steps _ !! _); by rewrite ?present_napiScene.
    + left. unfold ExampleScene.visitStation, ExampleScene.showOverlay.
      destruct (truthy_flag _); [done|]. cbv zeta.
      destruct (find _ _) as [station|]; [destruct (st_async station)|];
        by rewrite ?present_napiScene.
    + left. unfold ExampleScene.digest_fulfilled, ExampleScene.showOverlay.
      destruct (digests g); by rewrite ?present_napiScene.
    + left. by destruct (benefit_nextButton _).
    + left. by destruct (napi_nextButton _).
    + left. by destruct (build_nextButton _).
    + left. by destruct (example_nextButton _).
Qed.

Lemma bridge_bounds (k : nat) :
  k <= 20 ->
  Number.geb (bridge k) (Number.of_Z 0) = true /\
  Number.geb (Number.of_Z 1) (bridge k) = true /\
  Number.geb (press (bridge k)) (bridge k) = true /\
  Number.geb (Number.mul (Number.of_Z 400) (bridge k)) (Number.of_Z 0) = true /\
  Number.geb (Number.of_Z 400) (Number.mul (Number.of_Z 400) (bridge k)) = true.
Proof.
  intros Hk. do 21 (destruct k as [|k]; [vm_compute; repeat split; reflexivity|]). lia.
Qed.

Lemma bar_follows_counter (g : Game) :
  reachable g ->
  progressBar_width (napiScene g) = Number.of_Z 0 \/
  progressBar_width (napiScene g)
  = Number.mul (Number.of_Z 400) (buildProgress (napiScene g)).
Proof.
  revert g. apply reachable_ind.
  - intros cache g0 (m & ->)%boot_Returns. by left.
  - intros e g Hreach IH. destruct (reachable_Inv g Hreach) as [_ Hq].
    destruct (step_napi e g Hq) as [[-> ->]|[[-> ->]|[-> ->]]]; auto.
Qed.

(** X9. The bridge counter and its bar. In every state the page can
    reach [buildProgress] lies between 0 and 1 and no step decreases it
    (nothing resets it, neither a restart of the scene nor a replay); the
    width of the bar is 0 or 400 times the counter, hence between 0 and
    400. *)
Theorem bridge_counter_bounded (g : Game) (e : Event) :
  reachable g ->
  let p := buildProgress (napiScene g) in
  let w := progressBar_width (napiScene g) in
  Number.geb p (Number.of_Z 0) = true /\
  Number.geb (Number.of_Z 1) p = true /\
  Number.geb (buildProgress (napiScene (step e g))) p = true /\
  (w = Number.of_Z 0 \/ w = Number.mul (Number.of_Z 400) p) /\
  Number.geb w (Number.of_Z 0) = true /\
  Number.geb (Number.of_Z 400) w = true.
Proof.
  intros Hreach. cbv zeta. destruct (reachable_Inv g Hreach) as [H Hq].
  destruct (inv_progress g H) as (k & Hk & Hp).
  destruct (bridge_bounds k Hk) as (B0 & B1 & Bpress & Bw0 & Bw400).
  pose proof (bar_follows_counter g Hreach) as Hbar.
  rewrite Hp in Hbar |- *.
  split; [exact B0|]. split; [exact B1|]. split.
  { destruct (step_napi e g Hq) as [[-> _]|[[-> _]|[-> _]]]; rewrite Hp.
    2: exact Bpress.
    all: clear -Hk; do 21 (destruct k as [|k]; [vm_compute; reflexivity|]); lia. }
  split; [exact Hbar|].
  destruct Hbar as [->| ->]; [split; vm_compute; reflexivity | split; assumption].
Qed.

Lemma bridge_counter_bounded_witness :
  let g := run (take 25 first_playthrough) started in
  reachable g /\
  Number.geb (Number.of_Z 1) (buildProgress (napiScene g)) = true /\
  Number.geb (buildProgress (napiScene (step Space_JustDown g)))
             (buildProgress (napiScene g)) = true.
Proof.
  intros g. split; [apply started_reachable|].
  destruct (bridge_counter_bounded g Space_JustDown (started_reachable _))
    as (_ & H1 & H2 & _).
  split; [exact H1 | exact H2].
Defined.

(** *** The stages *)

(** What a step does while the benefit stage runs. *)
Lemma step_in_benefit (e : Event) (g : Game) :
  Inv g -> queued g = None -> running g = BenefitScene ->
  step e g = g \/
  (exists k c,
     e = Overlap_benefit k /\ k ∈ benefits (benefitScene g) /\
     step e g =
       present c BenefitClosed
         (with_benefitScene
            (mkBenefit (filter (fun k' => k' ≠ k) (benefits (benefitScene g)))
                       (benefit_nextButton (benefitScene g)))
            (with_gameState
               (mkGameState (<[k := true]> (benefitsCollected (gameState g)))
                            (examplesVisited (gameState g))) g))) \/
  (exists o, e = Close_pointerdown o /\ o ∈ overlays_active g /\
             step e g = BenefitScene.closed (closed_sys o g)) \/
  running (step e g) = NapiScene.
Proof.
  intros H Hq Hrun. unfold step, dispatch. rewrite Hrun.
  destruct e; try (rewrite processQueue_None by done); auto.
  - case_decide as Hk; [|rewrite processQueue_None by done; by left].
    unfold BenefitScene.collectBenefit.
    destruct (truthy_flag _) eqn:Hflag; [rewrite processQueue_None by done; by left|].
    cbv zeta. destruct (benefit_text benefitKey) as [t b]. fields.
    rewrite processQueue_None by (by rewrite present_queued).
    right. left. eexists benefitKey, _. split; [done|]. split; [done|]. reflexivity.
  - case_decide as Ho; [|rewrite processQueue_None by done; by left].
    destruct (close_running overlay g (inv_sys g H) Ho) as (r & Hr & ->).
    rewrite Hrun in Hr. injection Hr as <-.
    rewrite processQueue_None by (by rewrite react_queued).
    right. right. left. by exists overlay.
  - destruct (benefit_nextButton _); [|rewrite processQueue_None by done; by left].
    right. right. right. reflexivity.
Qed.

(** A step that changes the scene: the handler queued a start, and the
    scene manager carried it out. *)
Lemma step_enters (e : Event) (g : Game) :
  Inv g -> queued g = None -> running (step e g) ≠ running g ->
  exists g', Inv g' /\ running g' = running g /\
    queued g' = Some (next_scene (running g)) /\
    sys g' = sys g /\ presented g' = presented g /\ resolved g' = resolved g /\
    step e g = scene_create (next_scene (running g))
                 (with_running (next_scene (running g))
                    (with_queued None (shutdown g'))).
Proof.
  intros H Hq Hne. destruct (Inv_dispatch e g H Hq) as [H' Hok].
  exists (dispatch e g). unfold step, processQueue in *.
  unfold queue_ok in Hok. rewrite dispatch_running in Hok.
  destruct (queued (dispatch e g)) as [key|] eqn:Hq';
    [|by rewrite dispatch_running in Hne].
  assert (key = next_scene (running g)) as -> by (destruct (running g), key; done).
  destruct (dispatch_queued e g Hq) as [Hnone|(_ & Hsys & Hres & Hpres)]; [congruence|].
  rewrite dispatch_running. done.
Qed.

Lemma foldl_react_benefits (rs : list Reaction) (g : Game) :
  benefits (benefitScene (foldl (fun g r => react r g) g rs))
  = benefits (benefitScene g).
Proof.
  revert g. induction rs as [|r rs IH]; intros g; [done|].
  simpl. rewrite IH. destruct r; unfold react, BenefitScene.closed, NapiScene.closed,
    BuildScene.closed, ExampleScene.closed; cbv zeta; repeat case_match; done.
Qed.

Lemma benefit_items_reachable (g : Game) : reachable g -> benefit_items g.
Proof.
  revert g. apply reachable_ind.
  - intros cache g0 (m & ->)%boot_Returns. intros Hrun. done.
  - intros e g Hreach IH. destruct (reachable_Inv g Hreach) as [H Hq].
    intros Hrun'.
    destruct (decide (running g = BenefitScene)) as [Hrun|Hrun].
    + destruct (IH Hrun) as (Hiff & Hnodup & Hlen).
      destruct (step_in_benefit e g H Hq Hrun)
        as [->|[(k & c & -> & Hk & Hstep)|[(o & -> & Ho & Hstep)|Hnapi]]].
      * done.
      * rewrite Hstep.
        rewrite present_active by exact (SysInv_wf g (inv_sys g H)).
        autorewrite with frame. fields. rewrite length_app. cbn [length].
        split; [|split].
        -- intros k'. rewrite list_elem_of_filter, Hiff.
           destruct (decide (k' = k)) as [->|Hne].
           ++ rewrite lookup_insert_eq. split; [tauto | intros [_ [=]]].
           ++ rewrite lookup_insert_ne by done. tauto.
        -- by apply NoDup_filter.
        -- unfold overlays_active. fields.
           assert (length (filter (fun k' => k' ≠ k) (benefits (benefitScene g)))
                   < length (benefits (benefitScene g))) as Hlt
             by (apply (length_filter_lt _ _ k Hk); intros Hne; by apply Hne).
           unfold overlays_active in Hlen. lia.
      * rewrite Hstep. unfold BenefitScene.closed. 
        assert (length (overlays_active (closed_sys o g)) <= length (overlays_active g))
          as Hle by (rewrite active_closed; apply length_filter).
        destruct (forallb _ _); unfold overlays_active, closed_sys in *; fields;
          (split; [done|]); (split; [done|]); lia.
      * congruence.
    + destruct (step_enters e g H Hq) as (g' & H' & Hrun0 & Hq' & _ & _ & _ & Hstep);
        [congruence|].
      rewrite Hstep in Hrun' |- *.
      assert (running g = TitleScene) as Ht.
      { destruct (running g); cbn in Hrun'; congruence. }
      rewrite Ht in *. cbn [next_scene scene_create] in *.
      unfold BenefitScene.create, overlays_active, shutdown. fields. cbn [length fmap list_fmap].
      rewrite (inv_title g' H') by auto. fields.
      split; [|split].
      * intros k. rewrite lookup_empty. tauto.
      * unfold benefit_keys. apply (bool_decide_unpack _). by vm_compute.
      * cbn. lia.
Qed.

(** What a step does while the bridge stage runs. *)
Lemma step_in_napi (e : Event) (g : Game) :
  Inv g -> queued g = None -> running g = NapiScene ->
  step e g = g \/
  (e = Space_JustDown /\ step e g = NapiScene.update_JustDown g) \/
  (exists o, e = Close_pointerdown o /\ o ∈ overlays_active g /\
             step e g = NapiScene.closed (closed_sys o g)) \/
  running (step e g) = BuildScene.
Proof.
  intros H Hq Hrun. unfold step, dispatch. rewrite Hrun.
  destruct e; try (rewrite processQueue_None by done); auto.
  - rewrite processQueue_None by (by rewrite update_JustDown_queued). auto.
  - case_decide as Ho; [|rewrite processQueue_None by done; by left].
    destruct (close_running overlay g (inv_sys g H) Ho) as (r & Hr & ->).
    rewrite Hrun in Hr. injection Hr as <-.
    rewrite processQueue_None by (by rewrite react_queued).
    right. right. left. by exists overlay.
  - destruct (napi_nextButton _); [|rewrite processQueue_None by done; by left].
    right. right. right. reflexivity.
Qed.

(** What a step does while the build stage runs. *)
Lemma step_in_build (e : Event) (g : Game) :
  Inv g -> queued g = None -> running g = BuildScene ->
  step e g = g \/
  (exists i, e = Overlap_signpost i /\ i ∈ signposts (buildScene g) /\
             step e g = BuildScene.reachSign i g) \/
  (exists o, e = Close_pointerdown o /\ o ∈ overlays_active g /\
             step e g = BuildScene.closed (closed_sys o g)) \/
  running (step e g) = ExampleScene.
Proof.
  intros H Hq Hrun. unfold step, dispatch. rewrite Hrun.
  destruct e; try (rewrite processQueue_None by done); auto.
  - case_decide as Hi; [|rewrite processQueue_None by done; by left].
    rewrite processQueue_None by (by rewrite reachSign_queued).
    right. left. by exists sign_stepIndex.
  - case_decide as Ho; [|rewrite processQueue_None by done; by left].
    destruct (close_running overlay g (inv_sys g H) Ho) as (r & Hr & ->).
    rewrite Hrun in Hr. injection Hr as <-.
    rewrite processQueue_None by (by rewrite react_queued).
    right. right. left. by exists overlay.
  - destruct (build_nextButton _); [|rewrite processQueue_None by done; by left].
    right. right. right. reflexivity.
Qed.

Lemma no_overlay_without_reaction (g : Game) :
  SysInv g -> scene_reaction (running g) = None -> overlays_active g = [].
Proof.
  intros H Hr. destruct (overlays_active g) as [|o l] eqn:Ha; [done|].
  destruct (inv_reaction g H o) as (r & Hr' & _); [rewrite Ha; apply list_elem_of_here|].
  congruence.
Qed.

Lemma overlay_room_reachable (g : Game) : reachable g -> overlay_room g.
Proof.
  revert g. apply reachable_ind.
  - intros cache g0 (m & ->)%boot_Returns. done.
  - intros e g Hreach IH. destruct (reachable_Inv g Hreach) as [H Hq].
    pose proof (SysInv_wf g (inv_sys g H)) as Hwf.
    destruct (decide (running (step e g) = running g)) as [Hsame|Hne].
    + unfold overlay_room in *. rewrite Hsame.
      destruct (running g) eqn:Hrun; try done.
      all: try (apply no_overlay_without_reaction;
                [apply (Inv_step e g); done | by rewrite Hsame]).
      * pose proof (benefit_items_reachable _ (reachable_step e g Hreach)) as Hb.
        assert (running (step e g) = BenefitScene) as Hrun' by congruence.
        destruct (Hb Hrun') as (_ & _ & Hlen). lia.
      * destruct (step_in_napi e g H Hq Hrun)
          as [->|[[-> Hstep]|[(o & -> & Ho & Hstep)|Hb]]]; [done| | |congruence].
        -- rewrite Hstep. unfold NapiScene.update_JustDown. cbv zeta.
           destruct (_ && _) eqn:Hcond; [|done].
           apply andb_true_iff in Hcond as [_ Hshown%negb_true_iff].
           rewrite present_active by exact Hwf.
           assert (overlays_active g = []) as Ha.
           { destruct (overlays_active g) as [|o l] eqn:Ha; [done|].
             rewrite (inv_napi g H Hrun) in Hshown; [done|]. left. by rewrite Ha. }
           unfold overlays_active in *. fields. rewrite Ha. cbn. lia.
        -- rewrite Hstep. unfold NapiScene.closed. cbv zeta.
           change (overlays_active (with_napiScene ?n ?g')) with (overlays_active g').
           rewrite active_closed.
           pose proof (length_filter (fun i => i ≠ o) (overlays_active g)). lia.
      * destruct (step_in_build e g H Hq Hrun)
          as [->|[(i & -> & Hi & Hstep)|[(o & -> & Ho & Hstep)|Hb]]]; [done| | |congruence].
        -- rewrite Hstep. unfold BuildScene.reachSign. cbv zeta.
           case_decide; [|done]. destruct (steps _ !! _).
           ++ rewrite present_active by exact Hwf. rewrite present_buildScene.
              fields. rewrite length_app. cbn [length].
              change (overlays_active (with_buildScene ?n ?g')) with (overlays_active g').
              lia.
           ++ fields.
              change (overlays_active (with_buildScene ?n ?g')) with (overlays_active g').
              lia.
        -- rewrite Hstep. unfold BuildScene.closed. cbv zeta.
           assert (length (overlays_active (closed_sys o g)) <= length (overlays_active g))
             as Hle by (rewrite active_closed; apply length_filter).
           case_decide; fields;
             change (overlays_active (with_buildScene ?n ?g')) with (overlays_active (closed_sys o g));
             unfold closed_sys at 2; fields; lia.
    + destruct (step_enters e g H Hq Hne) as (g' & H' & Hrun0 & Hq' & _ & _ & _ & Hstep).
      unfold overlay_room. rewrite Hstep.
      destruct (running g); cbn [next_scene scene_create];
        unfold TitleScene.create, BenefitScene.create, NapiScene.create,
          BuildScene.create, ExampleScene.create, ConclusionScene.create,
          overlays_active, shutdown; fields; cbn [fmap list_fmap length]; done || lia.
Qed.

(** X10. The items of the benefit stage. While [BenefitScene] runs, the
    items alive in [this.benefits] are exactly the benefit keys that are
    not collected, each once: [collectBenefit] destroys the item it flags,
    and [create] finds the session state empty. *)
Theorem benefit_items_uncollected (g : Game) (k : string) :
  reachable g ->
  running g = BenefitScene ->
  (k ∈ benefits (benefitScene g) <->
   k ∈ benefit_keys /\ benefitsCollected (gameState g) !! k ≠ Some true) /\
  NoDup (benefits (benefitScene g)).
Proof.
  intros Hreach Hrun. destruct (reachable_Inv g Hreach) as [H _].
  destruct (benefit_items_reachable g Hreach Hrun) as (Hiff & Hnodup & _).
  split; [|done]. rewrite Hiff. split; intros [Hk Hc]; (split; [done|]).
  - by rewrite Hc.
  - destruct (benefitsCollected (gameState g) !! k) as [v|] eqn:Hv; [|done].
    destruct (inv_collected g H k v Hv) as [_ ->]. done.
Qed.

Lemma benefit_items_uncollected_witness :
  let g := run (take 4 first_playthrough) started in
  reachable g /\ running g = BenefitScene /\
  ("memory" ∈ benefits (benefitScene g) <->
   "memory" ∈ benefit_keys /\
   benefitsCollected (gameState g) !! "memory" ≠ Some true).
Proof.
  intros g. split; [apply started_reachable|].
  assert (running g = BenefitScene) as Hrun by (vm_compute; reflexivity).
  split; [exact Hrun|].
  destruct (benefit_items_uncollected g "memory" (started_reachable _) Hrun) as [H _].
  exact H.
Defined.

(** X11. How many overlays can be on screen. None in the title and the
    conclusion; in the benefit stage at most one per item collected, five
    in all; in the bridge stage at most one; in the build stage at most
    one per step reached, six in all. *)
Theorem overlays_on_screen_bounded (g : Game) :
  reachable g ->
  (running g = TitleScene \/ running g = ConclusionScene -> overlays_active g = []) /\
  (running g = BenefitScene ->
   length (overlays_active g) + length (benefits (benefitScene g)) <= 5) /\
  (running g = NapiScene -> length (overlays_active g) <= 1) /\
  (running g = BuildScene ->
   length (overlays_active g) <= stepIndex (buildScene g) <= 6).
Proof.
  intros Hreach. pose proof (overlay_room_reachable g Hreach) as Hroom.
  destruct (reachable_Inv g Hreach) as [H _]. unfold overlay_room in Hroom.
  split; [|split; [|split]].
  - intros [Hrun|Hrun]; by rewrite Hrun in Hroom.
  - intros Hrun. by destruct (benefit_items_reachable g Hreach Hrun) as (_ & _ & Hlen).
  - intros Hrun. by rewrite Hrun in Hroom.
  - intros Hrun. rewrite Hrun in Hroom. split; [done|]. apply (inv_stepIndex g H).
Qed.

Lemma overlays_on_screen_bounded_witness :
  let g := run (take 32 first_playthrough) started in
  reachable g /\ running g = NapiScene /\ length (overlays_active g) <= 1.
Proof.
  intros g. split; [apply started_reachable|].
  assert (running g = NapiScene) as Hrun by (vm_compute; reflexivity).
  split; [exact Hrun|].
  destruct (overlays_on_screen_bounded g (started_reachable _)) as (_ & _ & H & _).
  exact (H Hrun).
Defined.

(** *** The overlays a playthrough presents *)












Lemma present_sys (c : Content) (r : Reaction) (g : Game) :
  wf_sys (sys g) ->
  sys (present c r g) =
    mkSys (displayList (sys g))
          (containers (sys g) ++
             [mkContainer (next_id (sys g)) (overlay_children c (next_id (sys g)))])
          (next_id (sys g) + 1 + length (overlay_children c (next_id (sys g))))
          (<[next_id (sys g) := Pending [r]]> (promises (sys g))).
Proof. intros Hwf. by rewrite present_spec. Qed.

(** What a step does to the display list, the promises and the record of
    resolved promises: nothing, or one overlay is presented, or one
    overlay on screen is closed, or the scene is shut down. *)
Lemma step_sys (e : Event) (g : Game) :
  Inv g -> queued g = None ->
  (sys (step e g) = sys g /\ resolved (step e g) = resolved g) \/
  (exists c r,
     sys (step e g) =
       mkSys (displayList (sys g))
             (containers (sys g) ++
                [mkContainer (next_id (sys g)) (overlay_children c (next_id (sys g)))])
             (next_id (sys g) + 1 + length (overlay_children c (next_id (sys g))))
             (<[next_id (sys g) := Pending [r]]> (promises (sys g))) /\
     resolved (step e g) = resolved g) \/
  (exists o, o ∈ overlays_active g /\
     sys (step e g) = sys (closed_sys o g) /\
     resolved (step e g) = resolved g ++ [o]) \/
  (sys (step e g) = mkSys [] [] (next_id (sys g)) (promises (sys g)) /\
   resolved (step e g) = resolved g).
Proof.
  intros H Hq. pose proof (SysInv_wf g (inv_sys g H)) as Hwf.
  destruct (decide (running (step e g) = running g)) as [Hsame|Hne].
  - assert (queued (dispatch e g) = None) as Hq'.
    { destruct (Inv_dispatch e g H Hq) as [_ Hok]. unfold queue_ok in Hok.
      unfold step, processQueue in Hsame. rewrite dispatch_running in Hok.
      destruct (queued (dispatch e g)) as [key|]; [|done].
      exfalso. destruct key, (running g); cbn in Hsame, Hok; congruence. }
    unfold step. rewrite processQueue_None by done. clear Hsame Hq'.
    unfold dispatch.
    destruct e; destruct (running g) eqn:Hrun; try (by left);
      repeat case_decide; try (by left).
    all: try (match goal with
              | Ho : ?o ∈ overlays_active _ |- _ =>
                  destruct (close_running o g (inv_sys g H) Ho) as (r & _ & ->);
                  right; right; left; exists o; split; [done|];
                  rewrite react_sys, react_resolved; done
              end).
    + unfold BenefitScene.collectBenefit. destruct (truthy_flag _); [by left|].
      cbv zeta. destruct (benefit_text _) as [t b]. right. left.
      eexists _, _. rewrite present_resolved. split; [|done].
      by rewrite present_sys by exact Hwf.
    + unfold NapiScene.update_JustDown. cbv zeta. destruct (_ && _); [|by left].
      right. left. eexists _, _. rewrite present_resolved. split; [|done].
      by rewrite present_sys by exact Hwf.
    + unfold BuildScene.reachSign. cbv zeta. case_decide; [|by left].
      destruct (steps _ !! _); [|by left].
      right. left. eexists _, _. rewrite present_resolved. split; [|done].
      by rewrite present_sys by exact Hwf.
    + unfold ExampleScene.visitStation, ExampleScene.showOverlay.
      destruct (truthy_flag _); [by left|]. cbv zeta.
      destruct (find _ _) as [station|]; [|by left].
      destruct (st_async station); [by left|].
      right. left. eexists _, _. rewrite present_resolved. split; [|done].
      by rewrite present_sys by exact Hwf.
    + unfold ExampleScene.digest_fulfilled, ExampleScene.showOverlay.
      destruct (digests g); [by left|].
      right. left. eexists _, _. rewrite present_resolved. split; [|done].
      by rewrite present_sys by exact Hwf.
    + by destruct (benefit_nextButton _); left.
    + by destruct (napi_nextButton _); left.
    + by destruct (build_nextButton _); left.
    + by destruct (example_nextButton _); left.
  - destruct (step_enters e g H Hq Hne) as (g' & _ & _ & _ & Hsys & _ & Hres & ->).
    right. right. right. unfold shutdown. rewrite Hsys.
    destruct (running g); cbn; by rewrite Hres.
Qed.

Lemma off_screen_step (e : Event) (g : Game) (o : nat) :
  Inv g -> queued g = None ->
  o < next_id (sys g) -> o ∉ overlays_active g ->
  o < next_id (sys (step e g)) /\
  (o ∉ overlays_active (step e g)) /\
  promises (sys (step e g)) !! o = promises (sys g) !! o /\
  (o ∈ resolved (step e g) <-> o ∈ resolved g).
Proof.
  intros H Hq Hlt Hoff. unfold overlays_active in *.
  destruct (step_sys e g H Hq)
    as [[-> ->]|[(c & r & -> & ->)|[(o' & Ho' & -> & ->)|[-> ->]]]]; fields.
  - done.
  - split; [lia|]. split.
    + rewrite fmap_app. cbn. rewrite elem_of_app, list_elem_of_singleton. intros [?|?]; [done|lia].
    + split; [|done]. rewrite lookup_insert_ne; [done|lia].
  - unfold closed_sys. fields.
    assert (o ≠ o') as Hne by (intros ->; done).
    split; [done|]. split.
    + intros Hin. apply Hoff. apply list_elem_of_fmap in Hin as (k & -> & Hk).
      apply list_elem_of_filter in Hk as [_ Hk]. apply list_elem_of_fmap. by exists k.
    + split; [by rewrite lookup_insert_ne|].
      rewrite elem_of_app, list_elem_of_singleton. tauto.
  - split; [done|]. split; [|done]. cbn. apply not_elem_of_nil.
Qed.

(** X13. An overlay that has left the screen does not come back: its
    container is never on the display list again, its promise stays as it
    is, and [resolve] is not called for it later. An overlay that a scene
    change removed while it was open therefore keeps a pending promise for
    good, and its reaction never runs. *)
Theorem overlay_off_screen_stays_off (g : Game) (o : nat) (es : list Event) :
  reachable g ->
  o < next_id (sys g) ->
  o ∉ overlays_active g ->
  (o ∉ overlays_active (run es g)) /\
  promises (sys (run es g)) !! o = promises (sys g) !! o /\
  (o ∈ resolved (run es g) <-> o ∈ resolved g).
Proof.
  intros Hreach Hlt Hoff.
  assert (o < next_id (sys (run es g)) /\ (o ∉ overlays_active (run es g)) /\
          promises (sys (run es g)) !! o = promises (sys g) !! o /\
          (o ∈ resolved (run es g) <-> o ∈ resolved g)) as (_ & H1 & H2 & H3);
    [|done].
  induction es as [|e es IH] using rev_ind; [done|].
  rewrite run_snoc. destruct IH as (IHlt & IHoff & IHp & IHr).
  destruct (reachable_Inv _ (reachable_run es g Hreach)) as [H Hq].
  destruct (off_screen_step e (run es g) o H Hq IHlt IHoff) as (E1 & E2 & E3 & E4).
  split; [done|]. split; [done|]. split; [congruence | tauto].
Qed.

Lemma overlay_off_screen_stays_off_witness :
  let g := run overlays_left_open started in
  let es := [Close_pointerdown 6; Space_JustDown] in
  reachable g /\ 6 < next_id (sys g) /\ (6 ∉ overlays_active g) /\
  promises (sys (run es g)) !! 6 = Some (Pending [BenefitClosed]) /\
  (6 ∉ resolved (run es g)).
Proof.
  intros g es.
  assert (6 < next_id (sys g)) as Hlt by (vm_compute; lia).
  assert (6 ∉ overlays_active g) as Hoff
    by (apply (bool_decide_unpack _); by vm_compute).
  split; [apply started_reachable|]. split; [exact Hlt|]. split; [exact Hoff|].
  destruct (overlay_off_screen_stays_off g 6 es (started_reachable _) Hlt Hoff)
    as (_ & Hp & Hr).
  split.
  - rewrite Hp. vm_compute. reflexivity.
  - rewrite Hr. apply (bool_decide_unpack _). by vm_compute.
Defined.

(** *** The movement of the player *)

Lemma platformer_updates_agree (update : Cursors -> Player -> Player) :
  update ∈ platformer_updates -> update = BenefitScene.update.
Proof.
  unfold platformer_updates. rewrite !elem_of_cons, elem_of_nil.
  intros [->|[->|[->|[]]]]; reflexivity.
Qed.

Ltac update_cases c p :=
  destruct c as [[] [] []]; destruct p as [vx vy [] fl pl];
  unfold BenefitScene.update, setFlipX, setVelocityX, setVelocityY, anims_play;
  cbn [left_isDown right_isDown up_isDown velocity_x velocity_y blocked_down
       flipX played andb negb];
  try destruct (Number.gtb vy (Number.of_Z 0)) eqn:Hfall;
  cbn [left_isDown right_isDown up_isDown velocity_x velocity_y blocked_down
       flipX played andb negb].

(** X14. Horizontal movement in [BenefitScene.update], [BuildScene.update]
    and [ExampleScene.update]. After [update] the horizontal velocity is
    -200 with the sprite flipped, 200 with the sprite not flipped, or 0
    with the flip as it was; the left key wins over the right key; the
    velocity is 0 exactly when neither is down; [blocked.down] is not
    written. *)
Theorem update_horizontal (update : Cursors -> Player -> Player)
    (cursors : Cursors) (player : Player) :
  update ∈ platformer_updates ->
  let player' := update cursors player in
  (velocity_x player' = Number.of_Z (-200) /\ flipX player' = true \/
   velocity_x player' = Number.of_Z 200 /\ flipX player' = false \/
   velocity_x player' = Number.of_Z 0 /\ flipX player' = flipX player) /\
  (left_isDown cursors = true -> velocity_x player' = Number.of_Z (-200)) /\
  (velocity_x player' = Number.of_Z 0 <->
   left_isDown cursors = false /\ right_isDown cursors = false) /\
  blocked_down player' = blocked_down player.
Proof.
  intros ->%platformer_updates_agree. cbv zeta.
  update_cases cursors player;
    (split; [vm_compute; tauto|]); (split; [intros; try discriminate; reflexivity|]);
    (split; [|reflexivity]); split; try (intros [? ?]; discriminate); try done;
    vm_compute; discriminate.
Qed.

(** X15. Jumping in the three [update] methods: the vertical velocity
    becomes -320 when the up key is down and the body rests on something;
    in every other frame [update] leaves it alone, so that there is no jump
    in mid-air. *)
Theorem update_jump_from_ground (update : Cursors -> Player -> Player)
    (cursors : Cursors) (player : Player) :
  update ∈ platformer_updates ->
  let player' := update cursors player in
  (up_isDown cursors && blocked_down player = true ->
   velocity_y player' = Number.of_Z (-320)) /\
  (up_isDown cursors && blocked_down player = false ->
   velocity_y player' = velocity_y player).
Proof.
  intros ->%platformer_updates_agree. cbv zeta.
  update_cases cursors player; split; intros; try discriminate; reflexivity.
Qed.

(** X16. The animations the three [update] methods ask for in one frame:
    at most two calls of [anims.play]. On the ground the last call is
    robot-jump if the up key is down, else robot-walk if the left or right
    key is down, else robot-idle, and robot-fall is not asked for; in the
    air the only call is robot-fall, made when the vertical velocity is
    positive. *)
Theorem update_animations (update : Cursors -> Player -> Player)
    (cursors : Cursors) (player : Player) :
  update ∈ platformer_updates ->
  exists new,
    played (update cursors player) = played player ++ new /\
    length new <= 2 /\
    (blocked_down player = true ->
     ("robot-fall" ∉ new) /\
     last new = Some (if up_isDown cursors then "robot-jump"
                      else if left_isDown cursors || right_isDown cursors
                           then "robot-walk" else "robot-idle")) /\
    (blocked_down player = false ->
     new = if Number.gtb (velocity_y player) (Number.of_Z 0)
           then ["robot-fall"] else []).
Proof.
  intros ->%platformer_updates_agree.
  update_cases cursors player.
  all: try rewrite <- !app_assoc; cbn [app].
  all: eexists; (split; [first [reflexivity | symmetry; apply app_nil_r]|]).
  all: cbn [length]; (split; [lia|]).
  all: split; intros; try discriminate; try reflexivity.
  all: try rewrite Hfall; try reflexivity.
  all: split; [|reflexivity].
  all: rewrite ?elem_of_cons, elem_of_nil; intros H'; intuition discriminate.
Qed.

Lemma update_horizontal_witness :
  BuildScene.update ∈ platformer_updates /\
  velocity_x (BuildScene.update (mkCursors true true false)
                (mkPlayer (Number.of_Z 200) (Number.of_Z 0) true false []))
  = Number.of_Z (-200).
Proof.
  assert (BuildScene.update ∈ platformer_updates) as Hin
    by (apply list_elem_of_further, list_elem_of_here).
  split; [exact Hin|].
  apply (update_horizontal _ (mkCursors true true false)
           (mkPlayer (Number.of_Z 200) (Number.of_Z 0) true false []) Hin).
  reflexivity.
Defined.

Lemma update_jump_from_ground_witness :
  ExampleScene.update ∈ platformer_updates /\
  velocity_y (ExampleScene.update (mkCursors false false true)
                (mkPlayer (Number.of_Z 0) (Number.of_Z 40) false false []))
  = Number.of_Z 40.
Proof.
  assert (ExampleScene.update ∈ platformer_updates) as Hin
    by (apply list_elem_of_further, list_elem_of_further, list_elem_of_here).
  split; [exact Hin|].
  apply (update_jump_from_ground _ (mkCursors false false true)
           (mkPlayer (Number.of_Z 0) (Number.of_Z 40) false false []) Hin).
  reflexivity.
Defined.

Lemma update_animations_witness :
  BenefitScene.update ∈ platformer_updates /\
  exists new,
    played (BenefitScene.update (mkCursors false true true)
              (mkPlayer (Number.of_Z 0) (Number.of_Z 0) true false ["robot-idle"]))
    = ["robot-idle"] ++ new /\
    last new = Some "robot-jump".
Proof.
  assert (BenefitScene.update ∈ platformer_updates) as Hin by apply list_elem_of_here.
  split; [exact Hin|].
  destruct (update_animations _ (mkCursors false true true)
              (mkPlayer (Number.of_Z 0) (Number.of_Z 0) true false ["robot-idle"]) Hin)
    as (new & Hnew & _ & Hground & _).
  exists new. split; [exact Hnew|]. by destruct (Hground eq_refl) as [_ ->].
Defined.

(** *** The functions the example stations run *)

Lemma append_String (c : Ascii.ascii) (x y : string) :
  (String c x ++ y)%string = String c (x ++ y)%string.
Proof. reflexivity. Qed.

Lemma append_Empty (y : string) : (EmptyString ++ y)%string = y.
Proof. reflexivity. Qed.

Lemma append_Empty_r (x : string) : (x ++ EmptyString)%string = x.
Proof. induction x as [|c x IH]; [reflexivity|]. by rewrite append_String, IH. Qed.

Lemma concat_empty_cons (x : string) (xs : list string) :
  String.concat EmptyString (x :: xs) = (x ++ String.concat EmptyString xs)%string.
Proof.
  destruct xs as [|y ys]; simpl; [|reflexivity]. by rewrite append_Empty_r.
Qed.

Lemma byte_hex_digits (b : Byte.byte) :
  padStart 2 "0" (toString16 (Byte.to_N b)) = byte_digits b.
Proof. destruct b; reflexivity. Qed.

Lemma hex_cons (b : Byte.byte) (buffer : list Byte.byte) :
  hex (b :: buffer) = (byte_digits b ++ hex buffer)%string.
Proof.
  unfold hex. rewrite map_cons, concat_empty_cons. by rewrite byte_hex_digits.
Qed.

Lemma byte_digits_hex (b : Byte.byte) :
  is_hex (hex_digit (Byte.to_N b / 16)) = true /\
  is_hex (hex_digit (Byte.to_N b mod 16)) = true.
Proof. destruct b; split; reflexivity. Qed.

Lemma parse_byte_digits (b : Byte.byte) :
  parse_byte (hex_digit (Byte.to_N b / 16)) (hex_digit (Byte.to_N b mod 16)) = Some b.
Proof. destruct b; reflexivity. Qed.

(** X17. [hex] of the hashing station writes two characters per byte, the
    digit of the high four bits and then the digit of the low four bits,
    all of them digits or lower-case letters from a to f. *)
Theorem hex_two_digits_per_byte (buffer : list Byte.byte) :
  hex buffer = String.concat EmptyString (map byte_digits buffer) /\
  String.length (hex buffer) = 2 * length buffer /\
  forallb is_hex (String.list_ascii_of_string (hex buffer)) = true.
Proof.
  induction buffer as [|b buffer (IHeq & IHlen & IHhex)]; [repeat split; reflexivity|].
  rewrite hex_cons. split.
  - by rewrite map_cons, concat_empty_cons, IHeq.
  - unfold byte_digits. rewrite !append_String, append_Empty.
    cbn [String.length String.list_ascii_of_string forallb length].
    destruct (byte_digits_hex b) as [-> ->]. rewrite IHlen, IHhex.
    split; [lia | reflexivity].
Qed.

(** X18. [hex] loses nothing: two buffers with the same text are the same
    buffer. This is what [padStart(2, '0')] is for. *)
Theorem hex_injective (buffer1 buffer2 : list Byte.byte) :
  hex buffer1 = hex buffer2 -> buffer1 = buffer2.
Proof.
  revert buffer2. induction buffer1 as [|b1 buffer1 IH]; intros [|b2 buffer2].
  - done.
  - rewrite hex_cons. discriminate.
  - rewrite hex_cons. discriminate.
  - rewrite !hex_cons. unfold byte_digits. rewrite !append_String, !append_Empty.
    intros [= H1 H2 Hrest].
    pose proof (parse_byte_digits b1) as P1. rewrite H1, H2, parse_byte_digits in P1.
    f_equal; [congruence | by apply IH].
Qed.

Lemma hex_injective_witness :
  hex [Byte.x01; Byte.x00] = hex [Byte.x01; Byte.x00] /\
  [Byte.x01; Byte.x00] = [Byte.x01; Byte.x00].
Proof.
  split; [reflexivity|]. apply hex_injective. reflexivity.
Defined.

Lemma uuid_digit_0 (b : Byte.byte) :
  uuid_digit 0 b = String (hex_digit (Byte.to_N b mod 16)) EmptyString.
Proof. destruct b; reflexivity. Qed.

Lemma uuid_digit_1 (b : Byte.byte) :
  uuid_digit 1 b = String (hex_digit (N.lxor 1 (Byte.to_N b mod 16))) EmptyString.
Proof. destruct b; reflexivity. Qed.

Lemma uuid_digit_8 (b : Byte.byte) :
  uuid_digit 8 b = String (hex_digit (8 + Byte.to_N b mod 4)) EmptyString.
Proof. destruct b; reflexivity. Qed.

Lemma uuid_digit_0_hex (b : Byte.byte) : is_hex (hex_digit (Byte.to_N b mod 16)) = true.
Proof. destruct b; reflexivity. Qed.

Lemma uuid_digit_1_hex (b : Byte.byte) :
  is_hex (hex_digit (N.lxor 1 (Byte.to_N b mod 16))) = true.
Proof. destruct b; reflexivity. Qed.

Lemma uuid_digit_8_variant (b : Byte.byte) :
  existsb (Ascii.eqb (hex_digit (8 + Byte.to_N b mod 4))) ["8"; "9"; "a"; "b"]%char = true.
Proof. destruct b; reflexivity. Qed.

Lemma replace_018_v4 (random : nat -> Byte.byte) (t : string) (i calls : nat) :
  template_from i t = true ->
  uuid_v4_from i (fst (replace_018 random calls t)) = true /\
  snd (replace_018 random calls t) = calls + count_018 t.
Proof.
  revert i calls. induction t as [|c t IH]; intros i calls.
  - cbn. intros ->. split; [reflexivity | lia].
  - cbn [template_from replace_018 count_018].
    intros [Hc Ht]%andb_true_iff.
    unfold template_char, uuid_v4_char in *.
    destruct (IH (S i) (S calls) Ht) as [IH1 IH2].
    destruct (IH (S i) calls Ht) as [IH3 IH4].
    destruct (replace_018 random (S calls) t) as [r1 k1].
    destruct (replace_018 random calls t) as [r2 k2].
    cbn [fst snd] in *.
    destruct (Nat.eqb i 8 || Nat.eqb i 13 || Nat.eqb i 18 || Nat.eqb i 23) eqn:Hdash;
      [|destruct (Nat.eqb i 14) eqn:H14; [|destruct (Nat.eqb i 19) eqn:H19]].
    + apply Ascii.eqb_eq in Hc as ->. cbn [Ascii.eqb Bool.eqb orb fst snd uuid_v4_from].
      unfold uuid_v4_char. rewrite Hdash. cbn. split; [done | lia].
    + apply Ascii.eqb_eq in Hc as ->. cbn [Ascii.eqb Bool.eqb orb fst snd uuid_v4_from].
      unfold uuid_v4_char. rewrite Hdash, H14. cbn. split; [done | lia].
    + apply Ascii.eqb_eq in Hc as ->. cbn [Ascii.eqb Bool.eqb orb fst snd].
      change (Ascii.N_of_ascii "8" - 48)%N with 8%N.
      rewrite uuid_digit_8, append_String, append_Empty.
      cbn [uuid_v4_from]. unfold uuid_v4_char. rewrite Hdash, H14, H19.
      rewrite uuid_digit_8_variant. split; [done | lia].
    + apply orb_true_iff in Hc as [Hc|Hc]; apply Ascii.eqb_eq in Hc as ->;
        cbn [Ascii.eqb Bool.eqb orb fst snd].
      * change (Ascii.N_of_ascii "0" - 48)%N with 0%N.
        rewrite uuid_digit_0, append_String, append_Empty.
        cbn [uuid_v4_from]. unfold uuid_v4_char. rewrite Hdash, H14, H19.
        rewrite uuid_digit_0_hex. split; [done | lia].
      * change (Ascii.N_of_ascii "1" - 48)%N with 1%N.
        rewrite uuid_digit_1, append_String, append_Empty.
        cbn [uuid_v4_from]. unfold uuid_v4_char. rewrite Hdash, H14, H19.
        rewrite uuid_digit_1_hex. split; [done | lia].
Qed.

Lemma uuid_v4_length (s : string) (i : nat) :
  uuid_v4_from i s = true -> i + String.length s = 36.
Proof.
  revert i. induction s as [|c s IH]; intros i; cbn [uuid_v4_from String.length].
  - intros ->%Nat.eqb_eq. lia.
  - intros [_ H]%andb_true_iff. apply IH in H. lia.
Qed.

Lemma template_length (t : string) (i : nat) :
  template_from i t = true -> i + String.length t = 36.
Proof.
  revert i. induction t as [|c t IH]; intros i; cbn [template_from String.length].
  - intros ->%Nat.eqb_eq. lia.
  - intros [_ H]%andb_true_iff. apply IH in H. lia.
Qed.

(** X19. The UUID of the random station is a version 4 UUID whatever the
    random bytes are: 36 characters, hyphens at positions 8, 13, 18 and
    23, the digit 4 at position 14, one of 8, 9, a, b at position 19 and
    lower-case hexadecimal digits elsewhere; 31 random bytes are drawn. *)
Theorem uuid_is_version_4 (random : nat -> Byte.byte) :
  is_uuid_v4 (fst (uuid random)) = true /\
  String.length (fst (uuid random)) = 36 /\
  snd (uuid random) = 31.
Proof.
  destruct (replace_018_v4 random uuid_template 0 0) as [Hv4 Hcalls]; [reflexivity|].
  split; [exact Hv4|]. split; [|exact Hcalls].
  by apply uuid_v4_length in Hv4.
Qed.

Lemma uuid_digit_onto (h : Ascii.ascii) :
  is_hex h = true ->
  uuid_digit 0 (digit_byte 0 h) = String h EmptyString /\
  uuid_digit 1 (digit_byte 1 h) = String h EmptyString.
Proof.
  unfold is_hex. cbn [existsb String.list_ascii_of_string].
  rewrite !orb_true_iff, !Ascii.eqb_eq.
  intros H. repeat (destruct H as [H|H]; [subst h; split; reflexivity|]). done.
Qed.

Lemma uuid_digit_8_onto (h : Ascii.ascii) :
  existsb (Ascii.eqb h) ["8"; "9"; "a"; "b"]%char = true ->
  uuid_digit 8 (digit_byte 8 h) = String h EmptyString.
Proof.
  cbn [existsb]. rewrite !orb_true_iff, !Ascii.eqb_eq.
  intros H. repeat (destruct H as [H|H]; [subst h; reflexivity|]). done.
Qed.

Lemma fst_let {A B C} (p : A * B) (f : A -> C) :
  fst (let (r, k) := p in (f r, k)) = f (fst p).
Proof. by destruct p. Qed.

Lemma replace_018_onto (t : string) (i : nat) (s : string) :
  template_from i t = true -> uuid_v4_from i s = true ->
  exists bytes, forall random calls,
    (forall j, j < length bytes -> random (calls + j) = nth j bytes Byte.x00) ->
    fst (replace_018 random calls t) = s.
Proof.
  revert i s. induction t as [|c t IH]; intros i s Ht Hs.
  - pose proof (template_length _ _ Ht) as Hlen. pose proof (uuid_v4_length _ _ Hs) as Hlen'.
    destruct s; cbn [String.length] in *; [|lia]. by exists [].
  - pose proof (template_length _ _ Ht) as Hlen. pose proof (uuid_v4_length _ _ Hs) as Hlen'.
    destruct s as [|h s]; cbn [String.length] in *; [lia|].
    cbn [template_from uuid_v4_from] in Ht, Hs.
    apply andb_true_iff in Ht as [Hc Ht]. apply andb_true_iff in Hs as [Hh Hs].
    destruct (IH _ _ Ht Hs) as (bytes & Hbytes).
    unfold template_char, uuid_v4_char in *.
    assert (forall b random calls,
              (forall j, j < length (b :: bytes) ->
                 random (calls + j) = nth j (b :: bytes) Byte.x00) ->
              random calls = b /\ fst (replace_018 random (S calls) t) = s) as Hdraw.
    { intros b random calls Hr. split.
      - specialize (Hr 0). rewrite Nat.add_0_r in Hr. apply Hr. cbn. lia.
      - apply Hbytes. intros j Hj. specialize (Hr (S j)).
        rewrite Nat.add_succ_r in Hr. apply Hr. cbn. lia. }
    destruct (Nat.eqb i 8 || Nat.eqb i 13 || Nat.eqb i 18 || Nat.eqb i 23) eqn:Hdash;
      [|destruct (Nat.eqb i 14) eqn:H14; [|destruct (Nat.eqb i 19) eqn:H19]].
    + apply Ascii.eqb_eq in Hc as ->. apply Ascii.eqb_eq in Hh as ->.
      exists bytes. intros random calls Hr. cbn [replace_018 Ascii.eqb Bool.eqb orb].
      rewrite fst_let. f_equal. by apply Hbytes.
    + apply Ascii.eqb_eq in Hc as ->. apply Ascii.eqb_eq in Hh as ->.
      exists bytes. intros random calls Hr. cbn [replace_018 Ascii.eqb Bool.eqb orb].
      rewrite fst_let. f_equal. by apply Hbytes.
    + apply Ascii.eqb_eq in Hc as ->.
      exists (digit_byte 8 h :: bytes). intros random calls Hr.
      destruct (Hdraw _ _ _ Hr) as [Hb Hrest].
      cbn [replace_018 Ascii.eqb Bool.eqb orb]. rewrite fst_let, Hb, Hrest.
      change (Ascii.N_of_ascii "8" - 48)%N with 8%N.
      by rewrite uuid_digit_8_onto.
    + destruct (uuid_digit_onto h Hh) as [H0 H1].
      apply orb_true_iff in Hc as [Hc|Hc]; apply Ascii.eqb_eq in Hc as ->.
      * exists (digit_byte 0 h :: bytes). intros random calls Hr.
        destruct (Hdraw _ _ _ Hr) as [Hb Hrest].
        cbn [replace_018 Ascii.eqb Bool.eqb orb]. rewrite fst_let, Hb, Hrest.
        change (Ascii.N_of_ascii "0" - 48)%N with 0%N. by rewrite H0.
      * exists (digit_byte 1 h :: bytes). intros random calls Hr.
        destruct (Hdraw _ _ _ Hr) as [Hb Hrest].
        cbn [replace_018 Ascii.eqb Bool.eqb orb]. rewrite fst_let, Hb, Hrest.
        change (Ascii.N_of_ascii "1" - 48)%N with 1%N. by rewrite H1.
Qed.

(** X20. Every version 4 UUID is the result of the generator for some
    random bytes. *)
Theorem uuid_reaches_every_version_4 (s : string) :
  is_uuid_v4 s = true -> exists random, fst (uuid random) = s.
Proof.
  intros Hs.
  destruct (replace_018_onto uuid_template 0 s) as (bytes & Hbytes); [reflexivity|exact Hs|].
  exists (fun k => nth k bytes Byte.x00). apply Hbytes. intros j _. reflexivity.
Qed.

Lemma uuid_reaches_every_version_4_witness :
  is_uuid_v4 "15af49e3-9d27-4c16-b05a-e49e38d27c16" = true /\
  exists random, fst (uuid random) = "15af49e3-9d27-4c16-b05a-e49e38d27c16".
Proof.
  split; [reflexivity|]. apply uuid_reaches_every_version_4. reflexivity.
Defined.

Lemma length_append (x y : string) :
  String.length (x ++ y)%string = String.length x + String.length y.
Proof.
  induction x as [|c x IH]; [reflexivity|].
  rewrite append_String. cbn [String.length]. by rewrite IH.
Qed.

Lemma list_ascii_append (x y : string) :
  String.list_ascii_of_string (x ++ y)%string
  = String.list_ascii_of_string x ++ String.list_ascii_of_string y.
Proof.
  induction x as [|c x IH]; [reflexivity|].
  rewrite append_String. cbn [String.list_ascii_of_string]. by rewrite IH.
Qed.

Lemma get_elem_of (s : string) (n : nat) (c : Ascii.ascii) :
  String.get n s = Some c -> c ∈ String.list_ascii_of_string s.
Proof.
  revert n. induction s as [|a s IH]; intros n; [done|].
  cbn [String.get String.list_ascii_of_string]. destruct n as [|n].
  - intros [= ->]. apply list_elem_of_here.
  - intros H. apply list_elem_of_further. by apply (IH n).
Qed.

Lemma get_lt (s : string) (n : nat) :
  n < String.length s -> is_Some (String.get n s).
Proof.
  revert n. induction s as [|a s IH]; intros n; cbn [String.length String.get]; [lia|].
  destruct n as [|n]; [by eexists|]. intros H. apply IH. lia.
Qed.

(** What [charAt] returns: nothing, or one character of the string. *)
Lemma charAt_cases (s : string) (pos : number) :
  charAt s pos = EmptyString \/
  exists c, charAt s pos = String c EmptyString /\ c ∈ String.list_ascii_of_string s.
Proof.
  unfold charAt. destruct (Number.ToIntegerOrInfinity pos) as [z|]; [|by left].
  destruct (z <? 0)%Z; [by left|].
  destruct (String.get (Z.to_nat z) s) as [c|] eqn:Hget; [|by left].
  right. exists c. split; [done|]. by apply get_elem_of in Hget.
Qed.

Lemma generatePassword_loop_chars (random : nat -> number) (chars : string)
    (n i : nat) (result : string) :
  String.length (generatePassword_loop random chars n i result)
    <= String.length result + n /\
  forall c, c ∈ String.list_ascii_of_string (generatePassword_loop random chars n i result) ->
            c ∈ String.list_ascii_of_string result \/
            c ∈ String.list_ascii_of_string chars.
Proof.
  revert i result. induction n as [|n IH]; intros i result; cbn [generatePassword_loop].
  - split; [lia | auto].
  - destruct (IH (S i) (result ++ charAt chars
        (Number.Math_floor (Number.mul (random i)
           (Number.of_Z (Z.of_nat (String.length chars))))))%string) as [IHlen IHin].
    rewrite length_append in IHlen.
    destruct (charAt_cases chars (Number.Math_floor (Number.mul (random i)
           (Number.of_Z (Z.of_nat (String.length chars)))))) as [He|(a & He & Ha)];
      rewrite He in *; cbn [String.length] in IHlen.
    + split; [lia|]. intros c Hc. apply IHin in Hc. by rewrite append_Empty_r in Hc.
    + split; [lia|]. intros c Hc. apply IHin in Hc as [Hc|Hc]; [|by right].
      rewrite list_ascii_append in Hc. apply elem_of_app in Hc as [Hc|Hc]; [by left|].
      cbn in Hc. apply list_elem_of_singleton in Hc as ->. by right.
Qed.

Lemma generatePassword_unfold (random : nat -> number) (len : nat)
    (upper lower digits : bool) (symbols : option string) :
  generatePassword random len upper lower digits symbols
  = generatePassword_loop random (password_alphabet upper lower digits symbols)
      len 0 EmptyString.
Proof.
  unfold generatePassword, password_alphabet. cbv zeta. f_equal.
  destruct upper, lower, digits; destruct (truthy_text symbols);
    rewrite ?append_Empty, ?append_Empty_r, ?append_String; cbv; reflexivity.
Qed.

(** X21. [generatePassword] draws from the selected alphabet only: whatever
    [Math.random] returns, the password has at most [len] characters, each
    from the upper-case letters, the lower-case letters, the digits and the
    symbols that were asked for; with nothing asked for it is empty. *)
Theorem generatePassword_charset (random : nat -> number) (len : nat)
    (upper lower digits : bool) (symbols : option string) :
  let password := generatePassword random len upper lower digits symbols in
  String.length password <= len /\
  (forall c, c ∈ String.list_ascii_of_string password ->
             c ∈ String.list_ascii_of_string
                   (password_alphabet upper lower digits symbols)) /\
  (password_alphabet upper lower digits symbols = EmptyString ->
   password = EmptyString).
Proof.
  cbv zeta. rewrite generatePassword_unfold.
  destruct (generatePassword_loop_chars random
              (password_alphabet upper lower digits symbols) len 0 EmptyString)
    as [Hlen Hin].
  split; [exact Hlen|]. split.
  - intros c Hc. destruct (Hin c Hc) as [H|H]; [|done]. by apply elem_of_nil in H.
  - intros He. rewrite He in *.
    destruct (generatePassword_loop random EmptyString len 0 EmptyString) as [|c r];
      [done|].
    destruct (Hin c) as [H|H]; [apply list_elem_of_here| |]; by apply elem_of_nil in H.
Qed.

Lemma append_assoc (x y z : string) : ((x ++ y) ++ z)%string = (x ++ (y ++ z))%string.
Proof.
  induction x as [|c x IH]; [reflexivity|]. by rewrite !append_String, IH.
Qed.

Lemma generatePassword_loop_app (random : nat -> number) (chars : string)
    (n i : nat) (result : string) :
  generatePassword_loop random chars n i result
  = (result ++ generatePassword_loop random chars n i EmptyString)%string.
Proof.
  revert i result. induction n as [|n IH]; intros i result; cbn [generatePassword_loop].
  - by rewrite append_Empty_r.
  - rewrite IH. rewrite (IH _ (EmptyString ++ _)%string).
    by rewrite append_Empty, append_assoc.
Qed.

Lemma charAt_drawn (random : nat -> number) (chars : string) (i index : nat) :
  drawn_index random chars i = Some (Z.of_nat index) ->
  index < String.length chars ->
  exists c, String.get index chars = Some c /\
    charAt chars (Number.Math_floor (Number.mul (random i)
      (Number.of_Z (Z.of_nat (String.length chars))))) = String c EmptyString.
Proof.
  intros Hd Hlt. unfold drawn_index in Hd. unfold charAt. rewrite Hd.
  destruct (Z.ltb_spec (Z.of_nat index) 0) as [?|_]; [lia|].
  rewrite Nat2Z.id. destruct (get_lt chars index Hlt) as [c Hc].
  exists c. by rewrite Hc.
Qed.

Lemma generatePassword_loop_draws (random : nat -> number) (chars : string)
    (index : nat -> nat) (n i0 : nat) :
  (forall i, i0 <= i < i0 + n ->
     drawn_index random chars i = Some (Z.of_nat (index i)) /\
     index i < String.length chars) ->
  String.length (generatePassword_loop random chars n i0 EmptyString) = n /\
  forall k, k < n ->
    String.get k (generatePassword_loop random chars n i0 EmptyString)
    = String.get (index (i0 + k)) chars.
Proof.
  revert i0. induction n as [|n IH]; intros i0 Hdraws; cbn [generatePassword_loop].
  - split; [reflexivity | lia].
  - destruct (Hdraws i0) as [Hd Hlt]; [lia|].
    destruct (charAt_drawn random chars i0 (index i0) Hd Hlt) as (c & Hc & ->).
    rewrite append_Empty, generatePassword_loop_app, append_String, append_Empty.
    destruct (IH (S i0)) as [IHlen IHget]; [intros i Hi; apply Hdraws; lia|].
    cbn [String.length String.get]. split; [by rewrite IHlen|].
    intros [|k] Hk.
    + by rewrite Nat.add_0_r.
    + rewrite IHget by lia. f_equal. f_equal. lia.
Qed.

(** *** Rounding of binary64 products *)

Lemma fexp_eq (e : Z) : fexp Number.prec Number.emax e = Z.max (e - 53) (-1074).
Proof. reflexivity. Qed.

Lemma digits2_pos_bounds (p : positive) :
  (2 ^ (Z.pos (digits2_pos p) - 1) <= Z.pos p < 2 ^ Z.pos (digits2_pos p))%Z.
Proof.
  induction p as [p IH|p IH|]; cbn [digits2_pos].
  - rewrite Pos2Z.inj_succ, Z.pow_succ_r by lia.
    replace (Z.succ (Z.pos (digits2_pos p)) - 1)%Z
      with (Z.succ (Z.pos (digits2_pos p) - 1)) by lia.
    rewrite Z.pow_succ_r by lia. lia.
  - rewrite Pos2Z.inj_succ, Z.pow_succ_r by lia.
    replace (Z.succ (Z.pos (digits2_pos p)) - 1)%Z
      with (Z.succ (Z.pos (digits2_pos p) - 1)) by lia.
    rewrite Z.pow_succ_r by lia. lia.
  - cbn. lia.
Qed.

(** One shift to the right halves the mantissa and remembers the bit
    that fell off. *)
Lemma shr_1_spec (mrs : shr_record) :
  (0 <= shr_m mrs)%Z ->
  shr_m (shr_1 mrs) = (shr_m mrs / 2)%Z /\
  shr_r (shr_1 mrs) = Z.odd (shr_m mrs).
Proof.
  destruct mrs as [m r s]. cbn [shr_m]. intros Hm. rewrite <- Z.div2_div.
  destruct m as [|[p|p|]|p]; try lia; split; reflexivity.
Qed.

Lemma div_pow2_twice (a x y : Z) :
  (0 <= x -> 0 <= y -> a / 2 ^ x / 2 ^ y = a / 2 ^ (x + y))%Z.
Proof.
  intros Hx Hy.
  assert (0 < 2 ^ x)%Z by (apply Z.pow_pos_nonneg; lia).
  assert (0 < 2 ^ y)%Z by (apply Z.pow_pos_nonneg; lia).
  rewrite Z.div_div by lia. by rewrite Z.pow_add_r.
Qed.

Lemma iter_shr_1_spec (p : positive) (mrs : shr_record) :
  (0 <= shr_m mrs)%Z ->
  shr_m (SpecFloat.iter_pos shr_1 p mrs) = (shr_m mrs / 2 ^ Z.pos p)%Z /\
  shr_r (SpecFloat.iter_pos shr_1 p mrs) = Z.odd (shr_m mrs / 2 ^ (Z.pos p - 1)).
Proof.
  revert mrs. induction p as [p IH|p IH|]; intros mrs Hm; cbn [SpecFloat.iter_pos].
  - destruct (shr_1_spec mrs Hm) as [E1 R1].
    assert (0 <= shr_m (shr_1 mrs))%Z as H1 by (rewrite E1; apply Z.div_pos; lia).
    destruct (IH _ H1) as [E2 R2].
    assert (0 <= shr_m (SpecFloat.iter_pos shr_1 p (shr_1 mrs)))%Z as H2
      by (rewrite E2; apply Z.div_pos; [lia | apply Z.pow_pos_nonneg; lia]).
    destruct (IH _ H2) as [E3 R3].
    rewrite E3, R3, E2, E1.
    replace (shr_m mrs / 2)%Z with (shr_m mrs / 2 ^ 1)%Z by (by rewrite Z.pow_1_r).
    rewrite !div_pow2_twice by lia.
    split; repeat f_equal; lia.
  - destruct (IH _ Hm) as [E2 R2].
    assert (0 <= shr_m (SpecFloat.iter_pos shr_1 p mrs))%Z as H2
      by (rewrite E2; apply Z.div_pos; [lia | apply Z.pow_pos_nonneg; lia]).
    destruct (IH _ H2) as [E3 R3].
    rewrite E3, R3, E2.
    rewrite !div_pow2_twice by lia.
    split; repeat f_equal; lia.
  - destruct (shr_1_spec mrs Hm) as [E1 R1]. rewrite E1, R1.
    split; [reflexivity|]. by rewrite Z.div_1_r.
Qed.

Lemma round_nearest_even_spec (mrs : shr_record) :
  let R := round_nearest_even (shr_m mrs) (loc_of_shr_record mrs) in
  (shr_m mrs <= R <= shr_m mrs + 1)%Z /\
  (shr_r mrs = false -> R = shr_m mrs).
Proof.
  destruct mrs as [m [] []]; cbn; try destruct (Z.even m); split; (lia || done).
Qed.

(** The first step of rounding an exact mantissa: the bits below the
    target exponent are shifted out. *)
Lemma shr_fexp_exact (M E : Z) :
  (0 < M)%Z ->
  let n := (fexp Number.prec Number.emax (Zdigits2 M + E) - E)%Z in
  ((n <= 0)%Z ->
   shr_fexp Number.prec Number.emax M E loc_Exact
   = (Build_shr_record M false false, E)) /\
  ((0 < n)%Z ->
   exists mrs,
     shr_fexp Number.prec Number.emax M E loc_Exact = (mrs, (E + n)%Z) /\
     shr_m mrs = (M / 2 ^ n)%Z /\
     shr_r mrs = Z.odd (M / 2 ^ (n - 1))).
Proof.
  intros HM n. unfold shr_fexp, shr. fold n. cbn [shr_record_of_loc].
  split; intros Hn.
  - destruct n; try lia; reflexivity.
  - destruct n as [|p|p] eqn:Hp; try lia.
    eexists. split; [reflexivity|].
    apply (iter_shr_1_spec p (Build_shr_record M false false)). cbn. lia.
Qed.

Lemma digits_le (R : positive) (k : Z) :
  (Z.pos R <= 2 ^ k)%Z -> (0 <= k)%Z -> (Z.pos (digits2_pos R) <= k + 1)%Z.
Proof.
  intros HR Hk. destruct (digits2_pos_bounds R) as [Hlo _].
  destruct (Z_le_gt_dec (Z.pos (digits2_pos R)) (k + 1)) as [|Hgt]; [done|].
  assert (2 ^ (k + 1) <= 2 ^ (Z.pos (digits2_pos R) - 1))%Z
    by (apply Z.pow_le_mono_r; lia).
  rewrite Z.pow_add_r, Z.pow_1_r in H by lia.
  assert (0 < 2 ^ k)%Z by (apply Z.pow_pos_nonneg; lia). lia.
Qed.

(** Rounding an exact mantissa [M] with exponent [E] to binary64: the
    result stands for [R * 2^e1], where [e1] is the target exponent and
    [R] is [M] shifted to it and rounded to nearest. *)
Lemma binary_round_aux_spec (M : positive) (E : Z) :
  let e1 := fexp Number.prec Number.emax (Z.pos (digits2_pos M) + E) in
  let n := (e1 - E)%Z in
  (0 <= n)%Z -> (e1 + 1 <= 971)%Z ->
  exists R : Z,
    ((n = 0%Z /\ R = Z.pos M) \/
     ((0 < n)%Z /\ (Z.pos M / 2 ^ n <= R <= Z.pos M / 2 ^ n + 1)%Z /\
      (Z.odd (Z.pos M / 2 ^ (n - 1)) = false -> R = (Z.pos M / 2 ^ n)%Z))) /\
    ((R = 0%Z /\
      binary_round_aux Number.prec Number.emax false (Z.pos M) E loc_Exact
      = S754_zero false) \/
     (exists m2 e2,
        binary_round_aux Number.prec Number.emax false (Z.pos M) E loc_Exact
        = S754_finite false m2 e2 /\
        (Z.pos m2 * 2 ^ (e2 - e1))%Z = R /\
        (e2 = e1 \/ (e2 = (e1 + 1)%Z /\ R = (2 ^ 53)%Z)))).
Proof.
  intros e1 n Hn He1.
  pose proof (digits2_pos_bounds M) as [HMlo HMhi].
  set (d := Z.pos (digits2_pos M)) in *.
  assert (e1 = Z.max (d + E - 53) (-1074))%Z as He1' by apply fexp_eq.
  destruct (shr_fexp_exact (Z.pos M) E ltac:(lia)) as [Hzero Hpos].
  cbn [Zdigits2] in Hzero, Hpos. fold d e1 n in Hzero, Hpos.
  unfold binary_round_aux.
  (* the mantissa after the first shift and the rounding *)
  assert (exists R : Z, exists mrs,
            shr_fexp Number.prec Number.emax (Z.pos M) E loc_Exact = (mrs, e1) /\
            R = round_nearest_even (shr_m mrs) (loc_of_shr_record mrs) /\
            (0 <= R <= 2 ^ 53)%Z /\ (n = 0%Z -> (2 ^ (d - 1) <= R < 2 ^ d)%Z) /\
            ((n = 0%Z /\ R = Z.pos M) \/
             ((0 < n)%Z /\ (Z.pos M / 2 ^ n <= R <= Z.pos M / 2 ^ n + 1)%Z /\
              (Z.odd (Z.pos M / 2 ^ (n - 1)) = false -> R = (Z.pos M / 2 ^ n)%Z))))
    as (R & mrs & Hshr & HR & HRb & HRd & Hcases).
  { destruct (Z.eq_dec n 0%Z) as [Hn0|Hn0].
    - eexists _, _. rewrite Hzero by lia. split; [f_equal; lia|].
      split; [reflexivity|]. cbn.
      assert (d <= 53)%Z by lia.
      assert (2 ^ d <= 2 ^ 53)%Z by (apply Z.pow_le_mono_r; lia).
      split; [lia|]. split; [intros _; lia|]. left. done.
    - destruct Hpos as (mrs & Hshr & Hm & Hr); [lia|].
      exists (round_nearest_even (shr_m mrs) (loc_of_shr_record mrs)), mrs.
      destruct (round_nearest_even_spec mrs) as [Hb Hdown]. cbv zeta in Hb, Hdown.
      set (R := round_nearest_even (shr_m mrs) (loc_of_shr_record mrs)) in *.
      rewrite Hm in Hb, Hdown. rewrite Hr in Hdown.
      assert (0 < 2 ^ n)%Z by (apply Z.pow_pos_nonneg; lia).
      assert (0 <= Z.pos M / 2 ^ n)%Z by (apply Z.div_pos; lia).
      assert (Z.pos M / 2 ^ n < 2 ^ 53)%Z.
      { apply Z.div_lt_upper_bound; [lia|]. rewrite <- Z.pow_add_r by lia.
        eapply Z.lt_le_trans; [exact HMhi|]. apply Z.pow_le_mono_r; lia. }
      split; [rewrite Hshr; f_equal; lia|]. split; [reflexivity|].
      split; [lia|]. split; [lia|]. right. split; [lia|]. split; [lia|]. exact Hdown. }
  exists R. split; [exact Hcases|].
  rewrite Hshr, <- HR.
  destruct R as [|R|R]; [|clear Hcases|lia].
  - left. split; [done|]. unfold shr_fexp, shr. cbn [Zdigits2 Z.add].
    rewrite fexp_eq. cbn [shr_record_of_loc].
    destruct (Z.max (0 + e1 - 53) (-1074) - e1)%Z eqn:Hn2; try reflexivity. lia.
  - right.
    destruct (shr_fexp_exact (Z.pos R) e1 ltac:(lia)) as [Hzero2 Hpos2].
    cbn [Zdigits2] in Hzero2, Hpos2. rewrite fexp_eq in Hzero2, Hpos2.
    set (d2 := Z.pos (digits2_pos R)) in *.
    pose proof (digits2_pos_bounds R) as [HRlo HRhi]. fold d2 in HRlo, HRhi.
    assert (d2 <= 54)%Z as Hd2 by (apply (digits_le R 53); lia).
    destruct (Z_le_gt_dec (Z.max (d2 + e1 - 53) (-1074) - e1) 0%Z) as [Hn2|Hn2].
    + rewrite Hzero2 by lia. cbn [shr_m].
      destruct (Z.leb_spec e1 (Number.emax - Number.prec)) as [_|Hbig];
        [|unfold Number.emax, Number.prec in Hbig; lia].
      exists R, e1. split; [reflexivity|]. split; [|by left].
      rewrite Z.sub_diag. cbn. lia.
    + assert (d2 = 54)%Z as Hd54 by lia.
      assert (Z.pos R = 2 ^ 53)%Z as HR53.
      { rewrite Hd54 in HRlo. cbn in HRlo. lia. }
      destruct Hpos2 as (mrs2 & Hshr2 & Hm2 & _); [lia|].
      rewrite Hshr2, Hm2.
      replace (Z.max (d2 + e1 - 53) (-1074) - e1)%Z with 1%Z by lia.
      rewrite HR53. change (2 ^ 53 / 2 ^ 1)%Z with (Z.pos (2 ^ 52)).
      cbn match.
      destruct (Z.leb_spec (e1 + 1) (Number.emax - Number.prec)) as [_|Hbig];
        [|unfold Number.emax, Number.prec in Hbig; lia].
      exists (2 ^ 52)%positive, (e1 + 1)%Z. split; [reflexivity|]. split; [|by right].
      replace (e1 + 1 - e1)%Z with 1%Z by lia. reflexivity.
Qed.

Lemma digits_unique (p : positive) (k : Z) :
  (2 ^ (k - 1) <= Z.pos p < 2 ^ k)%Z -> (1 <= k)%Z -> Z.pos (digits2_pos p) = k.
Proof.
  intros [Hlo Hhi] Hk. destruct (digits2_pos_bounds p) as [Dlo Dhi].
  set (d := Z.pos (digits2_pos p)) in *.
  assert (1 <= d)%Z by (unfold d; lia).
  destruct (Z.lt_trichotomy d k) as [Hlt|[Heq|Hgt]]; [|done|].
  - assert (2 ^ d <= 2 ^ (k - 1))%Z by (apply Z.pow_le_mono_r; lia). lia.
  - assert (2 ^ k <= 2 ^ (d - 1))%Z by (apply Z.pow_le_mono_r; lia). lia.
Qed.

Lemma iter_xO (m dd : positive) :
  Z.pos (Pos.iter xO m dd) = (Z.pos m * 2 ^ Z.pos dd)%Z.
Proof.
  induction dd as [|dd IH] using Pos.peano_ind.
  - cbn. lia.
  - rewrite Pos.iter_succ, Pos2Z.inj_succ, Z.pow_succ_r by lia.
    rewrite Pos2Z.inj_xO, IH. lia.
Qed.

(** The binary64 number of a positive integer below [2^53]: its mantissa
    is the integer shifted to 53 bits. *)
Lemma of_Z_normal (q : positive) :
  (Z.pos q < 2 ^ 53)%Z ->
  exists m e,
    Number.of_Z (Z.pos q) = S754_finite false m e /\
    (-52 <= e <= 0)%Z /\
    Z.pos m = (Z.pos q * 2 ^ (- e))%Z /\
    (2 ^ 52 <= Z.pos m < 2 ^ 53)%Z.
Proof.
  intros Hq. destruct (digits2_pos_bounds q) as [Dlo Dhi].
  set (d := Z.pos (digits2_pos q)) in *.
  assert (1 <= d)%Z as Hd1 by (unfold d; lia).
  assert (d <= 53)%Z as Hd53.
  { destruct (Z_le_gt_dec d 53) as [|Hgt]; [done|].
    assert (2 ^ 53 <= 2 ^ (d - 1))%Z by (apply Z.pow_le_mono_r; lia). lia. }
  unfold Number.of_Z, binary_normalize, binary_round, shl_align.
  rewrite fexp_eq. fold d.
  replace (Z.max (d + 0 - 53) (-1074) - 0)%Z with (d - 53)%Z by lia.
  assert (exists mz ez,
            (match (d - 53)%Z with
             | Z.neg dd => (Pos.iter xO q dd, Z.max (d + 0 - 53) (-1074))
             | _ => (q, 0%Z)
             end) = (mz, ez) /\
            ez = (d - 53)%Z /\ Z.pos mz = (Z.pos q * 2 ^ (- ez))%Z)
    as (mz & ez & -> & Hez & Hmz).
  { destruct (d - 53)%Z as [|dd|dd] eqn:Hdd; try lia.
    - exists q, 0%Z. split; [done|]. split; [done|]. cbn. lia.
    - eexists _, _. split; [reflexivity|]. split; [lia|].
      rewrite iter_xO.
      assert (- Z.max (d + 0 - 53) (-1074) = Z.pos dd)%Z as -> by (clear -Hdd Hd1; lia).
      reflexivity. }
  assert (2 ^ 52 <= Z.pos mz < 2 ^ 53)%Z as Hmzb.
  { rewrite Hmz, Hez.
    assert (2 ^ 52 = 2 ^ (d - 1) * 2 ^ (- (d - 53)))%Z as ->
      by (rewrite <- Z.pow_add_r by lia; f_equal; lia).
    assert (2 ^ 53 = 2 ^ d * 2 ^ (- (d - 53)))%Z as ->
      by (rewrite <- Z.pow_add_r by lia; f_equal; lia).
    assert (0 < 2 ^ (- (d - 53)))%Z by (apply Z.pow_pos_nonneg; lia).
    split; [apply Z.mul_le_mono_nonneg_r; lia | apply Z.mul_lt_mono_pos_r; lia]. }
  assert (Z.pos (digits2_pos mz) = 53%Z) as Hdz by (apply digits_unique; [exact Hmzb | lia]).
  destruct (binary_round_aux_spec mz ez) as (R & HR & Hres).
  { rewrite Hdz, fexp_eq. lia. }
  { rewrite Hdz, fexp_eq. lia. }
  rewrite Hdz, fexp_eq in HR, Hres.
  replace (Z.max (53 + ez - 53) (-1074))%Z with ez in HR, Hres by lia.
  destruct HR as [[_ ->]|[Hn _]]; [|lia].
  destruct Hres as [[[=] _]|(m2 & e2 & -> & Hval & [->|[_ Hbig]])]; [|lia].
  rewrite Z.sub_diag in Hval. exists m2, ez. split; [done|]. split; [lia|].
  split; [|lia]. rewrite <- Hmz. cbn in Hval. lia.
Qed.

Lemma ToIntegerOrInfinity_of_Z (q : Z) :
  (0 <= q < 2 ^ 53)%Z -> Number.ToIntegerOrInfinity (Number.of_Z q) = Some q.
Proof.
  intros Hq. destruct q as [|q|q]; [reflexivity| |lia].
  destruct (of_Z_normal q) as (m & e & -> & He & Hm & _); [lia|].
  cbn [Number.ToIntegerOrInfinity]. f_equal.
  destruct (Z.leb_spec 0 e) as [H0|H0].
  - assert (e = 0%Z) as -> by lia. cbn in Hm |- *. lia.
  - rewrite Hm. apply Z.quot_mul. apply Z.pow_nonzero; lia.
Qed.

Lemma canonical_below_one (m : positive) (e : Z) :
  bounded Number.prec Number.emax m e = true ->
  SFltb (S754_finite false m e) (Number.of_Z 1) = true ->
  (-1074 <= e)%Z /\ (Z.pos (digits2_pos m) <= 53)%Z /\
  (Z.pos (digits2_pos m) + e <= 0)%Z.
Proof.
  unfold bounded, canonical_mantissa. rewrite fexp_eq.
  intros [Hc _]%andb_true_iff. apply Z.eqb_eq in Hc.
  change (Number.of_Z 1) with (S754_finite false (2 ^ 52) (-52)).
  unfold SFltb, SFcompare. intros Hlt.
  destruct (digits2_pos_bounds m) as [Dlo Dhi].
  set (d := Z.pos (digits2_pos m)) in *.
  assert (e <= -53)%Z as He.
  { destruct (Z.compare_spec e (-52)) as [->|Hl|Hg]; [|lia|done].
    assert (d = 53%Z) as Hd by lia. rewrite Hd in Dlo.
    rewrite Pos.compare_cont_spec in Hlt. cbn [Pos.switch_Eq] in Hlt.
    destruct (Pos.compare_spec m (2 ^ 52)) as [Heq|Hl|Hg]; try done.
    apply Pos2Z.pos_lt_pos in Hl. cbn in Dlo, Hl. lia. }
  lia.
Qed.

(** The product of a number below 1 and a positive integer, rounded to
    binary64, has an integer part below the integer. *)
Lemma product_below (m : positive) (e : Z) (n : positive) :
  bounded Number.prec Number.emax m e = true ->
  SFltb (S754_finite false m e) (Number.of_Z 1) = true ->
  (Z.pos n < 2 ^ 53)%Z ->
  exists z : Z,
    Number.ToIntegerOrInfinity
      (Number.Math_floor (Number.mul (S754_finite false m e) (Number.of_Z (Z.pos n))))
    = Some z /\ (0 <= z < Z.pos n)%Z.
Proof.
  intros Hb Hlt Hn.
  destruct (canonical_below_one m e Hb Hlt) as (Hemin & Hdm53 & Hdme).
  destruct (of_Z_normal n Hn) as (mn & en & -> & Hen & Hmn & Hmnb).
  destruct (digits2_pos_bounds m) as [Dmlo Dmhi].
  set (dm := Z.pos (digits2_pos m)) in *.
  unfold Number.mul, SFmul. cbn [xorb].
  destruct (digits2_pos_bounds (m * mn)) as [Dlo Dhi].
  set (M := (m * mn)%positive) in *.
  set (d := Z.pos (digits2_pos M)) in *.
  set (E := (e + en)%Z).
  assert (Z.pos M = Z.pos m * Z.pos mn)%Z as HM by (unfold M; lia).
  (* the size of the product *)
  assert (0 < 2 ^ (- e))%Z as Hpe by (apply Z.pow_pos_nonneg; lia).
  assert (Z.pos m < 2 ^ (- e))%Z as Hm1.
  { eapply Z.lt_le_trans; [exact Dmhi|]. apply Z.pow_le_mono_r; lia. }
  assert (53 <= d)%Z as Hd53.
  { destruct (Z_le_gt_dec 53 d) as [|Hgt]; [done|].
    assert (2 ^ d <= 2 ^ 52)%Z by (apply Z.pow_le_mono_r; lia). nia. }
  assert (d <= dm + 53)%Z as Hddm.
  { destruct (Z_le_gt_dec d (dm + 53)) as [|Hgt]; [done|].
    assert (2 ^ (dm + 53) <= 2 ^ (d - 1))%Z by (apply Z.pow_le_mono_r; lia).
    rewrite Z.pow_add_r in H by lia. nia. }
  destruct (binary_round_aux_spec M E) as (R & HR & Hres).
  { fold d. rewrite fexp_eq. lia. }
  { fold d. rewrite fexp_eq. lia. }
  fold d in HR, Hres. rewrite fexp_eq in HR, Hres.
  set (e1 := Z.max (d + E - 53) (-1074)) in *.
  set (n1 := (e1 - E)%Z) in *.
  assert (0 <= n1 <= - e)%Z as Hn1 by (unfold n1, e1, E; lia).
  assert (e1 <= en)%Z as He1en by (unfold e1, E; lia).
  assert (0 < 2 ^ n1)%Z as Hpn1 by (apply Z.pow_pos_nonneg; lia).
  assert (0 < 2 ^ (- e1))%Z as Hpe1 by (apply Z.pow_pos_nonneg; lia).
  (* the bound in units of [2^e1] *)
  set (Q := (Z.pos n * 2 ^ (- e1))%Z).
  assert (Z.pos mn * 2 ^ (- e) = Q * 2 ^ n1)%Z as HQ.
  { unfold Q. rewrite Hmn, <- !Z.mul_assoc, <- !Z.pow_add_r by lia.
    do 2 f_equal. unfold n1, E. lia. }
  assert (Z.pos M + Z.pos mn <= Q * 2 ^ n1)%Z as HMQ by (rewrite <- HQ; nia).
  assert (R < Q)%Z as HRQ.
  { destruct HR as [[Hn0 ->]|(Hnpos & [HRlo HRhi] & Hdown)].
    - rewrite Hn0 in HMQ. cbn in HMQ. lia.
    - assert (Z.pos M / 2 ^ n1 < Q)%Z as HF by (apply Z.div_lt_upper_bound; lia).
      destruct (Z_le_gt_dec (Z.pos M / 2 ^ n1) (Q - 2)) as [|Htop]; [lia|].
      assert (Z.pos M / 2 ^ n1 = Q - 1)%Z as HFQ by lia.
      rewrite Hdown; [lia|].
      (* the remainder is below one half *)
      assert (2 ^ n1 = 2 * 2 ^ (n1 - 1))%Z as Hhalf.
      { rewrite <- Z.pow_succ_r by lia. f_equal. lia. }
      assert (0 < 2 ^ (n1 - 1))%Z as Hph by (apply Z.pow_pos_nonneg; lia).
      assert (2 ^ (n1 - 1) < Z.pos mn)%Z as Hmnhalf.
      { destruct (Z_le_gt_dec n1 52) as [Hle|Hgt].
        - assert (2 ^ (n1 - 1) <= 2 ^ 51)%Z by (apply Z.pow_le_mono_r; lia). lia.
        - assert (d = 106%Z /\ n1 = 53%Z) as [Hd106 Hn53] by (unfold n1, e1, E in *; lia).
          rewrite Hd106 in Dlo. rewrite Hn53. cbn in Dlo |- *.
          assert (Z.pos m < 2 ^ 53)%Z.
          { eapply Z.lt_le_trans; [exact Dmhi|]. apply Z.pow_le_mono_r; lia. }
          nia. }
      pose proof (Z.div_mod (Z.pos M) (2 ^ n1) ltac:(lia)) as Hdm.
      pose proof (Z.mod_pos_bound (Z.pos M) (2 ^ n1) ltac:(lia)) as Hmb.
      rewrite HFQ in Hdm.
      set (rem := (Z.pos M mod 2 ^ n1)%Z) in *.
      assert (rem < 2 ^ (n1 - 1))%Z as Hrem by nia.
      assert (Z.pos M / 2 ^ (n1 - 1) = 2 * (Q - 1))%Z as ->.
      { symmetry. apply (Z.div_unique _ _ _ rem); [lia|]. rewrite Hdm, Hhalf. ring. }
      rewrite Z.odd_mul. reflexivity. }
  assert (0 <= R)%Z as HR0.
  { destruct HR as [[_ ->]|(_ & [HRlo _] & _)]; [lia|].
    assert (0 <= Z.pos M / 2 ^ n1)%Z by (apply Z.div_pos; lia). lia. }
  assert (R / 2 ^ (- e1) < Z.pos n)%Z as Hindex
    by (apply Z.div_lt_upper_bound; [lia|]; unfold Q in HRQ; lia).
  assert (0 <= R / 2 ^ (- e1))%Z as Hindex0 by (apply Z.div_pos; lia).
  destruct Hres as [[_ ->]|(m2 & e2 & -> & Hval & He2)].
  - exists 0%Z. split; [reflexivity | lia].
  - exists (R / 2 ^ (- e1))%Z. split; [|lia].
    cbn [Number.Math_floor].
    assert (e1 <= 0)%Z as He10 by lia.
    destruct He2 as [->|[-> HR53]].
    + rewrite Z.sub_diag in Hval. cbn in Hval.
      destruct (Z.leb_spec 0 e1) as [H0|H0].
      * assert (e1 = 0%Z) as He0 by lia. rewrite He0.
        cbn [Number.ToIntegerOrInfinity]. change (0 <=? 0)%Z with true. cbv iota.
        change (- 0)%Z with 0%Z. rewrite Z.pow_0_r, Z.div_1_r, Z.mul_1_r. f_equal. lia.
      * rewrite Z.shiftr_div_pow2 by lia.
        replace (Z.pos m2) with R by lia.
        apply ToIntegerOrInfinity_of_Z. lia.
    + replace (e1 + 1 - e1)%Z with 1%Z in Hval by lia. rewrite Z.pow_1_r in Hval.
      assert (e1 <= -1)%Z as He11.
      { destruct (Z_le_gt_dec e1 (-1)) as [|Hgt]; [done|].
        assert (e1 = 0%Z) as He0 by lia. rewrite He0 in Hindex. cbn in Hindex.
        rewrite Z.div_1_r in Hindex. cbn in Hn. lia. }
      assert (R / 2 ^ (- e1) = Z.pos m2 / 2 ^ (- (e1 + 1)))%Z as Hsame.
      { rewrite <- Hval.
        replace (2 ^ (- e1))%Z with (2 * 2 ^ (- (e1 + 1)))%Z
          by (rewrite <- Z.pow_succ_r by lia; f_equal; lia).
        rewrite (Z.mul_comm (Z.pos m2) 2).
        assert (0 < 2 ^ (- (e1 + 1)))%Z by (apply Z.pow_pos_nonneg; lia).
        rewrite Z.div_mul_cancel_l by lia. reflexivity. }
      destruct (Z.leb_spec 0 (e1 + 1)) as [H0|H0].
      * assert (e1 + 1 = 0)%Z as He0 by lia. rewrite Hsame, He0.
        cbn [Number.ToIntegerOrInfinity]. change (0 <=? 0)%Z with true. cbv iota.
        change (- 0)%Z with 0%Z. by rewrite Z.pow_0_r, Z.div_1_r, Z.mul_1_r.
      * rewrite Z.shiftr_div_pow2 by lia. rewrite Hsame.
        apply ToIntegerOrInfinity_of_Z. lia.
Qed.

(** With [Math.random] in its range, the index passed to [charAt] lies
    within a non-empty alphabet. *)
Lemma drawn_index_in_range (random : nat -> number) (chars : string) (i : nat) :
  Math_random_range (random i) = true ->
  chars ≠ EmptyString ->
  (Z.of_nat (String.length chars) < 2 ^ 53)%Z ->
  exists index,
    drawn_index random chars i = Some (Z.of_nat index) /\
    index < String.length chars.
Proof.
  unfold Math_random_range, drawn_index.
  intros [[Hvalid Hge]%andb_true_iff Hlt]%andb_true_iff Hne Hlen.
  assert (exists n : positive, Z.of_nat (String.length chars) = Z.pos n) as [n Hn].
  { destruct chars as [|c chars]; [done|]. cbn [String.length].
    exists (Pos.of_succ_nat (String.length chars)). lia. }
  rewrite Hn in Hlen |- *.
  assert (exists z : Z,
            Number.ToIntegerOrInfinity
              (Number.Math_floor (Number.mul (random i) (Number.of_Z (Z.pos n))))
            = Some z /\ (0 <= z < Z.pos n)%Z) as (z & Hz & Hzb).
  { change (Number.of_Z 1) with (S754_finite false (2 ^ 52) (-52)) in Hlt.
    change (Number.of_Z 0) with (S754_zero false) in Hge.
    destruct (random i) as [s|s| |s m e].
    - destruct (of_Z_normal n Hlen) as (mn & en & -> & _).
      exists 0%Z. split; [reflexivity | lia].
    - destruct s; discriminate.
    - discriminate.
    - destruct s; [discriminate|]. by apply product_below. }
  exists (Z.to_nat z). rewrite Z2Nat.id by lia. split; [exact Hz | lia].
Qed.

(** X22. The password has the length that was asked for. When the
    alphabet is not empty and every [Math.random()] is a binary64 number
    from 0 inclusive to 1 exclusive, the rounded product
    [Math.random() * chars.length] has an integer part below
    [chars.length], whatever the rounding does: the password has exactly
    [len] characters, and character [i] is the one of the alphabet at the
    index drawn in round [i]. *)
Theorem generatePassword_length (random : nat -> number) (len : nat)
    (upper lower digits : bool) (symbols : option string) :
  let chars := password_alphabet upper lower digits symbols in
  chars ≠ EmptyString ->
  (Z.of_nat (String.length chars) < 2 ^ 53)%Z ->
  (forall i, i < len -> Math_random_range (random i) = true) ->
  let password := generatePassword random len upper lower digits symbols in
  String.length password = len /\
  forall i, i < len ->
    exists index c,
      drawn_index random chars i = Some (Z.of_nat index) /\
      String.get index chars = Some c /\
      String.get i password = Some c.
Proof.
  cbv zeta. intros Hne Hlen Hrange. rewrite generatePassword_unfold.
  set (chars := password_alphabet upper lower digits symbols) in *.
  set (index := fun i => Z.to_nat (default 0%Z (drawn_index random chars i))).
  assert (forall i, 0 <= i < 0 + len ->
            drawn_index random chars i = Some (Z.of_nat (index i)) /\
            index i < String.length chars) as Hdraws.
  { intros i Hi.
    destruct (drawn_index_in_range random chars i) as (k & Hk & Hkb);
      [apply Hrange; lia|done..|].
    unfold index. rewrite Hk. unfold default. cbn [from_option id]. by rewrite Nat2Z.id. }
  destruct (generatePassword_loop_draws random chars index len 0 Hdraws) as [Hl Hget].
  split; [exact Hl|]. intros i Hi. rewrite (Hget i Hi).
  destruct (Hdraws i ltac:(lia)) as [Hd Hlt].
  destruct (get_lt chars (index (0 + i)) Hlt) as [c Hc].
  exists (index i), c. done.
Qed.

Lemma generatePassword_length_witness :
  let random := fun i : nat =>
    Number.div (Number.of_Z (Z.of_nat i)) (Number.of_Z 16) in
  String.length (generatePassword random 16 true true true (Some "#*+")) = 16.
Proof.
  cbv zeta.
  apply (generatePassword_length _ 16 true true true (Some "#*+")).
  - discriminate.
  - vm_compute. reflexivity.
  - intros i Hi. do 16 (destruct i as [|i]; [vm_compute; reflexivity|]). lia.
Defined.
